(** * The bridge layer of moltbot-with-lark, verified

    A shallow embedding of the retry executor ([utils/retry.ts],
    [utils/errors.ts]), the conversation context manager
    ([bridge/context.ts]), the stream processor and the message transformer
    ([bridge/processor.ts], [bridge/transformer.ts]).

    Conventions.  A JavaScript [number] that the code uses as an integer
    (attempt counters, millisecond clocks, thresholds) is a [Z].  A JavaScript
    string is a [string], a sequence of 8-bit code units; [String.length] is
    the [.length] of the source.  An optional property [p?: T] is an
    [option T], [None] standing for [undefined].  The [Map] of the context
    manager is a [gmap].  Logging has no effect on any value below and is
    left out. *)

From Stdlib Require Import ZArith List String Ascii Bool Lia.
From stdpp Require Import base option list gmap strings pretty.

Local Open Scope Z_scope.

(** The line feed, written ["\n"] in the source. *)
Definition LF : string := String "010"%char EmptyString.

(** ** utils/errors.ts *)
Module Errors.

(** A value of class [Error].  [AppError] covers the class of that name and
    all its subclasses (LarkError, MoltbotError, BridgeError, ...): they
    differ only in the constants passed to the base constructor.
    [PlainError] is any [Error] that is not an instance of [AppError]. *)
Inductive Error : Type :=
| PlainError (message : string)
| AppError (name message code : string) (statusCode : Z) (isTransient : bool).

Definition message_of (e : Error) : string :=
  match e with
  | PlainError m => m
  | AppError _ m _ _ _ => m
  end.

(** [String.prototype.toLowerCase] on the letters that matter for the
    patterns below: A-Z are mapped to a-z, everything else is kept. *)
Definition lower_ascii (c : ascii) : ascii :=
  let n := N_of_ascii c in
  if ((65 <=? n) && (n <=? 90))%N then ascii_of_N (n + 32) else c.

Fixpoint toLowerCase (s : string) : string :=
  match s with
  | EmptyString => EmptyString
  | String c s' => String (lower_ascii c) (toLowerCase s')
  end.

(** [/pattern/.test(s)] for a pattern made of literal characters only:
    does [s] contain [pattern]? *)
Fixpoint test (pattern s : string) : bool :=
  String.prefix pattern s ||
  match s with
  | EmptyString => false
  | String _ s' => test pattern s'
  end.

Definition transientPatterns : list string :=
  [ "ECONNREFUSED"; "ETIMEDOUT"; "ENOTFOUND"; "ECONNRESET"; "EPIPE";
    "timeout"; "network"; "temporary" ]%string.

Definition isTransientError (error : Error) : bool :=
  match error with
  | AppError _ _ _ _ isTransient => isTransient
  | PlainError message =>
      let errorMessage := toLowerCase message in
      existsb (fun pattern => test pattern errorMessage) transientPatterns
  end.

End Errors.

(** ** utils/retry.ts *)
Module Retry.
Import Errors.

(** [RetryConfig]: every key is optional.  [None] is a key that is
    absent; a key that is present holds a value of its declared type.  An
    object that carries a key with the value [undefined], which the spread
    in [retry] would copy over the default, is not represented: no caller
    in the repository builds one. *)
Record RetryConfig : Type := mkRetryConfig {
  maxAttempts : option Z;
  initialDelay : option Z;
  maxDelay : option Z;
  backoffMultiplier : option Z;
  retryableErrors : option (Error -> bool)
}.

(** [Required<RetryConfig>] *)
Record FinalConfig : Type := mkFinalConfig {
  final_maxAttempts : Z;
  final_initialDelay : Z;
  final_maxDelay : Z;
  final_backoffMultiplier : Z;
  final_retryableErrors : Error -> bool
}.

Definition DEFAULT_RETRY_CONFIG : FinalConfig :=
  {| final_maxAttempts := 3;
     final_initialDelay := 1000;
     final_maxDelay := 30000;
     final_backoffMultiplier := 2;
     final_retryableErrors := isTransientError |}.

(** The empty configuration [{}], the default of the [config] parameter. *)
Definition emptyConfig : RetryConfig :=
  mkRetryConfig None None None None None.

(** [{ ...DEFAULT_RETRY_CONFIG, ...config }] *)
Definition finalConfig (config : RetryConfig) : FinalConfig :=
  {| final_maxAttempts :=
       default (final_maxAttempts DEFAULT_RETRY_CONFIG) (maxAttempts config);
     final_initialDelay :=
       default (final_initialDelay DEFAULT_RETRY_CONFIG) (initialDelay config);
     final_maxDelay :=
       default (final_maxDelay DEFAULT_RETRY_CONFIG) (maxDelay config);
     final_backoffMultiplier :=
       default (final_backoffMultiplier DEFAULT_RETRY_CONFIG)
               (backoffMultiplier config);
     final_retryableErrors :=
       default (final_retryableErrors DEFAULT_RETRY_CONFIG)
               (retryableErrors config) |}.

(** What [retry] can throw.  [throw lastError] re-raises the very object
    the operation threw ([ThrowOriginal]); [new RetryExhaustedError(...)]
    is a fresh object, distinct from anything the operation threw
    ([ThrowRetryExhausted], with its [message], [attempts] and
    [originalError]); the [throw lastError] after the loop throws
    [undefined] when the loop body never ran. *)
Inductive Thrown : Type :=
| ThrowOriginal (e : Error)
| ThrowRetryExhausted (message : string) (attempts : Z) (originalError : Error)
| ThrowUndefined.

Inductive Outcome (T : Type) : Type :=
| Returned (v : T)
| Threw (t : Thrown).
Arguments Returned {T} v.
Arguments Threw {T} t.

(** The operation [fn : () => Promise<T>] is called repeatedly and may
    answer differently each time: [fn k] is the settlement of the call made
    after [k] earlier calls, [inl e] for a rejection with [e]. *)
Definition Operation (T : Type) : Type := nat -> Error + T.

(** The result of one [retry], with the number of times [fn] was called. *)
Record Run (T : Type) : Type := mkRun {
  outcome : Outcome T;
  invocations : nat
}.
Arguments mkRun {T} outcome invocations.
Arguments outcome {T} r.
Arguments invocations {T} r.

(** The values taken by [attempt] in
    [for (let attempt = 1; attempt <= maxAttempts; attempt++)]:
    1, 2, ..., maxAttempts, and none when [maxAttempts < 1]. *)
Definition attemptRange (maxAttempts : Z) : list Z :=
  map (fun i => Z.of_nat i) (seq 1 (Z.to_nat maxAttempts)).

Definition exhaustedMessage (maxAttempts : Z) : string :=
  ("Operation failed after " +:+ pretty maxAttempts +:+ " attempts")%string.

(** The body of the loop, run for each remaining value of [attempt];
    [calls] counts the calls of [fn] made so far.  [sleep(delay)] between
    two attempts only suspends the caller and is not represented. *)
Fixpoint retryLoop {T} (fn : Operation T) (cfg : FinalConfig)
    (attempts : list Z) (calls : nat) (lastError : option Error) : Run T :=
  match attempts with
  | [] =>
      (* after the loop: throw lastError *)
      match lastError with
      | Some e => mkRun (Threw (ThrowOriginal e)) calls
      | None => mkRun (Threw ThrowUndefined) calls
      end
  | attempt :: rest =>
      match fn calls with
      | inr v => mkRun (Returned v) (S calls)
      | inl error =>
          let shouldRetry := final_retryableErrors cfg error in
          if negb shouldRetry || (attempt >=? final_maxAttempts cfg) then
            if attempt >=? final_maxAttempts cfg then
              mkRun (Threw (ThrowRetryExhausted
                              (exhaustedMessage (final_maxAttempts cfg))
                              (final_maxAttempts cfg) error))
                    (S calls)
            else mkRun (Threw (ThrowOriginal error)) (S calls)
          else retryLoop fn cfg rest (S calls) (Some error)
      end
  end.

Definition retry {T} (fn : Operation T) (config : RetryConfig) : Run T :=
  let cfg := finalConfig config in
  retryLoop fn cfg (attemptRange (final_maxAttempts cfg)) 0%nat None.

(** [fn] rejected with a retryable error on each of its first [n] calls. *)
Definition retryableFailures {T} (fn : Operation T) (cfg : FinalConfig)
    (n : nat) : Prop :=
  forall k, (k < n)%nat ->
    exists e, fn k = inl e /\ final_retryableErrors cfg e = true.

(** What a run can be, case by case: the shape in which the lemmas below
    describe [retryLoop]. *)
Definition runSpec {T} (fn : Operation T) (cfg : FinalConfig) (r : Run T)
    : Prop :=
  let maxA := final_maxAttempts cfg in
  match outcome r with
  | Returned v =>
      (1 <= invocations r <= Z.to_nat maxA)%nat /\
      fn (Nat.pred (invocations r)) = inr v /\
      retryableFailures fn cfg (Nat.pred (invocations r))
  | Threw (ThrowRetryExhausted msg attempts e) =>
      msg = exhaustedMessage maxA /\ attempts = maxA /\ 1 <= maxA /\
      invocations r = Z.to_nat maxA /\
      fn (Nat.pred (invocations r)) = inl e /\
      retryableFailures fn cfg (Nat.pred (invocations r))
  | Threw (ThrowOriginal e) =>
      (1 <= invocations r < Z.to_nat maxA)%nat /\
      fn (Nat.pred (invocations r)) = inl e /\
      final_retryableErrors cfg e = false /\
      retryableFailures fn cfg (Nat.pred (invocations r))
  | Threw ThrowUndefined =>
      maxA < 1 /\ invocations r = 0%nat
  end.

(** Sample operations: two transient failures and then a failure that is
    not retryable; a transient failure at every call. *)
Definition rejectedAtThird : Operation unit :=
  fun k => if (k <? 2)%nat then inl (PlainError "socket timeout")
           else inl (PlainError "invalid request").

Definition alwaysTimeout : Operation unit :=
  fun _ => inl (PlainError "request timeout").

End Retry.

(** ** bridge/context.ts *)
Module Context.

Inductive Role : Type := system | user | assistant.

Record MoltbotMessage : Type := mkMessage {
  role : Role;
  content : string
}.

Record ConversationContext : Type := mkContext {
  chatId : string;
  messages : list MoltbotMessage;
  lastActivity : Z;
  messageCount : Z
}.

(** The manager object: its [Map] and its two private settings.  The
    insertion order a JavaScript [Map] keeps is observable only through
    the order of [getActiveConversations] and is not kept here. *)
Record ConversationContextManager : Type := mkManager {
  conversations : gmap string ConversationContext;
  maxHistoryLength : Z;
  maxAge : Z
}.

(** [new ConversationContextManager(maxHistoryLength, maxAgeHours)] *)
Definition newManager (maxHistoryLength maxAgeHours : Z)
    : ConversationContextManager :=
  {| conversations := ∅;
     maxHistoryLength := maxHistoryLength;
     maxAge := maxAgeHours * 60 * 60 * 1000 |}.

(** [new ConversationContextManager()] *)
Definition defaultManager : ConversationContextManager := newManager 10 24.

(** [array.splice(0, deleteCount)]: what is left in the array.  A
    [deleteCount] below 0 removes nothing, one above the length removes
    everything. *)
Definition splice0 {A} (deleteCount : Z) (l : list A) : list A :=
  drop (Z.to_nat deleteCount) l.

(** [addMessage(chatId, message)], with [now] the value of [Date.now()].
    For a new context the source reads the clock twice in a row; the first
    reading is overwritten by the second before anything can see it. *)
Definition addMessage (id : string) (message : MoltbotMessage) (now : Z)
    (mgr : ConversationContextManager) : ConversationContextManager :=
  let context :=
    match conversations mgr !! id with
    | Some c => c
    | None => mkContext id [] now 0
    end in
  let pushed := messages context ++ [message] in
  let len := Z.of_nat (length pushed) in
  let trimmed :=
    if len >? maxHistoryLength mgr
    then splice0 (len - maxHistoryLength mgr) pushed
    else pushed in
  let context' :=
    mkContext (chatId context) trimmed now (messageCount context + 1) in
  mkManager (<[id := context']> (conversations mgr))
            (maxHistoryLength mgr) (maxAge mgr).

(** [getContext(chatId)]: the returned messages and the manager after the
    call. *)
Definition getContext (id : string) (now : Z)
    (mgr : ConversationContextManager)
    : list MoltbotMessage * ConversationContextManager :=
  match conversations mgr !! id with
  | None => ([], mgr)
  | Some context =>
      let age := now - lastActivity context in
      if age >? maxAge mgr then
        ([], mkManager (delete id (conversations mgr))
                       (maxHistoryLength mgr) (maxAge mgr))
      else (messages context, mgr)
  end.

Definition clearContext (id : string) (mgr : ConversationContextManager)
    : ConversationContextManager :=
  match conversations mgr !! id with
  | Some _ => mkManager (delete id (conversations mgr))
                        (maxHistoryLength mgr) (maxAge mgr)
  | None => mgr
  end.

Definition expired (now maxAge : Z) (entry : string * ConversationContext)
    : Prop :=
  now - lastActivity (snd entry) > maxAge.

#[export] Instance expired_dec now maxAge entry
  : Decision (expired now maxAge entry).
Proof. unfold expired. apply _. Defined.

(** [cleanupExpiredConversations()]: the number of contexts removed and
    the manager after the call. *)
Definition cleanupExpiredConversations (now : Z)
    (mgr : ConversationContextManager) : Z * ConversationContextManager :=
  let expiredChatIds := filter (expired now (maxAge mgr)) (conversations mgr) in
  (Z.of_nat (size expiredChatIds),
   mkManager (filter (fun entry => ~ expired now (maxAge mgr) entry)
                     (conversations mgr))
             (maxHistoryLength mgr) (maxAge mgr)).

(** [getActiveConversations()], as the set of keys. *)
Definition getActiveConversations (mgr : ConversationContextManager)
    : gset string :=
  dom (conversations mgr).

Definition hasConversation (id : string) (mgr : ConversationContextManager)
    : bool :=
  bool_decide (is_Some (conversations mgr !! id)).

(** The calls a client can make on a manager, each with the clock value it
    observes, and their effect on the manager. *)
Inductive Call : Type :=
| CallAddMessage (id : string) (message : MoltbotMessage) (now : Z)
| CallGetContext (id : string) (now : Z)
| CallClearContext (id : string)
| CallCleanup (now : Z).

Definition step (mgr : ConversationContextManager) (c : Call)
    : ConversationContextManager :=
  match c with
  | CallAddMessage id message now => addMessage id message now mgr
  | CallGetContext id now => snd (getContext id now mgr)
  | CallClearContext id => clearContext id mgr
  | CallCleanup now => snd (cleanupExpiredConversations now mgr)
  end.

Definition run (mgr : ConversationContextManager) (calls : list Call)
    : ConversationContextManager :=
  fold_left step calls mgr.

(** A sequence of [addMessage] calls to one conversation: each message
    with the clock value of its call. *)
Definition appendAll (id : string) (appends : list (MoltbotMessage * Z))
    (mgr : ConversationContextManager) : ConversationContextManager :=
  fold_left (fun m a => addMessage id (fst a) (snd a) m) appends mgr.

(** The history stored for a conversation, empty when there is none. *)
Definition stored (id : string) (mgr : ConversationContextManager)
    : list MoltbotMessage :=
  match conversations mgr !! id with
  | Some c => messages c
  | None => []
  end.

(** The last [n] elements of a list, in their order. *)
Definition mostRecent {A} (n : nat) (l : list A) : list A :=
  drop (length l - n) l.

(** Sample data: three messages and a manager that keeps two of them for
    one hour. *)
Definition msgA : MoltbotMessage := mkMessage user "first".
Definition msgB : MoltbotMessage := mkMessage assistant "second".
Definition msgC : MoltbotMessage := mkMessage user "third".
Definition smallManager : ConversationContextManager := newManager 2 1.

(** Every stored history respects the bound. *)
Definition bounded (mgr : ConversationContextManager) : Prop :=
  forall id c, conversations mgr !! id = Some c ->
    Z.of_nat (length (messages c)) <= maxHistoryLength mgr.

End Context.

(** ** bridge/processor.ts *)
Module Stream.
Import Errors Retry.

Record StreamProcessingOptions : Type := mkOptions {
  chunkThreshold : option Z;
  timeThreshold : option Z;
  sendPartialUpdates : option bool
}.

(** [x || d] on an optional number: [d] when [x] is [undefined] or [0]. *)
Definition orElse (x : option Z) (d : Z) : Z :=
  match x with
  | Some v => if v =? 0 then d else v
  | None => d
  end.

(** The callback [onPartialUpdate(chatId, content, isComplete)].  It is
    supplied by the caller and may answer differently at each call: the
    first argument is the number of calls made before this one, the result
    is [inl e] when the promise rejects with [e]. *)
Definition Callback : Type := nat -> string -> string -> bool -> Error + unit.

(** The processor object.  After the constructor the three options are
    always set, so they are kept as plain values. *)
Record StreamProcessor : Type := mkProcessor {
  chatId : string;
  onPartialUpdate : Callback;
  opt_chunkThreshold : Z;
  opt_timeThreshold : Z;
  opt_sendPartialUpdates : bool;
  buffer : string;
  lastUpdateTime : Z;
  isComplete : bool
}.

(** [new StreamProcessor(chatId, onPartialUpdate, options)] *)
Definition newProcessor (chatId : string) (onPartialUpdate : Callback)
    (options : StreamProcessingOptions) : StreamProcessor :=
  {| chatId := chatId;
     onPartialUpdate := onPartialUpdate;
     opt_chunkThreshold := orElse (chunkThreshold options) 100;
     opt_timeThreshold := orElse (timeThreshold options) 1000;
     opt_sendPartialUpdates := default true (sendPartialUpdates options);
     buffer := "";
     lastUpdateTime := 0;
     isComplete := false |}.

Definition setBuffer (b : string) (p : StreamProcessor) : StreamProcessor :=
  mkProcessor (chatId p) (onPartialUpdate p) (opt_chunkThreshold p)
    (opt_timeThreshold p) (opt_sendPartialUpdates p)
    b (lastUpdateTime p) (isComplete p).

Definition setLastUpdateTime (t : Z) (p : StreamProcessor) : StreamProcessor :=
  mkProcessor (chatId p) (onPartialUpdate p) (opt_chunkThreshold p)
    (opt_timeThreshold p) (opt_sendPartialUpdates p)
    (buffer p) t (isComplete p).

Definition setIsComplete (c : bool) (p : StreamProcessor) : StreamProcessor :=
  mkProcessor (chatId p) (onPartialUpdate p) (opt_chunkThreshold p)
    (opt_timeThreshold p) (opt_sendPartialUpdates p)
    (buffer p) (lastUpdateTime p) c.

(** One call of [sendPartialUpdate], as seen from outside: the content and
    the [isComplete] argument handed to the callback, the value the
    processor's own [isComplete] field had during the call, and the
    settlement of each call of the callback that [retry] made. *)
Record Emission : Type := mkEmission {
  em_content : string;
  em_isFinal : bool;
  em_completeField : bool;
  em_deliveries : list (Error + unit)
}.

Definition callbackCalls (log : list Emission) : nat :=
  list_sum (map (fun e => length (em_deliveries e)) log).

(** State threaded through the methods: the processor and the emissions
    made so far. *)
Definition State : Type := StreamProcessor * list Emission.

Inductive Result (A : Type) : Type :=
| Ok (a : A)
| Fail (t : Thrown).
Arguments Ok {A} a.
Arguments Fail {A} t.

Definition M (A : Type) : Type := State -> Result A * State.

Definition ret {A} (a : A) : M A := fun st => (Ok a, st).

Definition throw {A} (t : Thrown) : M A := fun st => (Fail t, st).

Definition bind {A B} (m : M A) (k : A -> M B) : M B :=
  fun st =>
    match m st with
    | (Ok a, st') => k a st'
    | (Fail t, st') => (Fail t, st')
    end.

Definition getProcessor : M StreamProcessor := fun st => (Ok (fst st), st).

Definition update (f : StreamProcessor -> StreamProcessor) : M unit :=
  fun st => (Ok tt, (f (fst st), snd st)).

Notation "'let*' x ':=' m 'in' k" := (bind m (fun x => k))
  (at level 10, x name, m at level 100, k at level 200).

(** [shouldSendPartialUpdate(now)] *)
Definition shouldSendPartialUpdate (p : StreamProcessor) (now : Z) : bool :=
  if negb (opt_sendPartialUpdates p) then false
  else
    let timeSinceLastUpdate := now - lastUpdateTime p in
    let bufferLength := Z.of_nat (String.length (buffer p)) in
    (bufferLength >=? opt_chunkThreshold p) ||
    ((bufferLength >? 0) && (timeSinceLastUpdate >=? opt_timeThreshold p)).

(** [sendPartialUpdate(content, isComplete)]: the callback under
    [retry(..., { maxAttempts: 3 })]; the catch block logs and rethrows. *)
Definition sendPartialUpdate (content : string) (isFinal : bool) : M unit :=
  fun st =>
    let p := fst st in
    let log := snd st in
    let before := callbackCalls log in
    let fn : Operation unit :=
      fun k => onPartialUpdate p (before + k)%nat (chatId p) content isFinal in
    let r := retry fn (mkRetryConfig (Some 3) None None None None) in
    let em := mkEmission content isFinal (isComplete p)
                (map fn (seq 0 (invocations r))) in
    match outcome r with
    | Returned _ =>
        (Ok tt, (if isFinal then setBuffer "" p else p, log ++ [em]))
    | Threw t => (Fail t, (p, log ++ [em]))
    end.

(** A chunk of [textStream] with the value [Date.now()] returns when the
    loop body reads it for that chunk. *)
Record Chunk : Type := mkChunk {
  chunk_text : string;
  chunk_now : Z
}.

(** [MoltbotStreamResponse]: the chunks [textStream] yields, the error it
    throws after them if it fails, and the settlement of [finishReason]. *)
Record MoltbotStreamResponse : Type := mkStream {
  textStream : list Chunk;
  textStreamError : option Error;
  finishReason : Error + option string
}.

(** The body of [for await (const chunk of streamResponse.textStream)],
    over the chunks still to come; returns [fullResponse]. *)
Fixpoint processChunks (chunks : list Chunk) (fullResponse : string)
    : M string :=
  match chunks with
  | [] => ret fullResponse
  | c :: rest =>
      let* _ := update (fun p => setBuffer (buffer p +:+ chunk_text c) p) in
      let fullResponse := (fullResponse +:+ chunk_text c)%string in
      let now := chunk_now c in
      let* p := getProcessor in
      let* _ :=
        if shouldSendPartialUpdate p now then
          let* _ := sendPartialUpdate (buffer p) false in
          update (setLastUpdateTime now)
        else ret tt in
      processChunks rest fullResponse
  end.

(** [process(streamResponse)]; the catch block logs and rethrows. *)
Definition process (streamResponse : MoltbotStreamResponse) : M string :=
  let* fullResponse := processChunks (textStream streamResponse) "" in
  match textStreamError streamResponse with
  | Some e => throw (ThrowOriginal e)
  | None =>
      let* _ := update (setIsComplete true) in
      let* _ := sendPartialUpdate fullResponse true in
      match finishReason streamResponse with
      | inl e => throw (ThrowOriginal e)
      | inr _ => ret fullResponse
      end
  end.

Definition getBuffer (p : StreamProcessor) : string := buffer p.

Definition getIsComplete (p : StreamProcessor) : bool := isComplete p.

Definition reset (p : StreamProcessor) : StreamProcessor :=
  setIsComplete false (setLastUpdateTime 0 (setBuffer "" p)).

(** The emissions of a run that starts from processor [p] with an empty
    log. *)
Definition runProcess (p : StreamProcessor)
    (streamResponse : MoltbotStreamResponse) : Result string * State :=
  process streamResponse (p, []).

(** The concatenation of the chunks in arrival order. *)
Fixpoint fullText (chunks : list Chunk) : string :=
  match chunks with
  | [] => EmptyString
  | c :: rest => (chunk_text c +:+ fullText rest)%string
  end.

(** The calls of the callback behind a log, in order: the content and the
    [isComplete] argument of each call, and its settlement. *)
Definition callbackLog (log : list Emission)
    : list (string * bool * (Error + unit)) :=
  flat_map (fun em => map (fun d => (em_content em, em_isFinal em, d))
                          (em_deliveries em)) log.

(** The retried delivery of an emission ended with a success: some
    rejected calls of the callback, then one that resolved. *)
Definition delivered (em : Emission) : Prop :=
  exists failures : list Error,
    em_deliveries em = map inl failures ++ [inr tt].

(** The calls of the callback that carried [isComplete = true] and
    resolved. *)
Definition successfulFinalCalls (log : list Emission)
    : list (string * bool * (Error + unit)) :=
  List.filter (fun call =>
                 match call with
                 | (_, true, inr _) => true
                 | _ => false
                 end)
              (callbackLog log).

(** Every call of the callback for this emission was rejected. *)
Definition rejected (em : Emission) : Prop :=
  Forall (fun d => exists e, d = inl e) (em_deliveries em).

(** Sample callbacks and a sample stream: a callback that always resolves,
    one that rejects every call carrying [isComplete = true], and a stream
    of two chunks. *)
Definition alwaysDelivers : Callback := fun _ _ _ _ => inr tt.

Definition rejectsFinal : Callback :=
  fun _ _ _ isFinal =>
    if isFinal then inl (PlainError "network unreachable") else inr tt.

Definition helloStream : MoltbotStreamResponse :=
  mkStream [mkChunk "Hel" 1700000000000; mkChunk "lo" 1700000000200]
           None (inr (Some "stop"%string)).

End Stream.

(** ** bridge/transformer.ts *)
Module Transformer.

(** *** lark/types.ts and moltbot/types.ts *)

Inductive LarkMessageType : Type :=
| TEXT | POST | IMAGE | FILE | AUDIO | MEDIA | STICKER | INTERACTIVE.

Record LarkPostElement : Type := mkPostElement {
  tag : string;
  el_text : option string;
  href : option string;
  user_id : option string;
  el_name : option string
}.

Record LarkPostContent : Type := mkPostContent {
  zh_cn : option (list LarkPostElement);
  en_us : option (list LarkPostElement)
}.

Record LarkMention : Type := mkMention {
  id : string;
  id_type : string;
  name : string;
  tenant_key : string
}.

Record ParsedLarkMessage : Type := mkParsedLarkMessage {
  messageId : string;
  chatId : string;
  senderId : string;
  senderType : string;
  messageType : LarkMessageType;
  textContent : option string;
  postContent : option LarkPostContent;
  imageKey : option string;
  fileKey : option string;
  mentions : option (list LarkMention);
  timestamp : Z
}.

Inductive AttachmentType : Type := image | file | audio | video.

(** The optional [url], [name] and [size] are never set by this code. *)
Record MessageAttachment : Type := mkAttachment {
  att_type : AttachmentType;
  key : string
}.

Record MessageContext : Type := mkMessageContext {
  ctx_chatId : string;
  ctx_senderId : string;
  ctx_senderType : string;
  ctx_timestamp : Z;
  ctx_messageId : string
}.

Record ParsedMessageForMoltbot : Type := mkParsedMessageForMoltbot {
  text : string;
  attachments : option (list MessageAttachment);
  context : option MessageContext
}.

Inductive Format : Type := format_text | format_markdown | format_card.

(** An element built by [convertMarkdownToCard]: [{ tag: "hr" }] or
    [{ tag: "div", text: { tag: "lark_md", content } }]. *)
Inductive CardElement : Type :=
| Hr
| Div (content : string).

(** The card object: [config.wide_screen_mode], the content of the
    plain-text [header.title], and the elements. *)
Record Card : Type := mkCard {
  wide_screen_mode : bool;
  header_title : string;
  elements : list CardElement
}.

Record FormattedResponseForLark : Type := mkFormatted {
  resp_text : string;
  resp_format : Format;
  card : option Card
}.

(** *** Strings *)

(** Truthiness of an optional string: defined and not empty. *)
Definition truthy (x : option string) : bool :=
  match x with
  | Some EmptyString => false
  | Some _ => true
  | None => false
  end.

(** [x || y] where [y] is a string. *)
Definition orString (x : option string) (y : string) : string :=
  match x with
  | Some (String c s) => String c s
  | _ => y
  end.

Fixpoint dropString (n : nat) (s : string) : string :=
  match n, s with
  | O, _ => s
  | S n', String _ s' => dropString n' s'
  | S _, EmptyString => EmptyString
  end.

(** [s.startsWith(pre)], and then what follows the prefix. *)
Definition stripPrefix (pre s : string) : option string :=
  if String.prefix pre s then Some (dropString (String.length pre) s)
  else None.

(** The longest prefix of [s] whose characters satisfy [p], and the rest:
    how a greedy [c+] or [c*] over a character class consumes its input
    when nothing after it can match a character of the class. *)
Fixpoint span (p : ascii -> bool) (s : string) : string * string :=
  match s with
  | EmptyString => (EmptyString, EmptyString)
  | String c s' =>
      if p c then let (taken, rest) := span p s' in (String c taken, rest)
      else (EmptyString, s)
  end.

Definition isChar (c d : ascii) : bool := bool_decide (c = d).

(** [\w]: letters, digits and the underscore. *)
Definition isWord (c : ascii) : bool :=
  let n := N_of_ascii c in
  (((48 <=? n) && (n <=? 57)) || ((65 <=? n) && (n <=? 90)) ||
   ((97 <=? n) && (n <=? 122)) || (n =? 95))%N.

(** *** String.prototype.replace with a global regular expression

    A matcher tries the expression at the start of its argument and gives
    the replacement text and the number of characters matched.  [replace]
    scans from the left: at a match the replacement is written and the scan
    resumes after the match, otherwise one character is copied.  [skip]
    counts the characters of the current match still to pass over.  Every
    expression below matches at least two characters. *)
Definition Matcher : Type := string -> option (string * nat).

Fixpoint replaceFrom (m : Matcher) (skip : nat) (s : string) : string :=
  match skip with
  | S k =>
      match s with
      | EmptyString => EmptyString
      | String _ s' => replaceFrom m k s'
      end
  | O =>
      match m s with
      | Some (replacement, matched) =>
          (replacement +:+
           match s with
           | EmptyString => EmptyString
           | String _ s' => replaceFrom m (Nat.pred matched) s'
           end)%string
      | None =>
          match s with
          | EmptyString => EmptyString
          | String c s' => String c (replaceFrom m 0 s')
          end
      end
  end.

Definition replace (m : Matcher) (s : string) : string := replaceFrom m 0 s.

Definition fence : string := "```".

(** The lazy [[\s\S]*?] followed by the closing fence: the text before the
    first fence in [s]. *)
Fixpoint untilFence (s : string) : option string :=
  if String.prefix fence s then Some EmptyString
  else
    match s with
    | EmptyString => None
    | String c s' =>
        match untilFence s' with
        | Some code => Some (String c code)
        | None => None
        end
    end.

(** [/```(\w+)?\n([\s\S]*?)```/] with the replacement function
    [(_match, lang, code) => "```" + (lang || "") + "\n" + code + "\n```"].
    The optional group takes the longest run of word characters; a shorter
    run is followed by a word character, never by the line feed. *)
Definition codeBlock : Matcher := fun s =>
  match stripPrefix fence s with
  | None => None
  | Some s1 =>
      let (lang, s2) := span isWord s1 in
      match s2 with
      | String "010"%char s3 =>
          match untilFence s3 with
          | Some code =>
              Some ((fence +:+ lang +:+ LF +:+ code +:+ LF +:+ fence)%string,
                    (3 + String.length lang + 1 + String.length code + 3)%nat)
          | None => None
          end
      | _ => None
      end
  end.

(** An opening token, a non-empty greedy run [[^c]+] captured as the
    group, and a closing token: the group and what follows the match. *)
Definition delimited (opening : string) (stop : ascii) (closing : string)
    (s : string) : option (string * string) :=
  match stripPrefix opening s with
  | None => None
  | Some s1 =>
      let (group, s2) := span (fun c => negb (isChar c stop)) s1 in
      match group with
      | EmptyString => None
      | _ =>
          match stripPrefix closing s2 with
          | Some rest => Some (group, rest)
          | None => None
          end
      end
  end.

Definition tick : string := "`".

(** [/`([^`]+)`/] replaced by ["`$1`"] *)
Definition inlineCode : Matcher := fun s =>
  match delimited tick "`"%char tick s with
  | Some (g1, _) =>
      Some ((tick +:+ g1 +:+ tick)%string, (1 + String.length g1 + 1)%nat)
  | None => None
  end.

(** [/\*\*([^*]+)\*\*/] replaced by ["**$1**"] *)
Definition bold : Matcher := fun s =>
  match delimited "**" "*"%char "**" s with
  | Some (g1, _) =>
      Some (("**" +:+ g1 +:+ "**")%string, (2 + String.length g1 + 2)%nat)
  | None => None
  end.

(** [/\*([^*]+)\*/] replaced by ["*$1*"] *)
Definition italic : Matcher := fun s =>
  match delimited "*" "*"%char "*" s with
  | Some (g1, _) =>
      Some (("*" +:+ g1 +:+ "*")%string, (1 + String.length g1 + 1)%nat)
  | None => None
  end.

(** [/\[([^\]]+)\]\(([^)]+)\)/] replaced by ["[$2]($1)"] *)
Definition link : Matcher := fun s =>
  match delimited "[" "]"%char "]" s with
  | Some (g1, s1) =>
      match delimited "(" ")"%char ")" s1 with
      | Some (g2, _) =>
          Some (("[" +:+ g2 +:+ "](" +:+ g1 +:+ ")")%string,
                (1 + String.length g1 + 2 + String.length g2 + 1)%nat)
      | None => None
      end
  | None => None
  end.

Definition convertMarkdownToLark (markdown : string) : string :=
  let larkMarkdown := markdown in
  let larkMarkdown := replace codeBlock larkMarkdown in
  let larkMarkdown := replace inlineCode larkMarkdown in
  let larkMarkdown := replace bold larkMarkdown in
  let larkMarkdown := replace italic larkMarkdown in
  let larkMarkdown := replace link larkMarkdown in
  larkMarkdown.

(** *** Lark messages to Moltbot *)

(** [extractTextFromPost(post)].  An array is truthy even when empty, so
    [post.zh_cn || post.en_us || []] is [zh_cn] whenever it is defined. *)
Definition postElementText (element : LarkPostElement) : string :=
  if String.eqb (tag element) "text" then orString (el_text element) ""
  else if String.eqb (tag element) "a" then
    orString (el_text element) (orString (href element) "")
  else if String.eqb (tag element) "at" then
    ("@" +:+ orString (user_id element) (orString (el_name element) ""))%string
  else ""%string.

Definition extractTextFromPost (post : LarkPostContent) : string :=
  let elements :=
    match zh_cn post with
    | Some l => l
    | None => default [] (en_us post)
    end in
  String.concat "" (map postElementText elements).

(** [transformLarkToMoltbot(message)].  Nothing in the body of the [try]
    throws on a value of type [ParsedLarkMessage], so the [catch] that
    wraps failures into [TransformationError] is never entered. *)
Definition transformLarkToMoltbot (message : ParsedLarkMessage)
    : ParsedMessageForMoltbot :=
  let text0 :=
    if truthy (textContent message) then default ""%string (textContent message)
    else
      match postContent message with
      | Some post => extractTextFromPost post
      | None => ""%string
      end in
  let attachments0 :=
    (if truthy (imageKey message)
     then [mkAttachment image (default ""%string (imageKey message))]
     else []) ++
    (if truthy (fileKey message)
     then [mkAttachment file (default ""%string (fileKey message))]
     else []) in
  let context0 :=
    mkMessageContext (chatId message) (senderId message)
      (senderType message) (timestamp message) (messageId message) in
  let text1 :=
    match mentions message with
    | Some (m :: ms) =>
        let mentionText :=
          String.concat " " (map (fun m => ("@" +:+ name m)%string) (m :: ms)) in
        (mentionText +:+ " " +:+ text0)%string
    | _ => text0
    end in
  {| text := text1;
     attachments :=
       match attachments0 with
       | [] => None
       | _ => Some attachments0
       end;
     context := Some context0 |}.

(** *** Moltbot responses to Lark *)

(** [markdown.split("\n")]; [current] holds the line being read. *)
Fixpoint splitLines (current : string) (s : string) : list string :=
  match s with
  | EmptyString => [current]
  | String c s' =>
      if isChar c "010"%char then current :: splitLines EmptyString s'
      else splitLines (current +:+ String c EmptyString)%string s'
  end.

(** White space in the sense of [String.prototype.trim], among 8-bit
    characters: tab, line feed, vertical tab, form feed, carriage return,
    space and no-break space. *)
Definition isWhiteSpace (c : ascii) : bool :=
  let n := N_of_ascii c in
  (((9 <=? n) && (n <=? 13)) || (n =? 32) || (n =? 160))%N.

(** [line.trim() === ""] *)
Definition isBlank (line : string) : bool :=
  match span isWhiteSpace line with
  | (_, EmptyString) => true
  | _ => false
  end.

Definition cardElement (line : string) : CardElement :=
  if isBlank line then Hr
  else if String.prefix "# " line then Div (dropString 2 line)
  else if String.prefix "## " line then Div (dropString 3 line)
  else if String.prefix "- " line || String.prefix "* " line
  then Div (dropString 2 line)
  else Div line.

Definition convertMarkdownToCard (markdown : string) : Card :=
  let lines := splitLines EmptyString markdown in
  {| wide_screen_mode := true;
     header_title := "Response";
     elements := map cardElement lines |}.

(** [transformMoltbotToLark(response, format)]; the trailing [return] of
    the source is not reached for a value of the [format] type. *)
Definition transformMoltbotToLark (response : string) (format : Format)
    : FormattedResponseForLark :=
  match format with
  | format_text => mkFormatted response format_text None
  | format_markdown =>
      let larkMarkdown := convertMarkdownToLark response in
      mkFormatted larkMarkdown format_markdown None
  | format_card =>
      let card := convertMarkdownToCard response in
      mkFormatted "" format_card (Some card)
  end.

(** Every character of [s] satisfies [p]. *)
Fixpoint allChars (p : ascii -> bool) (s : string) : bool :=
  match s with
  | EmptyString => true
  | String c s' => p c && allChars p s'
  end.

Definition without (c : ascii) (s : string) : Prop :=
  allChars (fun d => negb (isChar d c)) s = true.

(** A matcher whose replacement is the text it matched. *)
Definition faithful (m : Matcher) : Prop :=
  forall s r n, m s = Some (r, n) ->
    r <> EmptyString /\ n = String.length r /\
    exists rest, s = (r +:+ rest)%string.

(** A matcher that only matches at an occurrence of the character [c]. *)
Definition startsAt (c : ascii) (m : Matcher) : Prop :=
  forall s r n, m s = Some (r, n) -> exists s', s = String c s'.

(** Sample data: a plain-text message with body "hi" that mentions Ada
    and Grace, a markdown link and a fenced code block. *)
Definition hiMessage : ParsedLarkMessage :=
  mkParsedLarkMessage "om_1" "oc_1" "ou_1" "user" TEXT (Some "hi"%string)
    None None None
    (Some [mkMention "ou_2" "open_id" "Ada" "t"; 
           mkMention "ou_3" "open_id" "Grace" "t"])
    1700000000000.

Definition docsLink : string := "[docs](https://example.com)".

Definition jsBlock : string :=
  ("```js" +:+ LF +:+ "let x = 1;" +:+ LF +:+ "```")%string.

End Transformer.

(** ** Further vocabulary for the properties of the error classification *)
Module ErrorsSpec.

(** The upper-case letters A to Z. *)
Definition isUpper (c : ascii) : bool :=
  let n := N_of_ascii c in ((65 <=? n) && (n <=? 90))%N.

End ErrorsSpec.

(** ** Further vocabulary for the properties of the context manager *)
Module ContextSpec.
Import Context.

(** The conversation a call is about; the sweep is about all of them. *)
Definition callTarget (c : Call) : option string :=
  match c with
  | CallAddMessage id _ _ => Some id
  | CallGetContext id _ => Some id
  | CallClearContext id => Some id
  | CallCleanup _ => None
  end.

(** Every stored context carries its own key, has counted at least one
    message and has counted at least as many messages as it stores. *)
Definition wellFormed (mgr : ConversationContextManager) : Prop :=
  forall id c, conversations mgr !! id = Some c ->
    chatId c = id /\ 1 <= messageCount c /\
    Z.of_nat (length (messages c)) <= messageCount c.

(** The number of messages counted so far for a conversation. *)
Definition counted (id : string) (mgr : ConversationContextManager) : Z :=
  match conversations mgr !! id with
  | Some c => messageCount c
  | None => 0
  end.

End ContextSpec.

(** ** Further vocabulary for the properties of the stream processor *)
Module StreamSpec.
Import Stream.

(** Two processor states of one and the same object: the constructor
    arguments are the same. *)
Definition sameConfig (p p' : StreamProcessor) : Prop :=
  chatId p' = chatId p /\ onPartialUpdate p' = onPartialUpdate p /\
  opt_chunkThreshold p' = opt_chunkThreshold p /\
  opt_timeThreshold p' = opt_timeThreshold p /\
  opt_sendPartialUpdates p' = opt_sendPartialUpdates p.

(** The buffer of a run that started from [p], once the first [n] chunks
    have arrived. *)
Definition snapshot (p : StreamProcessor) (chunks : list Chunk) (n : nat)
    : string :=
  (buffer p +:+ fullText (take n chunks))%string.


End StreamSpec.

(** ** lark/handlers.ts *)
Module Handlers.
Import Errors Transformer.

(** [LarkMessageContent]: the fields that [parseLarkMessage] reads of
    [JSON.parse(message.content)]; a field that is absent reads as
    [undefined], and a [post] that is present is an object of type
    [LarkPostContent]. *)
Record LarkMessageContent : Type := mkContent {
  content_text : option string;
  content_post : option LarkPostContent;
  image_key : option string;
  file_key : option string
}.

(** The parts of a [LarkMessageReceiveEvent] that the handlers read:
    [event.message] and [event.sender]. *)
Record LarkMessageReceiveEvent : Type := mkEvent {
  message_id : string;
  chat_id : string;
  raw_content : string;
  msg_type : LarkMessageType;
  event_mentions : option (list LarkMention);
  open_id : string;
  sender_type : string
}.

(** [JSON.parse], a library function, with the read of the field that
    the message type calls for: it gives the parsed content, or what is
    thrown inside the [try] (by [JSON.parse] on a malformed text, by the
    read of a field of [null]). *)
Definition JsonParse : Type := string -> Error + LarkMessageContent.

(** [parseLarkMessage(event)], with [now] the value of [Date.now()].  A
    failure inside the [try] is rethrown as a new [Error] whose message
    quotes the message of the failure. *)
Definition parseLarkMessage (parse : JsonParse)
    (event : LarkMessageReceiveEvent) (now : Z) : Error + ParsedLarkMessage :=
  match parse (raw_content event) with
  | inl error =>
      inl (PlainError ("Failed to parse message: " +:+ message_of error))
  | inr content =>
      let textContent :=
        match msg_type event with TEXT => content_text content | _ => None end in
      let postContent :=
        match msg_type event with POST => content_post content | _ => None end in
      let imageKey :=
        match msg_type event with IMAGE => image_key content | _ => None end in
      let fileKey :=
        match msg_type event with FILE => file_key content | _ => None end in
      inr (mkParsedLarkMessage (message_id event) (chat_id event)
             (open_id event) (sender_type event) (msg_type event)
             textContent postContent imageKey fileKey
             (event_mentions event) now)
  end.

(** [shouldProcessMessage(message)] *)
Definition shouldProcessMessage (message : ParsedLarkMessage) : bool :=
  if String.eqb (senderType message) "bot" then false
  else if negb (truthy (textContent message)) &&
          negb (bool_decide (is_Some (postContent message))) &&
          negb (truthy (imageKey message)) &&
          negb (truthy (fileKey message))
  then false
  else true.

(** Whether the parsed content has what a message of the given type needs
    in order to be processed. *)
Definition hasContent (type : LarkMessageType) (content : LarkMessageContent)
    : bool :=
  match type with
  | TEXT => truthy (content_text content)
  | POST => bool_decide (is_Some (content_post content))
  | IMAGE => truthy (image_key content)
  | FILE => truthy (file_key content)
  | AUDIO | MEDIA | STICKER | INTERACTIVE => false
  end.

End Handlers.

(** ** Further vocabulary for the properties of the transformer *)
Module TransformerSpec.
Import Transformer.

(** The number of occurrences of a character in a string. *)
Fixpoint countChar (c : ascii) (s : string) : nat :=
  match s with
  | EmptyString => 0
  | String d s' => (if isChar d c then 1 else 0) + countChar c s'
  end.

(** The markers that [convertMarkdownToCard] strips from the start of a
    line; the empty one stands for a line kept as it is. *)
Definition lineMarkers : list string := [ ""; "# "; "## "; "- "; "* " ]%string.

(** The message with its [mentions] replaced. *)
Definition withMentions (ms : option (list LarkMention))
    (m : ParsedLarkMessage) : ParsedLarkMessage :=
  mkParsedLarkMessage (messageId m) (chatId m) (senderId m) (senderType m)
    (messageType m) (textContent m) (postContent m) (imageKey m) (fileKey m)
    ms (timestamp m).

(** The prefix that the mentions put in front of the text. *)
Definition mentionPrefix (ms : list LarkMention) : string :=
  (String.concat " " (map (fun m => ("@" +:+ name m)%string) ms) +:+ " ")%string.

End TransformerSpec.

(** ** lark/client.ts *)
Module LarkClient.
Import Errors Retry.

(** The [msg_type] and [content] of a message: "text" with
    [JSON.stringify({ text })], or "interactive" with
    [JSON.stringify(card)]. *)
Inductive MessageBody : Type :=
| TextBody (text : string)
| CardBody (card : Transformer.Card).

(** The [data] handed to the SDK's [im.message.create]; [receive_id_type]
    is always "chat_id". *)
Record CreateRequest : Type := mkRequest {
  receive_id : string;
  body : MessageBody;
  uuid : option string
}.

(** The SDK's [client.im.message.create], which may answer differently at
    each call: [create j data] is the settlement of the call made after [j]
    earlier calls, [inl e] for a rejection with [e]. *)
Definition Create : Type := nat -> CreateRequest -> Error + unit.

Definition textRequest (chatId text : string) (replyToMessageId : option string)
    : CreateRequest :=
  mkRequest chatId (TextBody text) replyToMessageId.

Definition cardRequest (chatId : string) (card : Transformer.Card)
    (replyToMessageId : option string) : CreateRequest :=
  mkRequest chatId (CardBody card) replyToMessageId.

(** [sendTextMessage(chatId, text, replyToMessageId)], called again and
    again by a caller; the catch block logs and rethrows. *)
Definition sendTextMessage (create : Create) (chatId text : string)
    (replyToMessageId : option string) : Operation unit :=
  fun j => create j (textRequest chatId text replyToMessageId).

(** [sendCardMessage(chatId, card, replyToMessageId)] *)
Definition sendCardMessage (create : Create) (chatId : string)
    (card : Transformer.Card) (replyToMessageId : option string)
    : Operation unit :=
  fun j => create j (cardRequest chatId card replyToMessageId).

End LarkClient.

(** ** lark/sender.ts *)
Module LarkMessageSender.
Import Errors Retry.

Record Features : Type := mkFeatures {
  messageCards : bool;
  fileAttachments : bool
}.

(** [LarkStreamUpdate] *)
Record LarkStreamUpdate : Type := mkUpdate {
  upd_chatId : string;
  upd_messageId : option string;
  upd_content : string;
  upd_isComplete : bool
}.

(** [{ maxAttempts: 3 }] *)
Definition threeAttempts : RetryConfig :=
  mkRetryConfig (Some 3) None None None None.

(** Each method runs against the SDK as it answers during that one call
    of the method; the result says how the method settled and how many
    times the SDK was called.  The catch blocks of the first three
    methods log and rethrow. *)
Definition sendTextMessage (create : LarkClient.Create) (chatId text : string)
    (replyToMessageId : option string) : Run unit :=
  retry (LarkClient.sendTextMessage create chatId text replyToMessageId)
        threeAttempts.

Definition sendCardMessage (create : LarkClient.Create) (chatId : string)
    (card : Transformer.Card) (replyToMessageId : option string) : Run unit :=
  retry (LarkClient.sendCardMessage create chatId card replyToMessageId)
        threeAttempts.

(** The card of a partial update. *)
Definition partialCard (content : string) : Transformer.Card :=
  Transformer.mkCard true "AI Response" [Transformer.Div content].

(** [sendStreamUpdate(update)] *)
Definition sendStreamUpdate (create : LarkClient.Create) (features : Features)
    (update : LarkStreamUpdate) : Run unit :=
  if messageCards features && negb (upd_isComplete update) then
    retry (LarkClient.sendCardMessage create (upd_chatId update)
             (partialCard (upd_content update)) None)
          threeAttempts
  else
    retry (LarkClient.sendTextMessage create (upd_chatId update)
             (upd_content update) (upd_messageId update))
          threeAttempts.

(** The cross mark U+274C, held as the bytes of its UTF-8 encoding. *)
Definition crossMark : string := "❌".

(** [sendErrorMessage(chatId, error, replyToMessageId)]: the catch block
    logs and does not rethrow, so the method always resolves. *)
Definition sendErrorMessage (create : LarkClient.Create) (chatId : string)
    (error : Error) (replyToMessageId : option string) : Run unit :=
  let errorMessage := (crossMark +:+ " " +:+ message_of error)%string in
  let r := retry (LarkClient.sendTextMessage create chatId errorMessage
                    replyToMessageId)
                 threeAttempts in
  mkRun (Returned tt) (invocations r).

End LarkMessageSender.

(** ** moltbot/client.ts *)
Module MoltbotClient.
Import Errors.

(** [s.includes(needle)] *)
Definition includes (needle s : string) : bool := test needle s.

(** [handleError(error, message)], which always throws: the result is the
    error it throws.  The argument is [None] for a caught value that is
    not an instance of [Error]. *)
Definition handleError (error : option Error) (message : string) : Error :=
  match error with
  | Some e =>
      if includes "ECONNREFUSED" (message_of e) ||
         includes "ETIMEDOUT" (message_of e) ||
         includes "ENOTFOUND" (message_of e)
      then AppError "MoltbotConnectionError"
                    ("Connection error: " +:+ message_of e)
                    "MOLTBOT_ERROR" 503 true
      else AppError "MoltbotError" message "MOLTBOT_ERROR" 500 false
  | None => AppError "MoltbotError" message "MOLTBOT_ERROR" 500 false
  end.

(** The two functions of the "ai" package, for a request with the given
    messages: each returns its result or throws some value, [None] when
    that value is not an [Error].  Of the result of [generateText] only
    the [text] is used by the callers. *)
Record Sdk : Type := mkSdk {
  streamText : list Context.MoltbotMessage
               -> option Error + Stream.MoltbotStreamResponse;
  generateText : list Context.MoltbotMessage -> option Error + string
}.

(** [sendRequest(messages)], reduced to the [text] of its response. *)
Definition sendRequest (sdk : Sdk) (messages : list Context.MoltbotMessage)
    : Error + string :=
  match generateText sdk messages with
  | inr text => inr text
  | inl error => inl (handleError error "Failed to send request to Moltbot")
  end.

(** [sendStreamRequest(messages)] *)
Definition sendStreamRequest (sdk : Sdk)
    (messages : list Context.MoltbotMessage)
    : Error + Stream.MoltbotStreamResponse :=
  match streamText sdk messages with
  | inr result => inr result
  | inl error =>
      inl (handleError error "Failed to send streaming request to Moltbot")
  end.

End MoltbotClient.

(** ** index.ts *)
Module App.
Import Errors Retry.

(** The Lark SDK during the handling of one message: [lark k] is how
    [im.message.create] answers during the call of a method of the sender
    that is made after [k] earlier such calls. *)
Definition LarkApi : Type := nat -> LarkClient.Create.

(** What the application is built from: [JSON.parse], the [streaming]
    setting of the Moltbot client, the "ai" package, the [features] of the
    sender and the Lark SDK. *)
Record Environment : Type := mkEnvironment {
  parse : Handlers.JsonParse;
  streaming : bool;
  sdk : MoltbotClient.Sdk;
  features : LarkMessageSender.Features;
  lark : LarkApi
}.

(** The values of [Date.now()] at the four places that read it outside the
    stream processor: in [parseLarkMessage], in the [addMessage] of the
    user message, in [getContext], and in the [addMessage] of the
    assistant message. *)
Record Clock : Type := mkClock {
  at_parse : Z;
  at_user : Z;
  at_read : Z;
  at_assistant : Z
}.

(** The mutable fields of [MoltbotWithLark]. *)
Record MoltbotWithLark : Type := mkApp {
  conversationManager : Context.ConversationContextManager;
  isShuttingDown : bool
}.

(** A thrown value as the [Error] that [handleLarkMessage] hands to
    [sendErrorMessage]: [error instanceof Error ? error :
    new Error(String(error))]. *)
Definition asError (t : Thrown) : Error :=
  match t with
  | ThrowOriginal e => e
  | ThrowRetryExhausted message attempts originalError =>
      AppError "RetryExhaustedError" message "RETRY_EXHAUSTED" 503 false
  | ThrowUndefined => PlainError "undefined"
  end.

(** The callback handed to the stream processor by
    [handleStreamingResponse]: it awaits [sendStreamUpdate] and rejects
    with what that throws.  ([sendStreamUpdate] retries with
    [maxAttempts: 3] and so never throws [undefined].) *)
Definition streamCallback (lark : LarkApi)
    (features : LarkMessageSender.Features) (messageId : string)
    : Stream.Callback :=
  fun k chatId content isComplete =>
    match outcome (LarkMessageSender.sendStreamUpdate (lark k) features
                     (LarkMessageSender.mkUpdate chatId
                        (if isComplete then None else Some messageId)
                        content isComplete)) with
    | Returned _ => inr tt
    | Threw t => inl (asError t)
    end.

(** What handling one message did, as seen from outside: the manager
    afterwards, the messages sent to the model if a request was made, the
    emissions of the stream processor, the call of [sendTextMessage] of
    the non-streaming path and the call of [sendErrorMessage], each with
    the data sent to the SDK. *)
Record Handled : Type := mkHandled {
  manager_after : Context.ConversationContextManager;
  modelRequest : option (list Context.MoltbotMessage);
  emissions : list Stream.Emission;
  textReply : option (LarkClient.CreateRequest * Run unit);
  errorNotice : option (LarkClient.CreateRequest * Run unit)
}.

(** What one of the two response handlers did: what it threw if it threw,
    the manager afterwards, the emissions and the text reply. *)
Record Responded : Type := mkResponded {
  thrown : option Thrown;
  manager_then : Context.ConversationContextManager;
  emitted : list Stream.Emission;
  replied : option (LarkClient.CreateRequest * Run unit)
}.

(** [handleStreamingResponse(chatId, messageId, messages)], with [now] the
    clock of its [addMessage]; the catch block logs and rethrows. *)
Definition handleStreamingResponse (env : Environment)
    (chatId messageId : string) (messages : list Context.MoltbotMessage)
    (now : Z) (mgr : Context.ConversationContextManager) : Responded :=
  match MoltbotClient.sendStreamRequest (sdk env) messages with
  | inl error => mkResponded (Some (ThrowOriginal error)) mgr [] None
  | inr streamResponse =>
      let processor :=
        Stream.newProcessor chatId
          (streamCallback (lark env) (features env) messageId)
          (Stream.mkOptions (Some 100) (Some 1000) (Some true)) in
      match Stream.process streamResponse (processor, []) with
      | (Stream.Ok fullResponse, (_, log)) =>
          mkResponded None
            (Context.addMessage chatId
               (Context.mkMessage Context.assistant fullResponse) now mgr)
            log None
      | (Stream.Fail t, (_, log)) => mkResponded (Some t) mgr log None
      end
  end.

(** [handleNonStreamingResponse(chatId, messageId, messages)] *)
Definition handleNonStreamingResponse (env : Environment)
    (chatId messageId : string) (messages : list Context.MoltbotMessage)
    (now : Z) (mgr : Context.ConversationContextManager) : Responded :=
  match MoltbotClient.sendRequest (sdk env) messages with
  | inl error => mkResponded (Some (ThrowOriginal error)) mgr [] None
  | inr text =>
      let sent :=
        LarkMessageSender.sendTextMessage (lark env 0%nat) chatId text
          (Some messageId) in
      let reply :=
        Some (LarkClient.textRequest chatId text (Some messageId), sent) in
      match outcome sent with
      | Returned _ =>
          mkResponded None
            (Context.addMessage chatId
               (Context.mkMessage Context.assistant text) now mgr)
            [] reply
      | Threw t => mkResponded (Some t) mgr [] reply
      end
  end.

(** The number of calls of methods of the sender behind a response. *)
Definition senderCalls (r : Responded) : nat :=
  (Stream.callbackCalls (emitted r)
   + match replied r with Some _ => 1 | None => 0 end)%nat.

(** The call of [sendErrorMessage] in the catch block of
    [handleLarkMessage], made after [k] earlier calls of the sender. *)
Definition notify (env : Environment) (event : Handlers.LarkMessageReceiveEvent)
    (k : nat) (error : Error) : LarkClient.CreateRequest * Run unit :=
  (LarkClient.textRequest (Handlers.chat_id event)
     (LarkMessageSender.crossMark +:+ " " +:+ message_of error)
     (Some (Handlers.message_id event)),
   LarkMessageSender.sendErrorMessage (lark env k) (Handlers.chat_id event)
     error (Some (Handlers.message_id event))).

(** [handleLarkMessage(event)], for an event handled from start to end
    with no other event handled in between. *)
Definition handleLarkMessage (env : Environment) (clock : Clock)
    (app : MoltbotWithLark) (event : Handlers.LarkMessageReceiveEvent)
    : Handled :=
  let mgr := conversationManager app in
  if isShuttingDown app then mkHandled mgr None [] None None
  else
    match Handlers.parseLarkMessage (parse env) event (at_parse clock) with
    | inl error =>
        mkHandled mgr None [] None (Some (notify env event 0 error))
    | inr parsedMessage =>
        if negb (Handlers.shouldProcessMessage parsedMessage)
        then mkHandled mgr None [] None None
        else
          let moltbotMessage :=
            Transformer.transformLarkToMoltbot parsedMessage in
          let userMessage :=
            Context.mkMessage Context.user (Transformer.text moltbotMessage) in
          let chatId := Transformer.chatId parsedMessage in
          let mgr1 := Context.addMessage chatId userMessage (at_user clock) mgr in
          let (conversationHistory, mgr2) :=
            Context.getContext chatId (at_read clock) mgr1 in
          let messages := conversationHistory ++ [userMessage] in
          let r :=
            if streaming env
            then handleStreamingResponse env chatId
                   (Transformer.messageId parsedMessage) messages
                   (at_assistant clock) mgr2
            else handleNonStreamingResponse env chatId
                   (Transformer.messageId parsedMessage) messages
                   (at_assistant clock) mgr2 in
          mkHandled (manager_then r) (Some messages) (emitted r) (replied r)
            match thrown r with
            | None => None
            | Some t => Some (notify env event (senderCalls r) (asError t))
            end
    end.

End App.

(** ** Further vocabulary for the properties of the application *)
Module AppSpec.
Import Errors.

(** The data that [sendStreamUpdate] sends to the SDK for an emission of
    the stream processor. *)
Definition streamRequest (features : LarkMessageSender.Features)
    (messageId chatId content : string) (isComplete : bool)
    : LarkClient.CreateRequest :=
  if LarkMessageSender.messageCards features && negb isComplete
  then LarkClient.cardRequest chatId (LarkMessageSender.partialCard content) None
  else LarkClient.textRequest chatId content
         (if isComplete then None else Some messageId).

(** The event is one that [handleLarkMessage] goes on to answer: its
    content parses, its sender is not a bot and it has the content its
    type calls for. *)
Definition answered (env : App.Environment)
    (event : Handlers.LarkMessageReceiveEvent) : Prop :=
  exists content,
    App.parse env (Handlers.raw_content event) = inr content /\
    String.eqb (Handlers.sender_type event) "bot" = false /\
    Handlers.hasContent (Handlers.msg_type event) content = true.

(** The user message that [handleLarkMessage] makes of an event. *)
Definition userMessageOf (env : App.Environment) (clock : App.Clock)
    (event : Handlers.LarkMessageReceiveEvent) : Context.MoltbotMessage :=
  match Handlers.parseLarkMessage (App.parse env) event (App.at_parse clock) with
  | inr parsedMessage =>
      Context.mkMessage Context.user
        (Transformer.text (Transformer.transformLarkToMoltbot parsedMessage))
  | inl _ => Context.mkMessage Context.user ""
  end.

(** Each emission from the [n]-th call of the callback on was delivered
    with one call of the callback, the calls being numbered in order. *)
Fixpoint oneCallEach (cb : Stream.Callback) (chatId : string) (n : nat)
    (ems : list Stream.Emission) : Prop :=
  match ems with
  | [] => True
  | em :: rest =>
      Stream.em_deliveries em
      = [cb n chatId (Stream.em_content em) (Stream.em_isFinal em)] /\
      oneCallEach cb chatId (S n) rest
  end.

(** The response handler that an answered event reaches, with its
    arguments. *)
Definition responseTo (env : App.Environment) (clock : App.Clock)
    (app : App.MoltbotWithLark) (event : Handlers.LarkMessageReceiveEvent)
    : App.Responded :=
  let mgr := App.conversationManager app in
  let chat := Handlers.chat_id event in
  let u := userMessageOf env clock event in
  let messages :=
    Context.mostRecent (Z.to_nat (Context.maxHistoryLength mgr))
      (Context.stored chat mgr ++ [u])
    ++ [u] in
  let mgr1 := Context.addMessage chat u (App.at_user clock) mgr in
  if App.streaming env
  then App.handleStreamingResponse env chat (Handlers.message_id event) messages
         (App.at_assistant clock) mgr1
  else App.handleNonStreamingResponse env chat (Handlers.message_id event)
         messages (App.at_assistant clock) mgr1.

(** Sample data: an environment in which every call succeeds, the model
    answering with the stream of two chunks, and a text message of a
    user. *)
Definition sampleEnvironment : App.Environment :=
  App.mkEnvironment
    (fun _ => inr (Handlers.mkContent (Some "hi"%string) None None None))
    true
    (MoltbotClient.mkSdk (fun _ => inr Stream.helloStream)
                         (fun _ => inr "Hello"%string))
    (LarkMessageSender.mkFeatures true true)
    (fun _ _ _ => inr tt).

(** The same with a model that cannot be reached, with a model that
    answers without streaming while Lark rejects every call, and with a
    stream whose [finishReason] rejects. *)
Definition unreachableModel : App.Environment :=
  App.mkEnvironment
    (fun _ => inr (Handlers.mkContent (Some "hi"%string) None None None))
    true
    (MoltbotClient.mkSdk
       (fun _ => inl (Some (PlainError "connect ECONNREFUSED 127.0.0.1:3000")))
       (fun _ => inr "Hello"%string))
    (LarkMessageSender.mkFeatures true true)
    (fun _ _ _ => inr tt).

Definition unreachableLark : App.Environment :=
  App.mkEnvironment
    (fun _ => inr (Handlers.mkContent (Some "hi"%string) None None None))
    false
    (MoltbotClient.mkSdk (fun _ => inr Stream.helloStream)
                         (fun _ => inr "Hello"%string))
    (LarkMessageSender.mkFeatures true true)
    (fun _ _ _ => inl (PlainError "socket timeout")).

Definition brokenFinish : App.Environment :=
  App.mkEnvironment
    (fun _ => inr (Handlers.mkContent (Some "hi"%string) None None None))
    true
    (MoltbotClient.mkSdk
       (fun _ => inr (Stream.mkStream
                        [Stream.mkChunk "Hel" 1700000000000;
                         Stream.mkChunk "lo" 1700000000200]
                        None (inl (PlainError "aborted"))))
       (fun _ => inr "Hello"%string))
    (LarkMessageSender.mkFeatures true true)
    (fun _ _ _ => inr tt).

(** The same for an image message. *)
Definition imageEnvironment : App.Environment :=
  App.mkEnvironment
    (fun _ => inr (Handlers.mkContent None None (Some "img_v2_1"%string) None))
    true
    (MoltbotClient.mkSdk (fun _ => inr Stream.helloStream)
                         (fun _ => inr "Hello"%string))
    (LarkMessageSender.mkFeatures true true)
    (fun _ _ _ => inr tt).

Definition imageEvent : Handlers.LarkMessageReceiveEvent :=
  Handlers.mkEvent "om_2" "oc_1" "{}" Transformer.IMAGE None "ou_1" "user".

Definition sampleClock : App.Clock := App.mkClock 1000 1001 1002 1003.

Definition sampleApp : App.MoltbotWithLark :=
  App.mkApp Context.defaultManager false.

Definition sampleEvent : Handlers.LarkMessageReceiveEvent :=
  Handlers.mkEvent "om_1" "oc_1" "{}" Transformer.TEXT None "ou_1" "user".

End AppSpec.

(** * Properties *)

(** ** Strings *)
Module StringFacts.

Lemma append_cons (c : ascii) (s t : string) :
  (String c s +:+ t)%string = String c (s +:+ t).
Proof. reflexivity. Qed.

Lemma append_nil_r (s : string) : (s +:+ "")%string = s.
Proof.
  induction s as [|c s IH]; [reflexivity|].
  by rewrite append_cons, IH.
Qed.

Lemma append_assoc (a b c : string) :
  ((a +:+ b) +:+ c)%string = (a +:+ (b +:+ c))%string.
Proof.
  induction a as [|x a IH]; [reflexivity|].
  by rewrite !append_cons, IH.
Qed.

Lemma length_append (a b : string) :
  String.length (a +:+ b) = (String.length a + String.length b)%nat.
Proof.
  induction a as [|x a IH]; [reflexivity|].
  rewrite append_cons. cbn [String.length]. by rewrite IH.
Qed.

End StringFacts.

(** ** The retry executor *)
Module RetryFacts.
Import Errors Retry.

Section Loop.
Context {T : Type} (fn : Operation T) (cfg : FinalConfig).

Lemma retryableFailures_S n e :
  retryableFailures fn cfg n -> fn n = inl e ->
  final_retryableErrors cfg e = true ->
  retryableFailures fn cfg (S n).
Proof.
  intros Hn He Hr k Hk.
  destruct (decide (k = n)) as [->|Hne]; [eauto|].
  apply Hn. lia.
Qed.

Lemma retryLoop_spec n : forall calls lastError,
  (calls + n = Z.to_nat (final_maxAttempts cfg))%nat ->
  (n = 0%nat -> calls = 0%nat /\ lastError = None) ->
  retryableFailures fn cfg calls ->
  runSpec fn cfg
    (retryLoop fn cfg (map Z.of_nat (seq (S calls) n)) calls lastError).
Proof.
  set (maxA := final_maxAttempts cfg).
  induction n as [|n IH]; intros calls lastError Hsum Hzero Hprev.
  - destruct Hzero as [-> ->]; [reflexivity|].
    cbn. unfold runSpec; cbn. fold maxA. split; [lia|reflexivity].
  - cbn [seq map retryLoop]. fold maxA.
    destruct (fn calls) as [e|v] eqn:Hfn.
    + destruct (Z.geb_spec (Z.of_nat (S calls)) maxA) as [Hge|Hlt].
      * rewrite orb_true_r. unfold runSpec; cbn. fold maxA.
        repeat split; try done; lia.
      * rewrite orb_false_r.
        destruct (final_retryableErrors cfg e) eqn:Hr; cbn [negb].
        -- apply IH; [lia|lia|].
           by apply retryableFailures_S with e.
        -- unfold runSpec; cbn. fold maxA.
           repeat split; try done; lia.
    + unfold runSpec; cbn. fold maxA.
      repeat split; try done; lia.
Qed.

End Loop.

Lemma retry_spec {T} (fn : Operation T) (config : RetryConfig) :
  runSpec fn (finalConfig config) (retry fn config).
Proof.
  unfold retry, attemptRange.
  apply retryLoop_spec.
  - lia.
  - intros H. split; [reflexivity|reflexivity].
  - intros k Hk. lia.
Qed.

(** The last permitted call failed, after retryable failures only. *)
Lemma retry_exhausted_intro {T} (fn : Operation T) config e :
  let cfg := finalConfig config in
  let maxA := final_maxAttempts cfg in
  1 <= maxA ->
  fn (Z.to_nat maxA - 1)%nat = inl e ->
  retryableFailures fn cfg (Z.to_nat maxA - 1) ->
  outcome (retry fn config) =
    Threw (ThrowRetryExhausted (exhaustedMessage maxA) maxA e) /\
  invocations (retry fn config) = Z.to_nat maxA.
Proof.
  intros cfg maxA Hmax Hfn Hprev.
  pose proof (retry_spec fn config) as Hspec. unfold runSpec in Hspec.
  fold cfg in Hspec. fold maxA in Hspec.
  destruct (outcome (retry fn config)) as [v|[e'|msg a e'|]].
  - destruct Hspec as (Hi & Hv & _). exfalso.
    destruct (decide (Nat.pred (invocations (retry fn config))
                      = (Z.to_nat maxA - 1)%nat)) as [Heq|Hne].
    + rewrite Heq in Hv. congruence.
    + destruct (Hprev (Nat.pred (invocations (retry fn config))))
        as (e' & He' & _); [lia|congruence].
  - destruct Hspec as (Hi & He' & Hr & _). exfalso.
    destruct (Hprev (Nat.pred (invocations (retry fn config))))
      as (e'' & He'' & Hr''); [lia|congruence].
  - destruct Hspec as (-> & -> & _ & Hinv & He' & _).
    rewrite Hinv in He'. replace (Nat.pred (Z.to_nat maxA))
      with (Z.to_nat maxA - 1)%nat in He' by lia.
    split; [congruence|done].
  - lia.
Qed.

(** A non-retryable failure before the last permitted call. *)
Lemma retry_original_intro {T} (fn : Operation T) config j e :
  let cfg := finalConfig config in
  (j + 1 < Z.to_nat (final_maxAttempts cfg))%nat ->
  fn j = inl e ->
  final_retryableErrors cfg e = false ->
  retryableFailures fn cfg j ->
  outcome (retry fn config) = Threw (ThrowOriginal e) /\
  invocations (retry fn config) = S j.
Proof.
  intros cfg Hj Hfn Hnr Hprev.
  pose proof (retry_spec fn config) as Hspec. unfold runSpec in Hspec.
  fold cfg in Hspec.
  set (i := Nat.pred (invocations (retry fn config))) in *.
  assert (Hcmp : retryableFailures fn cfg i -> (j < i)%nat -> False).
  { intros Hi Hlt. destruct (Hi j Hlt) as (e1 & He1 & Hr1). congruence. }
  destruct (outcome (retry fn config)) as [v|[e'|msg a e'|]].
  - destruct Hspec as (Hi & Hv & Hp). exfalso.
    destruct (lt_eq_lt_dec i j) as [[Hlt|Heq]|Hgt].
    + destruct (Hprev i Hlt) as (e1 & He1 & _). congruence.
    + rewrite Heq in Hv. congruence.
    + eapply Hcmp; eauto.
  - destruct Hspec as (Hi & He' & Hr & Hp).
    destruct (lt_eq_lt_dec i j) as [[Hlt|Heq]|Hgt].
    + destruct (Hprev i Hlt) as (e1 & He1 & Hr1). congruence.
    + rewrite Heq in He'. split; [congruence|]. subst i. lia.
    + exfalso. eapply Hcmp; eauto.
  - destruct Hspec as (_ & _ & _ & Hinv & _ & Hp). exfalso.
    apply (Hcmp Hp). subst i. lia.
  - lia.
Qed.

(** C1, as amended: [retry] throws a fresh RetryExhaustedError exactly
    when the last permitted call (number [maxAttempts]) fails after
    retryable failures only, whatever the classification of that last
    failure; it re-throws the operation's own error exactly when a
    non-retryable failure happens before the last permitted call; and a
    non-retryable failure is always the last call made. *)
Theorem retry_failure_classification {T} (fn : Operation T) config :
  let cfg := finalConfig config in
  let maxA := final_maxAttempts cfg in
  let r := retry fn config in
  (forall msg attempts e,
      outcome r = Threw (ThrowRetryExhausted msg attempts e) <->
      msg = exhaustedMessage maxA /\ attempts = maxA /\ 1 <= maxA /\
      fn (Z.to_nat maxA - 1)%nat = inl e /\
      retryableFailures fn cfg (Z.to_nat maxA - 1)) /\
  (forall e,
      outcome r = Threw (ThrowOriginal e) <->
      exists j, (j + 1 < Z.to_nat maxA)%nat /\ fn j = inl e /\
                final_retryableErrors cfg e = false /\
                retryableFailures fn cfg j) /\
  (forall j e,
      (j < Z.to_nat maxA)%nat -> retryableFailures fn cfg j ->
      fn j = inl e -> final_retryableErrors cfg e = false ->
      invocations r = S j).
Proof.
  intros cfg maxA r.
  pose proof (retry_spec fn config) as Hspec. unfold runSpec in Hspec.
  fold cfg in Hspec. fold maxA in Hspec. fold r in Hspec.
  split; [|split].
  - intros msg attempts e. split.
    + intros Hout. rewrite Hout in Hspec.
      destruct Hspec as (-> & -> & Hmax & Hinv & He & Hp).
      rewrite Hinv in He, Hp.
      replace (Z.to_nat maxA - 1)%nat with (Nat.pred (Z.to_nat maxA)) by lia.
      done.
    + intros (-> & -> & Hmax & He & Hp).
      by destruct (retry_exhausted_intro fn config e Hmax He Hp).
  - intros e. split.
    + intros Hout. rewrite Hout in Hspec.
      destruct Hspec as (Hi & He & Hr & Hp).
      exists (Nat.pred (invocations r)). repeat split; try done. lia.
    + intros (j & Hj & He & Hr & Hp).
      by destruct (retry_original_intro fn config j e Hj He Hr Hp).
  - intros j e Hj Hp He Hr.
    destruct (decide (j + 1 < Z.to_nat maxA)%nat) as [Hlt|Hge].
    + by destruct (retry_original_intro fn config j e Hlt He Hr Hp).
    + assert (Hjm : j = (Z.to_nat maxA - 1)%nat) by lia. subst j.
      destruct (retry_exhausted_intro fn config e) as [_ Hinv];
        [unfold maxA, cfg in *; lia|done|done|].
      unfold r. rewrite Hinv. unfold maxA, cfg in *. lia.
Qed.

Lemma retry_failure_classification_witness :
  invocations (retry rejectedAtThird emptyConfig) = 3%nat.
Proof.
  apply (proj2 (proj2 (retry_failure_classification rejectedAtThird emptyConfig))
           2%nat (PlainError "invalid request")).
  - vm_compute. lia.
  - intros k Hk. exists (PlainError "socket timeout").
    destruct k as [|[|k]]; [split; reflexivity|split; reflexivity|lia].
  - reflexivity.
  - reflexivity.
Defined.

(** C1, as stated, fails: with the default policy (three attempts,
    [isTransientError]) the third call fails with an error that is not
    retryable, and [retry] throws RetryExhaustedError instead of the
    original error. *)
Lemma retry_exhausted_after_nonretryable_failure :
  final_retryableErrors (finalConfig emptyConfig)
    (PlainError "invalid request") = false /\
  rejectedAtThird 2%nat = inl (PlainError "invalid request") /\
  outcome (retry rejectedAtThird emptyConfig) =
    Threw (ThrowRetryExhausted "Operation failed after 3 attempts" 3
             (PlainError "invalid request")) /\
  outcome (retry rejectedAtThird emptyConfig) <>
    Threw (ThrowOriginal (PlainError "invalid request")).
Proof.
  repeat split; try reflexivity. vm_compute. discriminate.
Qed.

(** With a single permitted attempt, a non-retryable failure of the only
    call is wrapped as well. *)
Example retry_single_attempt_nonretryable :
  retry (fun _ => inl (PlainError "invalid request") : Error + unit)
        (mkRetryConfig (Some 1) None None None None) =
  mkRun (Threw (ThrowRetryExhausted "Operation failed after 1 attempts" 1
                  (PlainError "invalid request"))) 1.
Proof. reflexivity. Qed.

Lemma retry_invocations_le {T} (fn : Operation T) config :
  (invocations (retry fn config)
   <= Z.to_nat (final_maxAttempts (finalConfig config)))%nat.
Proof.
  pose proof (retry_spec fn config) as Hspec. unfold runSpec in Hspec.
  destruct (outcome (retry fn config)) as [v|[e'|msg a e'|]]; lia.
Qed.

(** C8: an operation that fails with a retryable error at every call, run
    with [maxAttempts = 3], is called exactly three times, and [retry] then
    throws RetryExhaustedError with [attempts = 3] and the third failure as
    its original error; the same holds for any [maxAttempts = n >= 1]; and
    whatever the operation and the policy, the operation is called at most
    [maxAttempts] times.  The first call is attempt 1. *)
Theorem retry_attempts_bounded {T} (fn : Operation T) config :
  let cfg := finalConfig config in
  let r := retry fn config in
  (invocations r <= Z.to_nat (final_maxAttempts cfg))%nat /\
  ((forall k, exists e, fn k = inl e /\ final_retryableErrors cfg e = true) ->
   (final_maxAttempts cfg = 3 ->
    invocations r = 3%nat /\
    exists e, fn 2%nat = inl e /\
      outcome r = Threw (ThrowRetryExhausted
                           "Operation failed after 3 attempts" 3 e)) /\
   (forall n, final_maxAttempts cfg = n -> 1 <= n ->
    invocations r = Z.to_nat n /\
    exists e, fn (Z.to_nat n - 1)%nat = inl e /\
      outcome r = Threw (ThrowRetryExhausted (exhaustedMessage n) n e))).
Proof.
  intros cfg r. split; [apply retry_invocations_le|].
  intros Hall.
  assert (Hgen : forall n, final_maxAttempts cfg = n -> 1 <= n ->
    invocations r = Z.to_nat n /\
    exists e, fn (Z.to_nat n - 1)%nat = inl e /\
      outcome r = Threw (ThrowRetryExhausted (exhaustedMessage n) n e)).
  { intros n Hmax Hpos.
    destruct (Hall (Z.to_nat n - 1)%nat) as (e & He & Hr).
    destruct (retry_exhausted_intro fn config e) as [Hout Hinv].
    - fold cfg. lia.
    - fold cfg. rewrite Hmax. exact He.
    - intros k _. apply Hall.
    - fold cfg in Hout, Hinv. rewrite Hmax in Hout, Hinv.
      split; [exact Hinv|]. exists e. split; [exact He|exact Hout]. }
  split; [|exact Hgen].
  intros H3. destruct (Hgen 3 H3) as (Hinv & e & He & Hout); [lia|].
  split; [exact Hinv|]. exists e. split; [exact He|exact Hout].
Qed.

Lemma retry_attempts_bounded_witness :
  invocations (retry alwaysTimeout emptyConfig) = 3%nat /\
  exists e, alwaysTimeout 2%nat = inl e /\
    outcome (retry alwaysTimeout emptyConfig)
    = Threw (ThrowRetryExhausted "Operation failed after 3 attempts" 3 e).
Proof.
  apply (proj2 (retry_attempts_bounded alwaysTimeout emptyConfig)).
  - intros k. exists (PlainError "request timeout"). split; reflexivity.
  - reflexivity.
Defined.

End RetryFacts.

(** ** The conversation context manager *)
Module ContextFacts.
Import Context.

Lemma mostRecent_app_absorb {A} (n : nat) (x y : list A) :
  mostRecent n (mostRecent n x ++ y) = mostRecent n (x ++ y).
Proof.
  unfold mostRecent.
  rewrite !length_app, length_drop.
  destruct (decide (length x <= n)%nat) as [Hle|Hgt].
  - replace (length x - n)%nat with 0%nat by lia. cbn [drop].
    do 2 f_equal. lia.
  - replace (length x + length y - n)%nat
      with ((length x - n) + length y)%nat by lia.
    rewrite <- drop_drop, (drop_app_le x) by lia.
    f_equal. lia.
Qed.

Lemma mostRecent_length {A} (n : nat) (l : list A) :
  (length (mostRecent n l) <= n)%nat.
Proof. unfold mostRecent. rewrite length_drop. lia. Qed.

Lemma mostRecent_all {A} (n : nat) (l : list A) :
  (length l <= n)%nat -> mostRecent n l = l.
Proof.
  intros H. unfold mostRecent.
  replace (length l - n)%nat with 0%nat by lia. reflexivity.
Qed.

Lemma mostRecent_app_r {A} (n : nat) (x y : list A) :
  (n <= length y)%nat -> mostRecent n (x ++ y) = mostRecent n y.
Proof.
  intros H. unfold mostRecent. rewrite length_app.
  replace (length x + length y - n)%nat
    with (length x + (length y - n))%nat by lia.
  by rewrite drop_app_add.
Qed.

(** The trimming of [addMessage], for a bound that is not negative. *)
Lemma trim_mostRecent {A} (maxLen : Z) (pushed : list A) :
  0 <= maxLen ->
  (if Z.of_nat (length pushed) >? maxLen
   then splice0 (Z.of_nat (length pushed) - maxLen) pushed
   else pushed) = mostRecent (Z.to_nat maxLen) pushed.
Proof.
  intros Hpos. unfold splice0, mostRecent.
  destruct (Z.gtb_spec (Z.of_nat (length pushed)) maxLen) as [Hgt|Hle].
  - f_equal. lia.
  - replace (length pushed - Z.to_nat maxLen)%nat with 0%nat by lia.
    reflexivity.
Qed.

Lemma addMessage_lookup id message now mgr :
  conversations (addMessage id message now mgr) !! id =
    Some (mkContext
            (match conversations mgr !! id with
             | Some c => chatId c
             | None => id
             end)
            (let pushed := stored id mgr ++ [message] in
             if Z.of_nat (length pushed) >? maxHistoryLength mgr
             then splice0 (Z.of_nat (length pushed) - maxHistoryLength mgr)
                          pushed
             else pushed)
            now
            (match conversations mgr !! id with
             | Some c => messageCount c + 1
             | None => 1
             end)).
Proof.
  unfold addMessage, stored. cbn [conversations].
  rewrite lookup_insert_eq.
  destruct (conversations mgr !! id) as [c|]; reflexivity.
Qed.

Lemma addMessage_lookup_ne id id' message now mgr :
  id <> id' ->
  conversations (addMessage id message now mgr) !! id' =
    conversations mgr !! id'.
Proof.
  intros Hne. unfold addMessage. cbn [conversations].
  by rewrite lookup_insert_ne.
Qed.

Lemma addMessage_settings id message now mgr :
  maxHistoryLength (addMessage id message now mgr) = maxHistoryLength mgr /\
  maxAge (addMessage id message now mgr) = maxAge mgr.
Proof. split; reflexivity. Qed.

Lemma addMessage_stored id message now mgr :
  0 <= maxHistoryLength mgr ->
  stored id (addMessage id message now mgr) =
    mostRecent (Z.to_nat (maxHistoryLength mgr)) (stored id mgr ++ [message]).
Proof.
  intros Hpos. unfold stored at 1. rewrite addMessage_lookup.
  cbn [messages]. by apply trim_mostRecent.
Qed.

Lemma appendAll_settings id appends : forall mgr,
  maxHistoryLength (appendAll id appends mgr) = maxHistoryLength mgr /\
  maxAge (appendAll id appends mgr) = maxAge mgr.
Proof.
  induction appends as [|a appends IH]; intros mgr; [done|].
  cbn. destruct (IH (addMessage id a.1 a.2 mgr)) as [H1 H2].
  unfold appendAll in *. rewrite H1, H2. done.
Qed.

(** After at least one append, the stored history is the tail of what was
    stored before followed by the appended messages. *)
Lemma appendAll_stored id appends : forall mgr,
  0 <= maxHistoryLength mgr ->
  appends <> [] ->
  stored id (appendAll id appends mgr) =
    mostRecent (Z.to_nat (maxHistoryLength mgr))
               (stored id mgr ++ map fst appends).
Proof.
  induction appends as [|a appends IH]; intros mgr Hpos Hne; [done|].
  destruct appends as [|b appends].
  - cbn. by apply addMessage_stored.
  - change (appendAll id (a :: b :: appends) mgr)
      with (appendAll id (b :: appends) (addMessage id a.1 a.2 mgr)).
    rewrite IH; [|done|done].
    rewrite addMessage_stored by done.
    cbn [maxHistoryLength addMessage].
    rewrite mostRecent_app_absorb.
    by rewrite <- app_assoc.
Qed.

Lemma appendAll_lastActivity id appends : forall mgr,
  appends <> [] ->
  exists c, conversations (appendAll id appends mgr) !! id = Some c /\
            Some (lastActivity c) = snd <$> last appends.
Proof.
  induction appends as [|a appends IH]; intros mgr Hne; [done|].
  destruct appends as [|b appends].
  - unfold appendAll. cbn [fold_left]. rewrite addMessage_lookup.
    eexists. split; [reflexivity|]. reflexivity.
  - change (appendAll id (a :: b :: appends) mgr)
      with (appendAll id (b :: appends) (addMessage id a.1 a.2 mgr)).
    destruct (IH (addMessage id a.1 a.2 mgr)) as (c & Hc & Hl); [done|].
    exists c. split; [exact Hc|]. rewrite Hl. reflexivity.
Qed.

(** Each call keeps every stored history within the bound. *)
Lemma step_bounded mgr call :
  0 <= maxHistoryLength mgr -> bounded mgr -> bounded (step mgr call).
Proof.
  intros Hpos Hb. destruct call as [id message now|id now|id|now]; cbn [step].
  - intros id' c Hc.
    destruct (decide (id = id')) as [<-|Hne].
    + rewrite addMessage_lookup in Hc. injection Hc as <-.
      cbn [messages maxHistoryLength addMessage].
      rewrite trim_mostRecent by done.
      pose proof (mostRecent_length (Z.to_nat (maxHistoryLength mgr))
                    (stored id mgr ++ [message])). lia.
    + rewrite addMessage_lookup_ne in Hc by done. by apply (Hb id').
  - unfold getContext.
    destruct (conversations mgr !! id) as [c0|] eqn:Hid; [|done].
    destruct (now - lastActivity c0 >? maxAge mgr); [|done].
    intros id' c Hc. cbn in Hc.
    apply lookup_delete_Some in Hc as [_ Hc]. by apply (Hb id').
  - unfold clearContext.
    destruct (conversations mgr !! id) as [c0|] eqn:Hid; [|done].
    intros id' c Hc. cbn in Hc.
    apply lookup_delete_Some in Hc as [_ Hc]. by apply (Hb id').
  - intros id' c Hc. cbn in Hc.
    apply map_lookup_filter_Some in Hc as [Hc _]. by apply (Hb id').
Qed.

Lemma step_settings mgr call :
  maxHistoryLength (step mgr call) = maxHistoryLength mgr.
Proof.
  destruct call as [id message now|id now|id|now]; cbn [step]; try done.
  - unfold getContext. destruct (conversations mgr !! id); [|done].
    by destruct (_ >? _).
  - unfold clearContext. by destruct (conversations mgr !! id).
Qed.

Lemma run_bounded calls : forall mgr,
  0 <= maxHistoryLength mgr -> bounded mgr -> bounded (run mgr calls).
Proof.
  induction calls as [|call calls IH]; intros mgr Hpos Hb; [done|].
  cbn. apply IH.
  - by rewrite step_settings.
  - by apply step_bounded.
Qed.

Lemma newManager_bounded maxLen hours : bounded (newManager maxLen hours).
Proof. intros id c Hc. cbn in Hc. by rewrite lookup_empty in Hc. Qed.

(** C6: for a bound that is not negative, after any non-empty sequence of
    appends to one conversation the stored history has at most
    [maxHistoryLength] messages, namely the most recent ones of what was
    stored before followed by the appended messages, in their order; after
    more than [maxHistoryLength] appends a read that is not expired returns
    exactly the [maxHistoryLength] most recent appended messages in their
    order; and in every state reached from a new manager by any calls,
    every stored history is within the bound. *)
Theorem history_bounded_fifo mgr id appends :
  0 <= maxHistoryLength mgr ->
  appends <> [] ->
  let mgr' := appendAll id appends mgr in
  let n := Z.to_nat (maxHistoryLength mgr) in
  Z.of_nat (length (stored id mgr')) <= maxHistoryLength mgr /\
  stored id mgr' = mostRecent n (stored id mgr ++ map fst appends) /\
  (maxHistoryLength mgr < Z.of_nat (length appends) ->
   forall now lastAppend,
     snd <$> last appends = Some lastAppend ->
     now - lastAppend <= maxAge mgr ->
     fst (getContext id now mgr') = mostRecent n (map fst appends) /\
     length (fst (getContext id now mgr')) = n) /\
  (forall hours calls,
     bounded (run (newManager (maxHistoryLength mgr) hours) calls)).
Proof.
  intros Hpos Hne mgr' n.
  pose proof (appendAll_stored id appends mgr Hpos Hne) as Hst.
  fold mgr' in Hst. fold n in Hst.
  split; [|split; [exact Hst|split]].
  - rewrite Hst. pose proof (mostRecent_length n (stored id mgr ++ map fst appends)).
    unfold n in *. lia.
  - intros Hmore now lastAppend Hlast Hfresh.
    destruct (appendAll_lastActivity id appends mgr Hne) as (c & Hc & Hl).
    fold mgr' in Hc.
    assert (Hret : fst (getContext id now mgr') = stored id mgr').
    { unfold getContext, stored. rewrite Hc.
      destruct (appendAll_settings id appends mgr) as [_ Hage].
      fold mgr' in Hage. rewrite Hage.
      rewrite Hlast in Hl. injection Hl as Hl. rewrite Hl.
      destruct (Z.gtb_spec (now - lastAppend) (maxAge mgr)); [lia|done]. }
    rewrite Hret, Hst.
    rewrite mostRecent_app_r by (rewrite length_map; unfold n; lia).
    split; [reflexivity|].
    unfold mostRecent. rewrite length_drop, length_map. unfold n. lia.
  - intros hours calls. apply run_bounded; [done|apply newManager_bounded].
Qed.

Lemma history_bounded_fifo_witness :
  fst (getContext "chat" 3600000
         (appendAll "chat" [(msgA, 1); (msgB, 2); (msgC, 3)] smallManager))
  = [msgB; msgC].
Proof.
  pose proof (history_bounded_fifo smallManager "chat"
                [(msgA, 1); (msgB, 2); (msgC, 3)]) as H.
  destruct H as (_ & _ & H & _).
  - cbn. lia.
  - discriminate.
  - destruct (H ltac:(cbn; lia) 3600000 3 eq_refl ltac:(cbn; lia)) as [Hget _].
    exact Hget.
Defined.

(** C7: [getContext] returns the stored messages, and leaves the manager
    as it is, when the context exists and [now - lastActivity <= maxAge];
    it returns the empty list when there is no context, leaving the manager
    as it is, and when the context is expired, deleting that context and
    nothing else; no call changes a stored context, its [lastActivity] in
    particular. *)
Theorem getContext_spec id now mgr :
  (forall c, conversations mgr !! id = Some c ->
     now - lastActivity c <= maxAge mgr ->
     getContext id now mgr = (messages c, mgr)) /\
  (forall c, conversations mgr !! id = Some c ->
     ~ now - lastActivity c <= maxAge mgr ->
     fst (getContext id now mgr) = [] /\
     conversations (snd (getContext id now mgr))
       = delete id (conversations mgr) /\
     id ∉ getActiveConversations (snd (getContext id now mgr))) /\
  (conversations mgr !! id = None -> getContext id now mgr = ([], mgr)) /\
  (forall id' c', conversations (snd (getContext id now mgr)) !! id' = Some c' ->
     conversations mgr !! id' = Some c') /\
  (forall id', id' <> id ->
     conversations (snd (getContext id now mgr)) !! id'
       = conversations mgr !! id').
Proof.
  unfold getContext, getActiveConversations.
  destruct (conversations mgr !! id) as [c0|] eqn:Hid.
  - destruct (Z.gtb_spec (now - lastActivity c0) (maxAge mgr))
      as [Hexp|Hfresh]; cbn [fst snd conversations].
    + split; [intros c [= <-] Hle; lia|].
      split.
      { intros c [= <-] Hn. split; [done|]. split; [done|].
        intros Hin. apply elem_of_dom in Hin as [x Hx].
        by rewrite lookup_delete_eq in Hx. }
      split; [done|]. split.
      * intros id' c' Hc'. by apply lookup_delete_Some in Hc' as [_ Hc'].
      * intros id' Hne. by rewrite lookup_delete_ne.
    + split; [intros c [= <-] _; reflexivity|].
      split; [intros c [= <-] Hn; lia|].
      split; [done|]. split; done.
  - cbn [fst snd conversations].
    split; [done|]. split; [done|]. split; [done|]. split; done.
Qed.

Lemma getContext_spec_witness :
  getContext "chat" 3600001 (addMessage "chat" msgA 1 smallManager)
  = ([msgA], addMessage "chat" msgA 1 smallManager).
Proof.
  apply (proj1 (getContext_spec "chat" 3600001
                  (addMessage "chat" msgA 1 smallManager))
           (mkContext "chat" [msgA] 1 1)).
  - reflexivity.
  - cbn. lia.
Defined.

(** C10, as stated, fails: an append to an expired context whose history
    is full trims it as any append does, so not all of the existing
    messages are preserved.  With a bound of two messages and one hour,
    the history [first; second] is expired at 7200000; a read at that time
    would return nothing, and the append of a third message leaves
    [second; third]: the first message is gone. *)
Lemma addMessage_trims_expired_history :
  let mgr := addMessage "chat" msgB 2 (addMessage "chat" msgA 1 smallManager) in
  conversations mgr !! "chat" = Some (mkContext "chat" [msgA; msgB] 2 2) /\
  7200000 - 2 > maxAge mgr /\
  fst (getContext "chat" 7200000 mgr) = [] /\
  stored "chat" (addMessage "chat" msgC 7200000 mgr) = [msgB; msgC] /\
  fst (getContext "chat" 7200001 (addMessage "chat" msgC 7200000 mgr))
    = [msgB; msgC] /\
  stored "chat" (addMessage "chat" msgC 7200000 mgr)
    <> [msgA; msgB] ++ [msgC].
Proof.
  cbv zeta. split; [reflexivity|]. split; [cbn; lia|].
  split; [reflexivity|]. split; [reflexivity|]. split; [reflexivity|].
  vm_compute. discriminate.
Qed.

(** C10, as amended: [addMessage] on a context that is already expired
    does what it does on any context: the new message is pushed after the
    existing ones (all of them are kept while the history has room,
    otherwise the usual trimming applies and only the most recent
    [maxHistoryLength] remain), [lastActivity] becomes [now] and [messageCount]
    grows by one.  A read made right before the append would have returned
    nothing and deleted the context; a read made after it, within [maxAge]
    of the append, returns the messages, the old ones included. *)
Theorem addMessage_ignores_expiry mgr id c message now :
  conversations mgr !! id = Some c ->
  now - lastActivity c > maxAge mgr ->
  let mgr' := addMessage id message now mgr in
  fst (getContext id now mgr) = [] /\
  exists c',
    conversations mgr' !! id = Some c' /\
    lastActivity c' = now /\
    messageCount c' = messageCount c + 1 /\
    (Z.of_nat (length (messages c)) < maxHistoryLength mgr ->
     messages c' = messages c ++ [message]) /\
    (0 <= maxHistoryLength mgr ->
     messages c' = mostRecent (Z.to_nat (maxHistoryLength mgr))
                              (messages c ++ [message])) /\
    (forall now', now' - now <= maxAge mgr ->
     getContext id now' mgr' = (messages c', mgr')).
Proof.
  intros Hc Hexp mgr'. split.
  - unfold getContext. rewrite Hc.
    destruct (Z.gtb_spec (now - lastActivity c) (maxAge mgr)); [done|lia].
  - pose proof (addMessage_lookup id message now mgr) as Hl.
    fold mgr' in Hl. unfold stored in Hl. rewrite Hc in Hl.
    eexists. split; [exact Hl|].
    cbn [lastActivity messageCount messages].
    split; [reflexivity|]. split; [reflexivity|]. split; [|split].
    + intros Hroom.
      destruct (Z.gtb_spec (Z.of_nat (length (messages c ++ [message])))
                  (maxHistoryLength mgr)) as [Hgt|Hle]; [|reflexivity].
      rewrite length_app in Hgt. cbn in Hgt. lia.
    + intros Hpos. by apply trim_mostRecent.
    + intros now' Hfresh. unfold getContext. rewrite Hl.
      cbn [lastActivity messages]. unfold mgr' at 1. cbn [maxAge addMessage].
      destruct (Z.gtb_spec (now' - now) (maxAge mgr)); [lia|reflexivity].
Qed.

Lemma addMessage_ignores_expiry_witness :
  fst (getContext "chat" 7200000
         (addMessage "chat" msgA 1 (newManager 10 1))) = [] /\
  fst (getContext "chat" 7200001
         (addMessage "chat" msgB 7200000
            (addMessage "chat" msgA 1 (newManager 10 1)))) = [msgA; msgB].
Proof.
  destruct (addMessage_ignores_expiry
              (addMessage "chat" msgA 1 (newManager 10 1)) "chat"
              (mkContext "chat" [msgA] 1 1) msgB 7200000)
    as (Hread & c' & Hc' & _ & _ & Hall & _ & Hget).
  - reflexivity.
  - cbn. lia.
  - split; [exact Hread|].
    rewrite (Hget 7200001 ltac:(cbn; lia)). cbn [fst].
    rewrite (Hall ltac:(cbn; lia)). reflexivity.
Defined.

End ContextFacts.

(** ** The stream processor *)
Module StreamFacts.
Import Errors Retry Stream StringFacts.


Lemma last_map_seq {A} (f : nat -> A) (n : nat) :
  last (map f (seq 0 (S n))) = Some (f n).
Proof. rewrite seq_S, map_app. cbn. apply last_snoc. Qed.

Lemma Forall_map_seq {A} (P : A -> Prop) (f : nat -> A) (n : nat) :
  (forall k, (k < n)%nat -> P (f k)) -> Forall P (map f (seq 0 n)).
Proof.
  intros H. apply Forall_forall. intros x Hx.
  apply list_elem_of_In, in_map_iff in Hx as (k & <- & Hk).
  apply in_seq in Hk. apply H. lia.
Qed.

Lemma rejections_inl {A} (l : list (Error + A)) :
  Forall (fun d => exists e, d = inl e) l ->
  exists failures, l = map inl failures.
Proof.
  induction 1 as [|d l (e & ->) _ (failures & ->)].
  - by exists [].
  - by exists (e :: failures).
Qed.

(** One emission: between one and three calls of the callback; either the
    last call succeeds, and then a final emission clears the buffer, or
    every call is rejected and the processor is left as it was. *)
Lemma sendPartialUpdate_cases content isFinal p log :
  exists ds, (1 <= length ds <= 3)%nat /\
    let em := mkEmission content isFinal (isComplete p) ds in
    (sendPartialUpdate content isFinal (p, log)
       = (Ok tt, (if isFinal then setBuffer "" p else p, log ++ [em])) /\
     delivered em) \/
    (exists t, sendPartialUpdate content isFinal (p, log)
                 = (Fail t, (p, log ++ [em])) /\
               rejected em).
Proof.
  unfold sendPartialUpdate. cbn [fst snd].
  set (fn := fun k : nat =>
         onPartialUpdate p (callbackCalls log + k)%nat (chatId p)
           content isFinal).
  set (config := mkRetryConfig (Some 3) None None None None).
  pose proof (RetryFacts.retry_spec fn config) as Hspec.
  unfold runSpec in Hspec. cbn [finalConfig final_maxAttempts maxAttempts
    config default from_option id] in Hspec.
  exists (map fn (seq 0 (invocations (retry fn config)))).
  rewrite length_map, length_seq.
  destruct (outcome (retry fn config)) as [v|t] eqn:Hout.
  - destruct Hspec as (Hinv & Hv & Hprev).
    split; [lia|]. left. split; [reflexivity|].
    unfold delivered. cbn [em_deliveries].
    destruct (invocations (retry fn config)) as [|n]; [lia|].
    cbn [Nat.pred] in Hv, Hprev.
    destruct (rejections_inl (map fn (seq 0 n))) as (failures & Hf).
    { apply Forall_map_seq. intros k Hk.
      destruct (Hprev k Hk) as (e & He & _). eauto. }
    exists failures. rewrite seq_S, map_app, Hf. cbn [map Nat.add].
    rewrite Hv. by destruct v.
  - assert (Hrej : (1 <= invocations (retry fn config) <= 3)%nat /\
                   forall k, (k < invocations (retry fn config))%nat ->
                     exists e, fn k = inl e).
    { destruct t as [e|msg a e|].
      - destruct Hspec as (Hinv & He & _ & Hprev). split; [lia|].
        intros k Hk.
        destruct (decide (k = Nat.pred (invocations (retry fn config))))
          as [->|Hne]; [eauto|].
        destruct (Hprev k) as (e' & He' & _); [lia|eauto].
      - destruct Hspec as (_ & _ & _ & Hinv & He & Hprev). split; [lia|].
        intros k Hk.
        destruct (decide (k = Nat.pred (invocations (retry fn config))))
          as [->|Hne]; [eauto|].
        destruct (Hprev k) as (e' & He' & _); [lia|eauto].
      - lia. }
    destruct Hrej as [Hinv Hall].
    split; [lia|]. right. exists t. split; [reflexivity|].
    unfold rejected. cbn [em_deliveries]. by apply Forall_map_seq.
Qed.

(** The loop body and [process], with the state passing written out. *)
Lemma processChunks_cons c rest full p log :
  processChunks (c :: rest) full (p, log) =
    let p1 := setBuffer (buffer p +:+ chunk_text c) p in
    let full' := (full +:+ chunk_text c)%string in
    if shouldSendPartialUpdate p1 (chunk_now c) then
      match sendPartialUpdate (buffer p1) false (p1, log) with
      | (Ok _, (p2, log2)) =>
          processChunks rest full' (setLastUpdateTime (chunk_now c) p2, log2)
      | (Fail t, st) => (Fail t, st)
      end
    else processChunks rest full' (p1, log).
Proof.
  cbn [processChunks]. unfold bind, update, getProcessor, ret. cbn [fst snd].
  destruct (shouldSendPartialUpdate _ _); [|reflexivity].
  destruct (sendPartialUpdate _ _ _) as [[[]|t] [p2 log2]]; reflexivity.
Qed.

Lemma process_unfold stream p log :
  process stream (p, log) =
    match processChunks (textStream stream) "" (p, log) with
    | (Fail t, st) => (Fail t, st)
    | (Ok full, (p1, log1)) =>
        match textStreamError stream with
        | Some e => (Fail (ThrowOriginal e), (p1, log1))
        | None =>
            match sendPartialUpdate full true (setIsComplete true p1, log1) with
            | (Fail t, st) => (Fail t, st)
            | (Ok _, st2) =>
                match finishReason stream with
                | inl e => (Fail (ThrowOriginal e), st2)
                | inr _ => (Ok full, st2)
                end
            end
        end
    end.
Proof.
  unfold process, bind, update, throw, ret.
  destruct (processChunks _ _ _) as [[full|t] [p1 log1]]; [|reflexivity].
  destruct (textStreamError stream); [reflexivity|]. cbn [fst snd].
  destruct (sendPartialUpdate _ _ _) as [[[]|t] st2]; [|reflexivity].
  destruct (finishReason stream); reflexivity.
Qed.

(** The loop only makes partial emissions, all of them with the
    processor's [isComplete] field as it was on entry; it never touches
    that field; it only extends the buffer; and when it ends normally the
    text it returns and the buffer have grown by all the chunks. *)
Lemma processChunks_spec chunks : forall full p log,
  exists res p' partials,
    processChunks chunks full (p, log) = (res, (p', log ++ partials)) /\
    Forall (fun em => em_isFinal em = false /\
                      em_completeField em = isComplete p) partials /\
    isComplete p' = isComplete p /\
    (exists consumed, buffer p' = (buffer p +:+ consumed)%string) /\
    match res with
    | Ok text =>
        text = (full +:+ fullText chunks)%string /\
        buffer p' = (buffer p +:+ fullText chunks)%string
    | Fail _ => True
    end.
Proof.
  induction chunks as [|c rest IH]; intros full p log.
  - exists (Ok full), p, []. cbn [processChunks fullText]. unfold ret.
    rewrite app_nil_r, !append_nil_r.
    repeat split; try done. exists ""%string. by rewrite append_nil_r.
  - rewrite processChunks_cons. cbv zeta.
    set (p1 := setBuffer (buffer p +:+ chunk_text c) p).
    destruct (shouldSendPartialUpdate p1 (chunk_now c)).
    + destruct (sendPartialUpdate_cases (buffer p1) false p1 log)
        as (ds & Hds & [[Heq _]|(t & Heq & _)]); rewrite Heq.
      * destruct (IH (full +:+ chunk_text c)%string
                     (setLastUpdateTime (chunk_now c) p1)
                     (log ++ [mkEmission (buffer p1) false (isComplete p1) ds]))
          as (res & p' & partials & Hrun & Hall & Hc & (consumed & Hb) & Hres).
        exists res, p',
          (mkEmission (buffer p1) false (isComplete p1) ds :: partials).
        rewrite Hrun, <- app_assoc. split; [reflexivity|].
        split; [|split; [exact Hc|split]].
        -- constructor; [done|exact Hall].
        -- exists (chunk_text c +:+ consumed)%string.
           rewrite Hb. cbn [buffer setLastUpdateTime p1 setBuffer].
           apply append_assoc.
        -- destruct res as [text|t]; [|done]. destruct Hres as [-> ->].
           cbn [buffer setLastUpdateTime p1 setBuffer fullText].
           by rewrite !append_assoc.
      * exists (Fail t), p1, [mkEmission (buffer p1) false (isComplete p1) ds].
        split; [reflexivity|]. split; [by constructor|].
        split; [reflexivity|]. split; [|done].
        exists (chunk_text c). reflexivity.
    + destruct (IH (full +:+ chunk_text c)%string p1 log)
        as (res & p' & partials & Hrun & Hall & Hc & (consumed & Hb) & Hres).
      exists res, p', partials. rewrite Hrun. split; [reflexivity|].
      split; [exact Hall|]. split; [exact Hc|]. split.
      * exists (chunk_text c +:+ consumed)%string.
        rewrite Hb. cbn [buffer p1 setBuffer]. apply append_assoc.
      * destruct res as [text|t]; [|done]. destruct Hres as [-> ->].
        cbn [buffer p1 setBuffer fullText]. by rewrite !append_assoc.
Qed.

(** A run of [process], case by case: either the loop or the fragment
    source fails and there is no final emission, or the final emission is
    attempted with [isComplete] already set. *)
Lemma process_cases stream p log :
  exists res p' partials,
    Forall (fun em => em_isFinal em = false /\
                      em_completeField em = isComplete p) partials /\
    ((process stream (p, log) = (res, (p', log ++ partials)) /\
      (exists t, res = Fail t) /\
      isComplete p' = isComplete p /\
      exists consumed, buffer p' = (buffer p +:+ consumed)%string)
     \/
     (exists ds, (1 <= length ds <= 3)%nat /\
        let final := mkEmission (fullText (textStream stream)) true true ds in
        process stream (p, log) = (res, (p', log ++ partials ++ [final])) /\
        isComplete p' = true /\
        ((delivered final /\ buffer p' = ""%string /\
          (res = Ok (fullText (textStream stream)) \/
           exists e, finishReason stream = inl e /\
                     res = Fail (ThrowOriginal e)))
         \/
         (rejected final /\ (exists t, res = Fail t) /\
          buffer p' = (buffer p +:+ fullText (textStream stream))%string)))).
Proof.
  rewrite process_unfold.
  destruct (processChunks_spec (textStream stream) "" p log)
    as (res1 & p1 & partials & Hrun & Hall & Hc & Hb & Hres).
  rewrite Hrun.
  destruct res1 as [full|t].
  - destruct Hres as [Hfull Hbuf].
    change ("" +:+ fullText (textStream stream))%string
      with (fullText (textStream stream)) in Hfull. subst full.
    destruct (textStreamError stream) as [e|].
    + exists (Fail (ThrowOriginal e)), p1, partials.
      split; [exact Hall|]. left. repeat split; eauto.
    + destruct (sendPartialUpdate_cases (fullText (textStream stream)) true
                  (setIsComplete true p1) (log ++ partials))
        as (ds & Hds & [[Heq Hdel]|(t & Heq & Hrej)]); rewrite Heq.
      * destruct (finishReason stream) as [e|reason] eqn:Hfin.
        -- exists (Fail (ThrowOriginal e)), (setBuffer "" (setIsComplete true p1)),
             partials.
           split; [exact Hall|]. right. exists ds. split; [exact Hds|].
           cbn zeta. rewrite <- app_assoc. split; [reflexivity|].
           split; [reflexivity|]. left. split; [exact Hdel|].
           split; [reflexivity|]. right. eauto.
        -- exists (Ok (fullText (textStream stream))),
             (setBuffer "" (setIsComplete true p1)), partials.
           split; [exact Hall|]. right. exists ds. split; [exact Hds|].
           cbn zeta. rewrite <- app_assoc. split; [reflexivity|].
           split; [reflexivity|]. left. split; [exact Hdel|].
           split; [reflexivity|]. by left.
      * exists (Fail t), (setIsComplete true p1), partials.
        split; [exact Hall|]. right. exists ds. split; [exact Hds|].
        cbn zeta. rewrite <- app_assoc. split; [reflexivity|].
        split; [reflexivity|]. right. split; [exact Hrej|].
        split; [eauto|]. exact Hbuf.
  - exists (Fail t), p1, partials. split; [exact Hall|]. left.
    repeat split; eauto.
Qed.

Lemma filter_no_final (partials : list Emission) :
  Forall (fun em => em_isFinal em = false) partials ->
  List.filter em_isFinal partials = [].
Proof.
  induction 1 as [|em l Hem _ IH]; [reflexivity|].
  cbn. by rewrite Hem.
Qed.

Lemma last_map {A B} (f : A -> B) (l : list A) (x : A) :
  last l = Some x -> last (map f l) = Some (f x).
Proof.
  induction l as [|a [|b l] IH]; [done| |].
  - by intros [= ->].
  - intros H. apply IH in H. exact H.
Qed.

Lemma delivered_last (em : Emission) :
  delivered em -> last (em_deliveries em) = Some (inr tt).
Proof. intros (failures & ->). apply last_snoc. Qed.

Lemma callbackLog_last (partials : list Emission) (final : Emission) :
  delivered final ->
  last (callbackLog (partials ++ [final]))
  = Some (em_content final, em_isFinal final, inr tt).
Proof.
  intros Hdel. unfold callbackLog. rewrite flat_map_app. cbn [flat_map].
  rewrite app_nil_r, last_app.
  by rewrite (last_map _ _ _ (delivered_last _ Hdel)).
Qed.

Lemma successfulFinalCalls_partials (partials : list Emission) :
  Forall (fun em => em_isFinal em = false) partials ->
  successfulFinalCalls partials = [].
Proof.
  unfold successfulFinalCalls, callbackLog.
  induction 1 as [|em l Hem _ IH]; [reflexivity|].
  cbn [flat_map]. rewrite List.filter_app, IH, app_nil_r, Hem.
  induction (em_deliveries em) as [|d ds IHd]; [reflexivity|exact IHd].
Qed.

Lemma successfulFinalCalls_final (partials : list Emission) (final : Emission) :
  Forall (fun em => em_isFinal em = false) partials ->
  em_isFinal final = true ->
  delivered final ->
  successfulFinalCalls (partials ++ [final])
  = [(em_content final, true, inr tt)].
Proof.
  intros Hpart Hfin (failures & Hdel).
  pose proof (successfulFinalCalls_partials partials Hpart) as Hnone.
  unfold successfulFinalCalls, callbackLog in *.
  rewrite flat_map_app, List.filter_app, Hnone. cbn [flat_map app].
  rewrite app_nil_r, Hdel, Hfin, map_app, List.filter_app.
  cbn [map List.filter app]. clear Hdel.
  induction failures as [|e failures IH]; [reflexivity|exact IH].
Qed.

(** C5: with [chunkThreshold = 100] and [timeThreshold = 1000], whenever
    [process] returns, the text it returns and the content of the final
    emission are the concatenation of all chunks in arrival order; the log
    of emissions is a list of partial emissions followed by that final
    emission, which is therefore the only emission with
    [isComplete = true] and the last one; its delivery succeeded; exactly
    one call of the callback with [isComplete = true] resolved, and it is
    the last call of the callback in the run. *)
Theorem final_emission_once chatId callback partials_on stream text p' log :
  let p := newProcessor chatId callback
             (mkOptions (Some 100) (Some 1000) partials_on) in
  runProcess p stream = (Ok text, (p', log)) ->
  text = fullText (textStream stream) /\
  exists partials final,
    log = partials ++ [final] /\
    Forall (fun em => em_isFinal em = false) partials /\
    em_isFinal final = true /\
    em_content final = fullText (textStream stream) /\
    delivered final /\
    List.filter em_isFinal log = [final] /\
    last log = Some final /\
    successfulFinalCalls log
      = [(fullText (textStream stream), true, inr tt)] /\
    last (callbackLog log)
      = Some (fullText (textStream stream), true, inr tt).
Proof.
  intros p Hrun. unfold runProcess in Hrun.
  destruct (process_cases stream p [])
    as (res & p1 & partials & Hall & [(Heq & (t & ->) & _)|
          (ds & Hds & Heq & Hc & [(Hdel & Hb & Hres)|(_ & (t & ->) & _)])]);
    rewrite Heq in Hrun; try discriminate.
  destruct Hres as [->|(e & _ & ->)]; [|discriminate].
  injection Hrun as <- <- <-. split; [reflexivity|].
  assert (Hpart : Forall (fun em => em_isFinal em = false) partials).
  { eapply Forall_impl; [exact Hall|]. by intros em [H _]. }
  eexists partials, _. cbn [app]. split; [reflexivity|].
  split; [exact Hpart|]. split; [reflexivity|]. split; [reflexivity|].
  split; [exact Hdel|]. split; [|split; [|split]].
  - rewrite List.filter_app, (filter_no_final _ Hpart). reflexivity.
  - apply last_snoc.
  - by rewrite (successfulFinalCalls_final partials _ Hpart
                  (eq_refl : em_isFinal (mkEmission _ true true ds) = true)
                  Hdel).
  - by rewrite (callbackLog_last _ _ Hdel).
Qed.

Lemma final_emission_once_witness :
  exists partials final,
    [mkEmission "Hel" false false [inr tt];
     mkEmission "Hello" true true [inr tt]] = partials ++ [final] /\
    em_content final = "Hello"%string /\
    List.filter em_isFinal (partials ++ [final]) = [final].
Proof.
  destruct (final_emission_once "chat" alwaysDelivers None helloStream "Hello"
              (mkProcessor "chat" alwaysDelivers 100 1000 true ""
                 1700000000000 true)
              [mkEmission "Hel" false false [inr tt];
               mkEmission "Hello" true true [inr tt]])
    as (_ & partials & final & Hlog & _ & _ & Hcontent & _ & Hfilter & _).
  - reflexivity.
  - exists partials, final. rewrite <- Hlog.
    split; [reflexivity|]. split; [exact Hcontent|exact Hfilter].
Defined.

(** C2, as stated, fails.  In a successful run the callback is called for
    the final emission when [isComplete] is already [true]; and when the
    final emission is rejected three times, [process] fails with
    [isComplete] set, three calls of the callback made after it was set,
    and the buffer not cleared. *)
Lemma final_emission_after_complete :
  runProcess (newProcessor "chat" alwaysDelivers (mkOptions None None None))
             helloStream
  = (Ok "Hello"%string,
     (mkProcessor "chat" alwaysDelivers 100 1000 true "" 1700000000000 true,
      [mkEmission "Hel" false false [inr tt];
       mkEmission "Hello" true true [inr tt]])) /\
  runProcess (newProcessor "chat" rejectsFinal (mkOptions None None None))
             helloStream
  = (Fail (ThrowRetryExhausted "Operation failed after 3 attempts" 3
             (PlainError "network unreachable")),
     (mkProcessor "chat" rejectsFinal 100 1000 true "Hello" 1700000000000 true,
      [mkEmission "Hel" false false [inr tt];
       mkEmission "Hello" true true
         [inl (PlainError "network unreachable");
          inl (PlainError "network unreachable");
          inl (PlainError "network unreachable")]])).
Proof. split; reflexivity. Qed.

(** C2, as amended: [isComplete] is set when the fragment source is
    exhausted, before the final emission is attempted.  Every emission
    made while it is [false] is a partial one; the only emission made once
    it is [true] is the single final emission, with the full text; the
    buffer is cleared only after that emission has been delivered, and if
    its delivery fails [process] fails with [isComplete] set and the buffer
    not cleared.  When [process] returns, [isComplete] is set and the
    buffer is empty. *)
Theorem complete_flag_protocol stream p log :
  isComplete p = false ->
  exists res p' partials finals,
    process stream (p, log) = (res, (p', log ++ partials ++ finals)) /\
    Forall (fun em => em_isFinal em = false /\ em_completeField em = false)
           partials /\
    ((finals = [] /\ isComplete p' = false /\ exists t, res = Fail t) \/
     (exists final,
        finals = [final] /\ isComplete p' = true /\
        em_isFinal final = true /\ em_completeField final = true /\
        em_content final = fullText (textStream stream) /\
        (1 <= length (em_deliveries final) <= 3)%nat /\
        ((delivered final /\ buffer p' = ""%string) \/
         (rejected final /\ (exists t, res = Fail t) /\
          buffer p' = (buffer p +:+ fullText (textStream stream))%string)))) /\
    (forall text, res = Ok text ->
       text = fullText (textStream stream) /\
       isComplete p' = true /\ buffer p' = ""%string).
Proof.
  intros Hinit.
  destruct (process_cases stream p log)
    as (res & p' & partials & Hall & [(Heq & (t & ->) & Hc & _)|
          (ds & Hds & Heq & Hc & Hfinal)]).
  - exists (Fail t), p', partials, []. rewrite app_nil_r.
    split; [exact Heq|]. rewrite Hinit in Hall. split; [exact Hall|].
    split; [|discriminate]. left. rewrite Hc. eauto.
  - eexists res, p', partials, [_]. split; [exact Heq|].
    rewrite Hinit in Hall. split; [exact Hall|]. split.
    + right. eexists. split; [reflexivity|]. split; [exact Hc|].
      cbn [em_isFinal em_completeField em_content em_deliveries].
      do 4 (split; [done|]).
      destruct Hfinal as [(Hdel & Hb & _)|(Hrej & Ht & Hb)]; [left|right];
        done.
    + intros text ->.
      destruct Hfinal as [(_ & Hb & [[= <-]|(e & _ & [=])])|(_ & (t & [=]) & _)].
      done.
Qed.

Lemma complete_flag_protocol_witness :
  exists res p' partials finals,
    process helloStream
      (newProcessor "chat" rejectsFinal (mkOptions None None None), [])
    = (res, (p', [] ++ partials ++ finals)) /\
    Forall (fun em => em_isFinal em = false /\ em_completeField em = false)
           partials.
Proof.
  destruct (complete_flag_protocol helloStream
              (newProcessor "chat" rejectsFinal (mkOptions None None None)) [])
    as (res & p' & partials & finals & Hrun & Hall & _).
  - reflexivity.
  - exists res, p', partials, finals. split; [exact Hrun|exact Hall].
Defined.

Lemma processChunks_log chunks full p log :
  exists partials,
    snd (snd (processChunks chunks full (p, log))) = log ++ partials.
Proof.
  destruct (processChunks_spec chunks full p log)
    as (res & p' & partials & Hrun & _).
  exists partials. by rewrite Hrun.
Qed.

Lemma process_log stream p log :
  exists more,
    snd (snd (process stream (p, log)))
    = snd (snd (processChunks (textStream stream) "" (p, log))) ++ more.
Proof.
  rewrite process_unfold.
  destruct (processChunks (textStream stream) "" (p, log))
    as [[full|t] [p1 log1]]; cbn [snd].
  - destruct (textStreamError stream) as [e|].
    + exists []. by rewrite app_nil_r.
    + destruct (sendPartialUpdate_cases full true (setIsComplete true p1) log1)
        as (ds & _ & [[Heq _]|(t & Heq & _)]); rewrite Heq.
      * eexists [_]. by destruct (finishReason stream).
      * eexists [_]. reflexivity.
  - exists []. by rewrite app_nil_r.
Qed.

Lemma shouldSend_first (p : StreamProcessor) (now : Z) :
  opt_sendPartialUpdates p = true ->
  buffer p <> ""%string ->
  opt_timeThreshold p <= now - lastUpdateTime p ->
  shouldSendPartialUpdate p now = true.
Proof.
  intros Hon Hbuf Htime. unfold shouldSendPartialUpdate. rewrite Hon.
  cbn [negb]. apply orb_true_iff. right. apply andb_true_iff. split.
  - destruct (buffer p) as [|a b]; [done|]. reflexivity.
  - apply Z.geb_le. lia.
Qed.

(** Chunks with no text leave a processor with an empty buffer and a
    positive chunk threshold as it is. *)
Lemma processChunks_empties empties : forall chunks full p log,
  Forall (fun c => chunk_text c = ""%string) empties ->
  buffer p = ""%string ->
  0 < opt_chunkThreshold p ->
  processChunks (empties ++ chunks) full (p, log)
  = processChunks chunks full (p, log).
Proof.
  induction empties as [|c empties IH]; intros chunks full p log Hall Hb Hpos;
    [reflexivity|].
  inversion Hall as [|? ? Hc Hrest]; subst.
  cbn [app]. rewrite processChunks_cons. cbv zeta.
  rewrite Hc, Hb, !append_nil_r.
  assert (Hp : setBuffer "" p = p).
  { destruct p. cbn in Hb. subst. reflexivity. }
  change ("" +:+ "")%string with ""%string. rewrite Hp.
  assert (Hno : shouldSendPartialUpdate p (chunk_now c) = false).
  { unfold shouldSendPartialUpdate. rewrite Hb.
    destruct (opt_sendPartialUpdates p); [|reflexivity]. cbn [negb].
    change (Z.of_nat (String.length "")) with 0.
    rewrite orb_false_r.
    destruct (Z.geb_spec 0 (opt_chunkThreshold p)); [lia|reflexivity]. }
  rewrite Hno. by apply IH.
Qed.

Lemma first_chunk_log c rest full p log :
  shouldSendPartialUpdate (setBuffer (buffer p +:+ chunk_text c) p)
                          (chunk_now c) = true ->
  exists ds later, ds <> [] /\
    snd (snd (processChunks (c :: rest) full (p, log)))
    = log ++ mkEmission (buffer p +:+ chunk_text c) false (isComplete p) ds
             :: later.
Proof.
  intros Hsend. rewrite processChunks_cons. cbv zeta. rewrite Hsend.
  set (p1 := setBuffer (buffer p +:+ chunk_text c) p).
  destruct (sendPartialUpdate_cases (buffer p1) false p1 log)
    as (ds & Hds & [[Heq _]|(t & Heq & _)]); rewrite Heq.
  - destruct (processChunks_log rest (full +:+ chunk_text c)%string
                (setLastUpdateTime (chunk_now c) p1)
                (log ++ [mkEmission (buffer p1) false (isComplete p1) ds]))
      as (partials & Hlog).
    exists ds, partials. split; [by destruct ds; cbn in Hds; [lia|]|].
    rewrite Hlog, <- app_assoc. reflexivity.
  - exists ds, []. split; [by destruct ds; cbn in Hds; [lia|]|].
    reflexivity.
Qed.

(** C9: a new processor has [lastUpdateTime = 0].  With partial updates
    enabled, if the first chunk is not empty and the clock reads at least
    [timeThreshold] when it arrives, the predicate holds for it whatever
    its length and [chunkThreshold] are, and the first emission of the run
    is a partial emission carrying exactly that chunk.  The same holds for
    the first chunk that is not empty after any number of empty ones, when
    [chunkThreshold] is positive. *)
Theorem first_fragment_emitted chatId callback options c rest streamError
    finish :
  sendPartialUpdates options <> Some false ->
  chunk_text c <> ""%string ->
  orElse (timeThreshold options) 1000 <= chunk_now c ->
  let p := newProcessor chatId callback options in
  lastUpdateTime p = 0 /\
  shouldSendPartialUpdate (setBuffer (buffer p +:+ chunk_text c) p)
                          (chunk_now c) = true /\
  (exists ds later, ds <> [] /\
     snd (snd (runProcess p (mkStream (c :: rest) streamError finish)))
     = mkEmission (chunk_text c) false false ds :: later) /\
  (forall empties,
     Forall (fun c0 => chunk_text c0 = ""%string) empties ->
     0 < opt_chunkThreshold p ->
     exists ds later, ds <> [] /\
       snd (snd (runProcess p (mkStream (empties ++ c :: rest)
                                        streamError finish)))
       = mkEmission (chunk_text c) false false ds :: later).
Proof.
  intros Hon Htext Htime p.
  assert (Hsend : shouldSendPartialUpdate
                    (setBuffer (buffer p +:+ chunk_text c) p)
                    (chunk_now c) = true).
  { apply shouldSend_first.
    - cbn. destruct (sendPartialUpdates options) as [[]|]; done.
    - exact Htext.
    - cbn. lia. }
  assert (Hlog : forall log0 : list Emission, exists ds later, ds <> [] /\
     snd (snd (process (mkStream (c :: rest) streamError finish) (p, log0)))
     = log0 ++ mkEmission (chunk_text c) false false ds :: later).
  { intros log0.
    destruct (process_log (mkStream (c :: rest) streamError finish) p log0)
      as (more & Hmore).
    destruct (first_chunk_log c rest "" p log0 Hsend)
      as (ds & later & Hds & Hfirst).
    exists ds, (later ++ more). split; [exact Hds|].
    rewrite Hmore. cbn [textStream]. rewrite Hfirst.
    by rewrite <- app_assoc. }
  split; [reflexivity|]. split; [exact Hsend|]. split.
  - exact (Hlog []).
  - intros empties Hempty Hpos. unfold runProcess.
    destruct (process_log (mkStream (empties ++ c :: rest) streamError finish)
                p []) as (more & Hmore).
    cbn [textStream] in Hmore.
    rewrite processChunks_empties in Hmore by done.
    destruct (first_chunk_log c rest "" p [] Hsend)
      as (ds & later & Hds & Hfirst).
    exists ds, (later ++ more). split; [exact Hds|].
    rewrite Hmore, Hfirst. reflexivity.
Qed.

Lemma first_fragment_emitted_witness :
  shouldSendPartialUpdate
    (setBuffer "H" (newProcessor "chat" alwaysDelivers (mkOptions None None None)))
    1700000000000 = true.
Proof.
  apply (first_fragment_emitted "chat" alwaysDelivers (mkOptions None None None)
           (mkChunk "H" 1700000000000) [] None (inr None)).
  - discriminate.
  - discriminate.
  - cbn. lia.
Defined.

End StreamFacts.

(** ** The message transformer *)
Module TransformerFacts.
Import Transformer StringFacts.

Lemma prefix_append (pre s : string) :
  String.prefix pre s = true ->
  s = (pre +:+ dropString (String.length pre) s)%string.
Proof.
  revert s. induction pre as [|c pre IH]; intros s H; [reflexivity|].
  destruct s as [|d s]; [discriminate|].
  cbn [String.prefix] in H.
  destruct (Ascii.ascii_dec c d) as [->|Hne]; [|discriminate].
  rewrite append_cons. cbn [String.length dropString]. f_equal. by apply IH.
Qed.

Lemma stripPrefix_Some (pre s t : string) :
  stripPrefix pre s = Some t -> s = (pre +:+ t)%string.
Proof.
  unfold stripPrefix.
  destruct (String.prefix pre s) eqn:H; [|discriminate].
  intros [= <-]. by apply prefix_append.
Qed.

Lemma prefix_refl_append (pre t : string) :
  String.prefix pre (pre +:+ t) = true.
Proof.
  induction pre as [|c pre IH]; [by destruct t|].
  rewrite append_cons. cbn [String.prefix].
  destruct (Ascii.ascii_dec c c); [exact IH|done].
Qed.

Lemma dropString_append (a b : string) :
  dropString (String.length a) (a +:+ b) = b.
Proof.
  induction a as [|c a IH]; [reflexivity|].
  rewrite append_cons. cbn [String.length dropString]. exact IH.
Qed.

Lemma stripPrefix_append (pre t : string) :
  stripPrefix pre (pre +:+ t) = Some t.
Proof.
  unfold stripPrefix. by rewrite prefix_refl_append, dropString_append.
Qed.

Lemma span_append (p : ascii -> bool) (s : string) :
  s = ((span p s).1 +:+ (span p s).2)%string.
Proof.
  induction s as [|c s IH]; [reflexivity|].
  cbn [span]. destruct (p c); [|reflexivity].
  destruct (span p s) as [taken rest]. cbn [fst snd] in *.
  rewrite append_cons. by f_equal.
Qed.

(** A greedy run stops exactly where the class stops. *)
Lemma span_stop (p : ascii -> bool) (a : string) (c : ascii) (b : string) :
  allChars p a = true -> p c = false ->
  span p (a +:+ String c b) = (a, String c b).
Proof.
  intros Ha Hc. induction a as [|x a IH].
  - change ("" +:+ String c b)%string with (String c b).
    cbn [span]. by rewrite Hc.
  - cbn [allChars] in Ha. apply andb_true_iff in Ha as [Hx Ha].
    rewrite append_cons. cbn [span]. rewrite Hx, (IH Ha). reflexivity.
Qed.

Lemma replaceFrom_skip_all (m : Matcher) (s : string) :
  m ""%string = None ->
  forall k, (String.length s <= k)%nat -> replaceFrom m k s = ""%string.
Proof.
  intros Hnil. induction s as [|c s IH]; intros k Hk.
  - destruct k; [|reflexivity]. cbn [replaceFrom]. by rewrite Hnil.
  - destruct k as [|k]; [cbn in Hk; lia|].
    cbn [replaceFrom]. apply IH. cbn in Hk. lia.
Qed.

(** Replacing each match by itself changes nothing. *)
Lemma replaceFrom_faithful (m : Matcher) :
  faithful m -> forall s k, replaceFrom m k s = dropString k s.
Proof.
  intros Hm. induction s as [|c s IH]; intros k.
  - destruct k; [|reflexivity]. cbn [replaceFrom dropString].
    destruct (m ""%string) as [[r n]|] eqn:Hr; [|reflexivity].
    destruct (Hm _ _ _ Hr) as (Hne & _ & rest & Heq).
    destruct r; [done|discriminate].
  - destruct k as [|k]; [|cbn [replaceFrom dropString]; apply IH].
    cbn [replaceFrom dropString].
    destruct (m (String c s)) as [[r n]|] eqn:Hr.
    + destruct (Hm _ _ _ Hr) as (Hne & -> & rest & Heq).
      destruct r as [|d r]; [done|].
      rewrite append_cons in Heq. injection Heq as <- ->.
      cbn [String.length Nat.pred]. rewrite IH, dropString_append.
      reflexivity.
    + by rewrite IH.
Qed.

Lemma replace_faithful (m : Matcher) (s : string) :
  faithful m -> replace m s = s.
Proof. intros Hm. unfold replace. by rewrite replaceFrom_faithful. Qed.

Lemma delimited_Some opening stop closing s group rest :
  delimited opening stop closing s = Some (group, rest) ->
  group <> ""%string /\
  s = (opening +:+ group +:+ closing +:+ rest)%string.
Proof.
  unfold delimited.
  destruct (stripPrefix opening s) as [s1|] eqn:H1; [|discriminate].
  pose proof (span_append (fun c => negb (isChar c stop)) s1) as Hspan.
  destruct (span _ s1) as [g s2]. cbn [fst snd] in Hspan.
  destruct g as [|x g]; [discriminate|].
  destruct (stripPrefix closing s2) as [s3|] eqn:H3; [|discriminate].
  intros [= <- <-]. split; [discriminate|].
  apply stripPrefix_Some in H1, H3. by rewrite H1, Hspan, H3.
Qed.

Lemma delimited_faithful opening stop closing :
  faithful (fun s =>
    match delimited opening stop closing s with
    | Some (g1, _) =>
        Some ((opening +:+ g1 +:+ closing)%string,
              (String.length opening + String.length g1
               + String.length closing)%nat)
    | None => None
    end).
Proof.
  intros s r n H.
  destruct (delimited opening stop closing s) as [[g rest]|] eqn:Hd;
    [|discriminate].
  injection H as <- <-.
  apply delimited_Some in Hd as [Hg ->]. split; [|split].
  - destruct opening; [|discriminate].
    destruct g; [done|discriminate].
  - rewrite !length_append. lia.
  - exists rest. by rewrite !append_assoc.
Qed.

(** The substitutions for inline code, bold and italic are the identity. *)
Lemma replace_inlineCode s : replace inlineCode s = s.
Proof. apply replace_faithful, (delimited_faithful tick "`"%char tick). Qed.

Lemma replace_bold s : replace bold s = s.
Proof. apply replace_faithful, (delimited_faithful "**" "*"%char "**"). Qed.

Lemma replace_italic s : replace italic s = s.
Proof. apply replace_faithful, (delimited_faithful "*" "*"%char "*"). Qed.

(** Only the code fence and the link substitutions can change the text. *)
Lemma convertMarkdownToLark_eq markdown :
  convertMarkdownToLark markdown = replace link (replace codeBlock markdown).
Proof.
  unfold convertMarkdownToLark.
  by rewrite replace_inlineCode, replace_bold, replace_italic.
Qed.

Lemma replaceFrom_startsAt (c : ascii) (m : Matcher) :
  startsAt c m -> forall s, without c s -> replaceFrom m 0 s = s.
Proof.
  intros Hm. induction s as [|d s IH]; intros Hs.
  - cbn [replaceFrom]. destruct (m ""%string) as [[r n]|] eqn:Hr; [|reflexivity].
    by destruct (Hm _ _ _ Hr).
  - unfold without in Hs. cbn [allChars] in Hs.
    apply andb_true_iff in Hs as [Hd Hs]. cbn [replaceFrom].
    destruct (m (String d s)) as [[r n]|] eqn:Hr.
    + destruct (Hm _ _ _ Hr) as (s' & [= -> ->]).
      unfold isChar in Hd. by rewrite bool_decide_eq_true_2 in Hd.
    + by rewrite (IH Hs).
Qed.

Lemma codeBlock_startsAt : startsAt "`"%char codeBlock.
Proof.
  intros s r n H. unfold codeBlock in H.
  destruct (stripPrefix fence s) as [s1|] eqn:H1; [|discriminate].
  apply stripPrefix_Some in H1. subst s. eexists. reflexivity.
Qed.

Lemma without_append c a b :
  without c a -> without c b -> without c (a +:+ b).
Proof.
  unfold without. intros Ha Hb. induction a as [|x a IH]; [exact Hb|].
  rewrite append_cons. cbn [allChars] in *.
  apply andb_true_iff in Ha as [Hx Ha]. by rewrite Hx, (IH Ha).
Qed.

(** The link substitution on a single link, for every text and target:
    the text and the target change places. *)
Lemma link_substitution_swaps (linkText target : string) :
  linkText <> ""%string -> target <> ""%string ->
  without "]"%char linkText -> without ")"%char target ->
  without "`"%char linkText -> without "`"%char target ->
  convertMarkdownToLark ("[" +:+ linkText +:+ "](" +:+ target +:+ ")")
  = ("[" +:+ target +:+ "](" +:+ linkText +:+ ")")%string.
Proof.
  intros Ht Hu Ht1 Hu1 Ht2 Hu2.
  rewrite convertMarkdownToLark_eq.
  assert (Hsrc : replace codeBlock
                   ("[" +:+ linkText +:+ "](" +:+ target +:+ ")")
                 = ("[" +:+ linkText +:+ "](" +:+ target +:+ ")")%string).
  { apply (replaceFrom_startsAt "`"%char); [apply codeBlock_startsAt|].
    repeat apply without_append; done. }
  rewrite Hsrc.
  assert (Hlink : link ("[" +:+ linkText +:+ "](" +:+ target +:+ ")")
                  = Some (("[" +:+ target +:+ "](" +:+ linkText +:+ ")")%string,
                          (1 + String.length linkText + 2
                           + String.length target + 1)%nat)).
  { unfold link, delimited.
    rewrite (stripPrefix_append "[").
    change ("](" +:+ target +:+ ")")%string
      with (String "]"%char ("(" +:+ target +:+ ")")).
    rewrite span_stop by done.
    destruct linkText as [|x linkText]; [done|].
    change (String "]"%char ("(" +:+ target +:+ ")"))
      with ("]" +:+ ("(" +:+ target +:+ ")"))%string.
    rewrite (stripPrefix_append "]"), (stripPrefix_append "(").
    change (target +:+ ")")%string with (target +:+ String ")"%char "")%string.
    rewrite span_stop by done.
    destruct target as [|y target]; [done|].
    change (String ")"%char "") with (")" +:+ "")%string.
    rewrite (stripPrefix_append ")"). reflexivity. }
  unfold replace.
  change ("[" +:+ linkText +:+ "](" +:+ target +:+ ")")%string
    with (String "["%char (linkText +:+ "](" +:+ target +:+ ")")) at 1.
  cbn [replaceFrom].
  change (String "["%char (linkText +:+ "](" +:+ target +:+ ")"))
    with ("[" +:+ linkText +:+ "](" +:+ target +:+ ")")%string.
  rewrite Hlink. rewrite replaceFrom_skip_all.
  - by rewrite !append_assoc, append_nil_r.
  - reflexivity.
  - rewrite !length_append. cbn. lia.
Qed.

Lemma untilFence_closing (code : string) :
  without "`"%char code -> untilFence (code +:+ fence) = Some code.
Proof.
  unfold without. induction code as [|c code IH]; intros H; [reflexivity|].
  cbn [allChars] in H. apply andb_true_iff in H as [Hc H].
  rewrite append_cons. cbn [untilFence].
  assert (Hp : String.prefix fence (String c (code +:+ fence)) = false).
  { unfold fence. cbn [String.prefix].
    destruct (Ascii.ascii_dec "`"%char c) as [<-|Hne]; [|reflexivity].
    discriminate. }
  rewrite Hp, (IH H). reflexivity.
Qed.

Lemma isWord_not_bracket (lang : string) :
  allChars isWord lang = true -> without "["%char lang.
Proof.
  unfold without. induction lang as [|c lang IH]; intros H; [reflexivity|].
  cbn [allChars] in *. apply andb_true_iff in H as [Hc H].
  rewrite (IH H), andb_true_r.
  destruct (decide (c = "["%char)) as [->|Hne]; [discriminate|].
  unfold isChar. by rewrite bool_decide_eq_false_2.
Qed.

(** The code fence substitution on a single fenced block, for every
    language tag and code: a line feed is added after the code. *)
Lemma fence_substitution_adds_line_feed (lang code : string) :
  allChars isWord lang = true ->
  without "`"%char code -> without "["%char code ->
  convertMarkdownToLark (fence +:+ lang +:+ LF +:+ code +:+ fence)
  = (fence +:+ lang +:+ LF +:+ code +:+ LF +:+ fence)%string.
Proof.
  intros Hlang Hcode Hcode'.
  rewrite convertMarkdownToLark_eq.
  assert (Hblock : codeBlock (fence +:+ lang +:+ LF +:+ code +:+ fence)
                   = Some ((fence +:+ lang +:+ LF +:+ code +:+ LF +:+ fence)%string,
                           (3 + String.length lang + 1 + String.length code + 3)%nat)).
  { unfold codeBlock. rewrite stripPrefix_append.
    change (LF +:+ code +:+ fence)%string
      with (String "010"%char (code +:+ fence)).
    rewrite span_stop by done.
    by rewrite untilFence_closing. }
  assert (Hout : replace codeBlock (fence +:+ lang +:+ LF +:+ code +:+ fence)
                 = (fence +:+ lang +:+ LF +:+ code +:+ LF +:+ fence)%string).
  { unfold replace.
    change (fence +:+ lang +:+ LF +:+ code +:+ fence)%string
      with (String "`"%char ("``" +:+ lang +:+ LF +:+ code +:+ fence)) at 1.
    cbn [replaceFrom].
    change (String "`"%char ("``" +:+ lang +:+ LF +:+ code +:+ fence))
      with (fence +:+ lang +:+ LF +:+ code +:+ fence)%string.
    rewrite Hblock, replaceFrom_skip_all.
    - by rewrite !append_assoc, append_nil_r.
    - reflexivity.
    - rewrite !length_append. cbn. lia. }
  rewrite Hout.
  apply (replaceFrom_startsAt "["%char).
  - intros s r n H. unfold link in H.
    destruct (delimited "[" "]" "]" s) as [[g1 s1]|] eqn:Hd; [|discriminate].
    apply delimited_Some in Hd as [_ ->]. eexists. reflexivity.
  - repeat apply without_append; try done.
    by apply isWord_not_bracket.
Qed.

(** C3 does not hold of the code: in the markdown format the link
    substitution writes the groups in the wrong order, so the text of a
    link becomes its target and the target its text; and the code fence
    substitution adds a line feed to the code, before the closing fence.
    The substitutions for inline code, bold and italic leave their matches
    as they are. *)
Theorem markdown_link_swapped :
  resp_text (transformMoltbotToLark docsLink format_markdown)
    = "[https://example.com](docs)"%string /\
  resp_text (transformMoltbotToLark jsBlock format_markdown)
    = ("```js" +:+ LF +:+ "let x = 1;" +:+ LF +:+ LF +:+ "```")%string /\
  resp_text (transformMoltbotToLark "a `b` **c** *d*" format_markdown)
    = "a `b` **c** *d*"%string.
Proof. repeat split; reflexivity. Qed.

(** C4, as stated, fails: the mentions of a plain-text message are
    written in front of its text, so the text does not come back. *)
Lemma round_trip_with_mentions :
  textContent hiMessage = Some "hi"%string /\
  resp_text (transformMoltbotToLark (text (transformLarkToMoltbot hiMessage))
                                    format_text)
    = "@Ada @Grace hi"%string /\
  resp_text (transformMoltbotToLark (text (transformLarkToMoltbot hiMessage))
                                    format_text)
    <> "hi"%string.
Proof. repeat split; try reflexivity. vm_compute. discriminate. Qed.

(** C4, as amended: for a plain-text message (its text content is
    present and it has no post content) that carries no mention,
    transforming to the model format and back in the text format gives
    back the text of the message. *)
Theorem plain_text_round_trip message body :
  textContent message = Some body ->
  postContent message = None ->
  mentions message = None \/ mentions message = Some [] ->
  resp_text (transformMoltbotToLark (text (transformLarkToMoltbot message))
                                    format_text)
    = body.
Proof.
  intros Htext Hpost Hmentions.
  unfold transformMoltbotToLark, transformLarkToMoltbot.
  cbn [resp_text text]. rewrite Htext, Hpost.
  assert (Hm : match mentions message with
               | Some (m :: ms) => False
               | _ => True
               end).
  { destruct Hmentions as [-> | ->]; exact I. }
  destruct (mentions message) as [[|m ms]|]; try done;
    destruct body; reflexivity.
Qed.

Lemma plain_text_round_trip_witness :
  resp_text (transformMoltbotToLark
               (text (transformLarkToMoltbot
                        (mkParsedLarkMessage "om_1" "oc_1" "ou_1" "user" TEXT
                           (Some "hi"%string) None None None None
                           1700000000000)))
               format_text)
    = "hi"%string.
Proof.
  apply plain_text_round_trip.
  - reflexivity.
  - reflexivity.
  - left. reflexivity.
Defined.

End TransformerFacts.

(** ** More on the retry executor and the error classification *)
Module RetryMore.
Import Errors Retry ErrorsSpec.

(** A call that succeeds after retryable failures only, within
    [maxAttempts], ends the run. *)
Lemma retry_returned_intro {T} (fn : Operation T) config k v :
  let cfg := finalConfig config in
  (k < Z.to_nat (final_maxAttempts cfg))%nat ->
  retryableFailures fn cfg k -> fn k = inr v ->
  outcome (retry fn config) = Returned v /\
  invocations (retry fn config) = S k.
Proof.
  intros cfg Hk Hprev Hv.
  pose proof (RetryFacts.retry_spec fn config) as Hspec.
  unfold runSpec in Hspec. fold cfg in Hspec. cbv zeta in Hspec.
  set (r := retry fn config) in *.
  set (i := Nat.pred (invocations r)) in *.
  assert (Hlt : retryableFailures fn cfg i -> (k < i)%nat -> False).
  { intros Hi Hki. destruct (Hi k Hki) as (e & He & _). congruence. }
  assert (Hgt : forall e, fn i = inl e -> (i < k)%nat \/ i = k ->
                final_retryableErrors cfg e = true /\ i <> k).
  { intros e He [Hik| ->]; [|congruence].
    destruct (Hprev i Hik) as (e' & He' & Hr'). split; [congruence|lia]. }
  destruct (outcome r) as [v'|[e|msg a e|]].
  - destruct Hspec as (Hi & Hv' & Hp).
    destruct (lt_eq_lt_dec i k) as [[Hik|Heq]|Hki].
    + destruct (Hprev i Hik) as (e & He & _). congruence.
    + rewrite Heq in Hv'. split; [congruence|]. subst i. lia.
    + exfalso. by apply Hlt.
  - destruct Hspec as (Hi & He & Hr & Hp). exfalso.
    destruct (lt_eq_lt_dec i k) as [[Hik|Heq]|Hki].
    + destruct (Hgt e He (or_introl Hik)). congruence.
    + rewrite Heq in He. congruence.
    + by apply Hlt.
  - destruct Hspec as (_ & _ & _ & Hinv & He & Hp). exfalso.
    destruct (lt_eq_lt_dec i k) as [[Hik|Heq]|Hki].
    + subst i. lia.
    + rewrite Heq in He. congruence.
    + by apply Hlt.
  - lia.
Qed.

(** X1: [retry] returns the value of a call of the operation exactly when
    that call is within [maxAttempts] and every call before it failed with a
    retryable error; the operation is not called again after it. *)
Theorem retry_first_success {T} (fn : Operation T) config :
  let cfg := finalConfig config in
  let r := retry fn config in
  (forall v,
     outcome r = Returned v <->
     exists k, (k < Z.to_nat (final_maxAttempts cfg))%nat /\
               retryableFailures fn cfg k /\ fn k = inr v) /\
  (forall k v,
     (k < Z.to_nat (final_maxAttempts cfg))%nat ->
     retryableFailures fn cfg k -> fn k = inr v ->
     outcome r = Returned v /\ invocations r = S k).
Proof.
  intros cfg r. split; [|intros k v; apply retry_returned_intro].
  intros v. split.
  - intros Hout.
    pose proof (RetryFacts.retry_spec fn config) as Hspec.
    unfold runSpec in Hspec. fold cfg in Hspec. fold r in Hspec.
    cbv zeta in Hspec. rewrite Hout in Hspec. destruct Hspec as (Hi & Hv & Hp).
    exists (Nat.pred (invocations r)). split; [lia|]. split; [exact Hp|exact Hv].
  - intros (k & Hk & Hp & Hv).
    by destruct (retry_returned_intro fn config k v Hk Hp Hv).
Qed.

Lemma retry_first_success_witness :
  outcome (retry (fun k => if (k <? 1)%nat
                           then inl (PlainError "network down")
                           else inr 7) emptyConfig) = Returned 7 /\
  invocations (retry (fun k => if (k <? 1)%nat
                               then inl (PlainError "network down")
                               else inr 7) emptyConfig) = 2%nat.
Proof.
  apply (proj2 (retry_first_success
                  (fun k => if (k <? 1)%nat
                            then inl (PlainError "network down")
                            else inr 7) emptyConfig) 1%nat 7).
  - vm_compute. lia.
  - intros k Hk. exists (PlainError "network down").
    destruct k as [|k]; [split; reflexivity|lia].
  - reflexivity.
Defined.

(** X2: [retry] throws [undefined] exactly when it has not called the
    operation at all (the [throw lastError] after a loop whose body never
    ran); a [maxAttempts] below one is enough for that. *)
Theorem retry_without_attempts {T} (fn : Operation T) config :
  let cfg := finalConfig config in
  let r := retry fn config in
  (invocations r = 0%nat <-> outcome r = Threw ThrowUndefined) /\
  (final_maxAttempts cfg < 1 ->
   invocations r = 0%nat /\ outcome r = Threw ThrowUndefined).
Proof.
  intros cfg r.
  pose proof (RetryFacts.retry_spec fn config) as Hspec.
  unfold runSpec in Hspec. fold cfg in Hspec. fold r in Hspec.
  cbv zeta in Hspec.
  split; [split|].
  - intros Hinv. destruct (outcome r) as [v|[e|msg a e|]]; [lia|lia|lia|done].
  - intros Hout. rewrite Hout in Hspec. by destruct Hspec.
  - intros Hlt. unfold r, retry, attemptRange. fold cfg.
    replace (Z.to_nat (final_maxAttempts cfg)) with 0%nat by lia.
    by split.
Qed.

Lemma retry_without_attempts_witness :
  invocations (retry alwaysTimeout (mkRetryConfig (Some 0) None None None None))
  = 0%nat /\
  outcome (retry alwaysTimeout (mkRetryConfig (Some 0) None None None None))
  = Threw ThrowUndefined.
Proof.
  apply (proj2 (retry_without_attempts alwaysTimeout
                  (mkRetryConfig (Some 0) None None None None))).
  cbn. lia.
Defined.

Lemma lower_ascii_not_upper (c : ascii) : isUpper (lower_ascii c) = false.
Proof. destruct c as [[] [] [] [] [] [] [] []]; reflexivity. Qed.

Lemma test_upper_pattern (c : ascii) (pattern message : string) :
  isUpper c = true ->
  test (String c pattern) (toLowerCase message) = false.
Proof.
  intros Hc. induction message as [|x message IH]; [reflexivity|].
  cbn [toLowerCase test String.prefix].
  destruct (Ascii.ascii_dec c (lower_ascii x)) as [->|Hne].
  - by rewrite lower_ascii_not_upper in Hc.
  - exact IH.
Qed.

(** X3: for an error that is not an AppError, [isTransientError] holds
    exactly when the lower-cased message contains "timeout", "network" or
    "temporary"; the five upper-case patterns are tested against the
    lower-cased message and never match. *)
Theorem transient_patterns_effective (message : string) :
  isTransientError (PlainError message)
  = test "timeout" (toLowerCase message)
    || test "network" (toLowerCase message)
    || test "temporary" (toLowerCase message).
Proof.
  unfold isTransientError, transientPatterns. cbn [existsb].
  rewrite !test_upper_pattern by reflexivity.
  cbn [orb]. by rewrite orb_false_r, orb_assoc.
Qed.

End RetryMore.

(** ** More on the conversation context manager *)
Module ContextMore.
Import Context ContextSpec.

Lemma step_maxAge mgr call : maxAge (step mgr call) = maxAge mgr.
Proof.
  destruct call as [id message now|id now|id|now]; cbn [step]; try done.
  - unfold getContext. destruct (conversations mgr !! id); [|done].
    by destruct (_ >? _).
  - unfold clearContext. by destruct (conversations mgr !! id).
Qed.

Lemma step_lookup_ne mgr call id id' :
  callTarget call = Some id -> id' <> id ->
  conversations (step mgr call) !! id' = conversations mgr !! id'.
Proof.
  intros Ht Hne.
  destruct call as [i message now|i now|i|now]; cbn in Ht; try discriminate;
    injection Ht as ->; cbn [step].
  - by apply ContextFacts.addMessage_lookup_ne.
  - unfold getContext. destruct (conversations mgr !! id); [|done].
    destruct (_ >? _); [|done]. cbn. by rewrite lookup_delete_ne.
  - unfold clearContext. destruct (conversations mgr !! id); [|done].
    cbn. by rewrite lookup_delete_ne.
Qed.

(** X4: a call of [addMessage], [getContext] or [clearContext] for one
    conversation leaves every other conversation as it is: its stored
    context is unchanged and a read of it returns what it returned before. *)
Theorem other_conversations_untouched mgr call id id' :
  callTarget call = Some id -> id' <> id ->
  conversations (step mgr call) !! id' = conversations mgr !! id' /\
  forall now, fst (getContext id' now (step mgr call))
              = fst (getContext id' now mgr).
Proof.
  intros Ht Hne.
  pose proof (step_lookup_ne mgr call id id' Ht Hne) as Hl.
  split; [exact Hl|]. intros now. unfold getContext.
  rewrite Hl, step_maxAge.
  destruct (conversations mgr !! id') as [c|]; [|done].
  by destruct (_ >? _).
Qed.

Lemma other_conversations_untouched_witness :
  fst (getContext "b" 5
         (step (addMessage "b" msgB 2 (addMessage "a" msgA 1 smallManager))
               (CallClearContext "a")))
  = [msgB].
Proof.
  rewrite (proj2 (other_conversations_untouched
                    (addMessage "b" msgB 2 (addMessage "a" msgA 1 smallManager))
                    (CallClearContext "a") "a" "b" eq_refl
                    ltac:(discriminate)) 5).
  reflexivity.
Defined.

(** X5: [clearContext] removes the conversation and nothing else; a second
    call changes nothing; a read of the cleared conversation returns the
    empty list without touching the manager; and the next [addMessage]
    starts a new context whose history is the new message alone and whose
    counter is 1 (for a history bound of at least one). *)
Theorem clearContext_contract id mgr :
  let mgr' := clearContext id mgr in
  conversations mgr' !! id = None /\
  hasConversation id mgr' = false /\
  (forall id', id' <> id ->
     conversations mgr' !! id' = conversations mgr !! id') /\
  clearContext id mgr' = mgr' /\
  (forall now, getContext id now mgr' = ([], mgr')) /\
  (forall message now, 1 <= maxHistoryLength mgr ->
     conversations (addMessage id message now mgr') !! id
     = Some (mkContext id [message] now 1)).
Proof.
  intros mgr'.
  assert (Hnone : conversations mgr' !! id = None).
  { unfold mgr', clearContext.
    destruct (conversations mgr !! id) eqn:Hid; [|exact Hid].
    cbn. apply lookup_delete_eq. }
  assert (Hmax : maxHistoryLength mgr' = maxHistoryLength mgr).
  { unfold mgr', clearContext. by destruct (conversations mgr !! id). }
  split; [exact Hnone|]. split; [|split; [|split; [|split]]].
  - unfold hasConversation. rewrite Hnone. apply bool_decide_eq_false_2.
    by intros [x Hx].
  - intros id' Hne. unfold mgr', clearContext.
    destruct (conversations mgr !! id); [|done].
    cbn. by rewrite lookup_delete_ne.
  - unfold clearContext at 1. by rewrite Hnone.
  - intros now. unfold getContext. by rewrite Hnone.
  - intros message now Hpos. rewrite ContextFacts.addMessage_lookup.
    unfold stored. rewrite Hnone, Hmax. cbn [app length].
    destruct (Z.gtb_spec (Z.of_nat 1) (maxHistoryLength mgr)); [lia|done].
Qed.

Lemma size_filter_split (now age : Z) (m : gmap string ConversationContext) :
  (size (filter (expired now age) m)
   + size (filter (fun entry => ~ expired now age entry) m))%nat = size m.
Proof.
  rewrite <- map_size_disj_union by apply map_disjoint_filter_complement.
  by rewrite map_filter_union_complement.
Qed.

(** What the sweep keeps. *)
Lemma cleanup_keeps now mgr id c :
  conversations (snd (cleanupExpiredConversations now mgr)) !! id = Some c <->
  conversations mgr !! id = Some c /\ now - lastActivity c <= maxAge mgr.
Proof.
  unfold cleanupExpiredConversations. cbn [snd conversations].
  rewrite map_lookup_filter_Some. unfold expired. cbn [snd].
  split; intros [H1 H2]; (split; [exact H1|lia]).
Qed.

(** X6: [cleanupExpiredConversations] keeps exactly the contexts with
    [now - lastActivity <= maxAge], unchanged; the number it returns is the
    number of contexts it removed; and a second sweep at the same time
    removes nothing. *)
Theorem cleanup_contract now mgr :
  let removed := fst (cleanupExpiredConversations now mgr) in
  let mgr' := snd (cleanupExpiredConversations now mgr) in
  (forall id c,
     conversations mgr' !! id = Some c <->
     conversations mgr !! id = Some c /\ now - lastActivity c <= maxAge mgr) /\
  removed + Z.of_nat (size (conversations mgr'))
    = Z.of_nat (size (conversations mgr)) /\
  cleanupExpiredConversations now mgr' = (0, mgr').
Proof.
  intros removed mgr'. unfold removed, mgr', cleanupExpiredConversations.
  cbn [fst snd conversations maxAge].
  assert (Hkeep : forall id c,
     filter (fun entry => ~ expired now (maxAge mgr) entry) (conversations mgr)
       !! id = Some c <->
     conversations mgr !! id = Some c /\ now - lastActivity c <= maxAge mgr).
  { intros id c. rewrite map_lookup_filter_Some. unfold expired. cbn [snd].
    split; intros [H1 H2]; (split; [exact H1|lia]). }
  split; [exact Hkeep|]. split.
  - pose proof (size_filter_split now (maxAge mgr) (conversations mgr)). lia.
  - f_equal.
    + assert (Hempty : filter (expired now (maxAge mgr))
                 (filter (fun entry => ~ expired now (maxAge mgr) entry)
                         (conversations mgr)) = ∅).
      { apply map_eq. intros id. rewrite lookup_empty.
        apply map_lookup_filter_None. right. intros c Hc.
        apply map_lookup_filter_Some in Hc as [_ Hc]. exact Hc. }
      rewrite Hempty. reflexivity.
    + f_equal. apply map_filter_id. intros id c Hc.
      apply map_lookup_filter_Some in Hc as [_ Hc]. exact Hc.
Qed.

(** X7: the sweep and the lazy eviction of [getContext] agree: after a
    sweep at time [now], a read at that time returns what it would have
    returned before the sweep and evicts nothing. *)
Theorem cleanup_agrees_with_getContext id now mgr :
  let mgr' := snd (cleanupExpiredConversations now mgr) in
  getContext id now mgr' = (fst (getContext id now mgr), mgr').
Proof.
  intros mgr'.
  pose proof (cleanup_keeps now mgr) as Hkeep. fold mgr' in Hkeep.
  assert (Hage : maxAge mgr' = maxAge mgr) by reflexivity.
  unfold getContext. rewrite Hage.
  destruct (conversations mgr' !! id) as [c'|] eqn:Hc'.
  - apply Hkeep in Hc' as [Hc Hfresh]. rewrite Hc.
    destruct (Z.gtb_spec (now - lastActivity c') (maxAge mgr)); [lia|done].
  - destruct (conversations mgr !! id) as [c|] eqn:Hc; [|done].
    destruct (Z.gtb_spec (now - lastActivity c) (maxAge mgr)) as [Hexp|Hfresh];
      [done|].
    assert (Hin : conversations mgr' !! id = Some c) by (apply Hkeep; done).
    congruence.
Qed.

Lemma addMessage_wellFormed id message now mgr :
  wellFormed mgr -> wellFormed (addMessage id message now mgr).
Proof.
  intros Hw id' c Hc.
  destruct (decide (id = id')) as [<-|Hne].
  - rewrite ContextFacts.addMessage_lookup in Hc. injection Hc as <-.
    cbn [chatId messageCount messages]. unfold stored.
    assert (Hlen : forall pushed : list MoltbotMessage,
      (length (if Z.of_nat (length pushed) >? maxHistoryLength mgr
               then splice0 (Z.of_nat (length pushed) - maxHistoryLength mgr)
                            pushed
               else pushed) <= length pushed)%nat).
    { intros pushed. destruct (_ >? _); [|lia].
      unfold splice0. rewrite length_drop. lia. }
    cbv zeta.
    destruct (conversations mgr !! id) as [c0|] eqn:Hid.
    + destruct (Hw id c0 Hid) as (Hk & H1 & Hn).
      split; [exact Hk|]. split; [lia|].
      set (pushed := messages c0 ++ [message]).
      pose proof (Hlen pushed) as Hl.
      assert (Hp : length pushed = S (length (messages c0))).
      { unfold pushed. rewrite length_app. cbn. lia. }
      lia.
    + split; [reflexivity|]. split; [lia|].
      set (pushed := [] ++ [message]).
      pose proof (Hlen pushed) as Hl.
      assert (Hp : length pushed = 1%nat) by reflexivity.
      lia.
  - rewrite ContextFacts.addMessage_lookup_ne in Hc by done. by apply Hw.
Qed.

Lemma step_wellFormed mgr call : wellFormed mgr -> wellFormed (step mgr call).
Proof.
  intros Hw. destruct call as [id message now|id now|id|now]; cbn [step].
  - by apply addMessage_wellFormed.
  - unfold getContext. destruct (conversations mgr !! id) as [c0|]; [|done].
    destruct (_ >? _); [|done]. intros id' c Hc. cbn in Hc.
    apply lookup_delete_Some in Hc as [_ Hc]. by apply Hw.
  - unfold clearContext. destruct (conversations mgr !! id) as [c0|]; [|done].
    intros id' c Hc. cbn in Hc.
    apply lookup_delete_Some in Hc as [_ Hc]. by apply Hw.
  - intros id' c Hc. cbn in Hc.
    apply map_lookup_filter_Some in Hc as [Hc _]. by apply Hw.
Qed.

(** X8: in every state reached from a new manager by any calls, each
    stored context carries the key it is stored under, has [messageCount]
    at least 1, and stores no more messages than it has counted. *)
Theorem reachable_wellFormed maxLen hours calls :
  wellFormed (run (newManager maxLen hours) calls).
Proof.
  assert (Hgen : forall mgr, wellFormed mgr -> wellFormed (run mgr calls)).
  { induction calls as [|call calls IH]; intros mgr Hw; [exact Hw|].
    cbn. apply IH. by apply step_wellFormed. }
  apply Hgen. intros id c Hc. cbn in Hc. by rewrite lookup_empty in Hc.
Qed.

(** X9: [messageCount] counts every append, trimmed or not: after a
    sequence of appends to a conversation its counter has grown by the
    number of appends, whatever the history bound. *)
Theorem messageCount_counts_appends id appends mgr :
  counted id (appendAll id appends mgr)
  = counted id mgr + Z.of_nat (length appends).
Proof.
  revert mgr. induction appends as [|a appends IH]; intros mgr.
  - cbn. lia.
  - change (appendAll id (a :: appends) mgr)
      with (appendAll id appends (addMessage id a.1 a.2 mgr)).
    rewrite IH. unfold counted at 1.
    rewrite ContextFacts.addMessage_lookup. cbn [messageCount length].
    unfold counted. destruct (conversations mgr !! id); lia.
Qed.

End ContextMore.

(** ** More on the stream processor *)
Module StreamMore.
Import Errors Retry Stream StreamSpec StringFacts StreamFacts.

Lemma sameConfig_refl p : sameConfig p p.
Proof. by repeat split. Qed.

Lemma sameConfig_trans p1 p2 p3 :
  sameConfig p1 p2 -> sameConfig p2 p3 -> sameConfig p1 p3.
Proof.
  intros (A1 & A2 & A3 & A4 & A5) (B1 & B2 & B3 & B4 & B5).
  repeat split; congruence.
Qed.

Lemma snapshot_cons p c rest n text :
  buffer p = text ->
  snapshot (setBuffer (text +:+ chunk_text c) p) rest n
  = snapshot p (c :: rest) (S n).
Proof.
  intros <-. unfold snapshot. cbn [buffer setBuffer take fullText].
  apply append_assoc.
Qed.

Lemma snapshot_first p c rest :
  snapshot p (c :: rest) 1 = (buffer p +:+ chunk_text c)%string.
Proof.
  unfold snapshot. cbn [take fullText]. by rewrite append_nil_r.
Qed.

Lemma last_cons_fmap {A} (x : A) (f : A -> A) (l : list A) (y : A) :
  last l = Some y -> last (x :: (f <$> l)) = Some (f y).
Proof. intros H. by rewrite last_cons, fmap_last, H. Qed.

(** The loop, in full: what it returns, what it leaves in the processor,
    and the emissions it makes.  Each emission carries the buffer as it
    is after some chunk, the chunks concerned are taken in order and at
    most once, and a rejected emission is the last thing the loop does. *)
Lemma processChunks_trace chunks : forall full p log,
  exists res p' ems ns,
    processChunks chunks full (p, log) = (res, (p', log ++ ems)) /\
    sameConfig p p' /\ isComplete p' = isComplete p /\
    ns `sublist_of` seq 1 (length chunks) /\
    em_content <$> ems = snapshot p chunks <$> ns /\
    Forall (fun em => em_isFinal em = false /\
                      (1 <= length (em_deliveries em) <= 3)%nat) ems /\
    match res with
    | Ok text =>
        text = (full +:+ fullText chunks)%string /\
        buffer p' = (buffer p +:+ fullText chunks)%string /\
        Forall delivered ems
    | Fail _ =>
        exists ems0 final n,
          ems = ems0 ++ [final] /\ Forall delivered ems0 /\
          rejected final /\ last ns = Some n /\
          buffer p' = snapshot p chunks n
    end.
Proof.
  induction chunks as [|c rest IH]; intros full p log.
  - exists (Ok full), p, [], []. cbn [processChunks fullText]. unfold ret.
    rewrite app_nil_r, !append_nil_r.
    split; [reflexivity|]. split; [apply sameConfig_refl|].
    split; [reflexivity|]. split; [constructor|]. split; [reflexivity|].
    split; [constructor|]. split; [reflexivity|]. split; [reflexivity|].
    constructor.
  - rewrite processChunks_cons. cbv zeta.
    set (p1 := setBuffer (buffer p +:+ chunk_text c) p).
    assert (Hseq : seq 1 (length (c :: rest)) = 1%nat :: (S <$> seq 1 (length rest))).
    { cbn [length seq]. by rewrite fmap_S_seq. }
    assert (Hsnap : forall n, snapshot p1 rest n = snapshot p (c :: rest) (S n)).
    { intros n. by apply snapshot_cons. }
    destruct (shouldSendPartialUpdate p1 (chunk_now c)).
    + destruct (sendPartialUpdate_cases (buffer p1) false p1 log)
        as (ds & Hds & [[Heq Hdel]|(t & Heq & Hrej)]); rewrite Heq.
      * set (em := mkEmission (buffer p1) false (isComplete p1) ds) in *.
        destruct (IH (full +:+ chunk_text c)%string
                     (setLastUpdateTime (chunk_now c) p1) (log ++ [em]))
          as (res & p' & ems & ns & Hrun & Hcfg & Hc & Hsub & Hcont & Hall & Hres).
        exists res, p', (em :: ems), (1%nat :: (S <$> ns)).
        rewrite Hrun, <- app_assoc. split; [reflexivity|].
        split; [exact Hcfg|]. split; [exact Hc|]. split.
        { rewrite Hseq. apply sublist_skip. by apply fmap_sublist. }
        split.
        { cbn [fmap list_fmap]. f_equal.
          - by rewrite snapshot_first.
          - change (list_fmap _ _ em_content ems) with (em_content <$> ems).
            rewrite Hcont, <- list_fmap_compose.
            apply list_fmap_ext. intros _ n _. apply Hsnap. }
        split; [constructor; [done|exact Hall]|].
        destruct res as [text|t].
        -- destruct Hres as (-> & Hb & Hd). split; [|split].
           ++ cbn [fullText]. by rewrite append_assoc.
           ++ rewrite Hb. cbn [buffer setLastUpdateTime p1 setBuffer fullText].
              by rewrite append_assoc.
           ++ constructor; [exact Hdel|exact Hd].
        -- destruct Hres as (ems0 & final & n & -> & Hd & Hrj & Hlast & Hb).
           exists (em :: ems0), final, (S n).
           split; [reflexivity|]. split; [constructor; [exact Hdel|exact Hd]|].
           split; [exact Hrj|]. split; [by apply last_cons_fmap|].
           rewrite Hb. apply Hsnap.
      * set (em := mkEmission (buffer p1) false (isComplete p1) ds) in *.
        exists (Fail t), p1, [em], [1%nat].
        split; [reflexivity|]. split; [by repeat split|].
        split; [reflexivity|]. split.
        { rewrite Hseq. apply sublist_skip, sublist_nil_l. }
        split; [cbn; by rewrite snapshot_first|].
        split; [constructor; [done|constructor]|].
        exists [], em, 1%nat. split; [reflexivity|]. split; [constructor|].
        split; [exact Hrej|]. split; [reflexivity|].
        by rewrite snapshot_first.
    + destruct (IH (full +:+ chunk_text c)%string p1 log)
        as (res & p' & ems & ns & Hrun & Hcfg & Hc & Hsub & Hcont & Hall & Hres).
      exists res, p', ems, (S <$> ns). rewrite Hrun.
      split; [reflexivity|]. split; [exact Hcfg|]. split; [exact Hc|]. split.
      { rewrite Hseq. apply sublist_cons. by apply fmap_sublist. }
      split.
      { rewrite Hcont, <- list_fmap_compose.
        apply list_fmap_ext. intros _ n _. apply Hsnap. }
      split; [exact Hall|].
      destruct res as [text|t].
      * destruct Hres as (-> & Hb & Hd). split; [|split; [|exact Hd]].
        -- cbn [fullText]. by rewrite append_assoc.
        -- rewrite Hb. cbn [buffer p1 setBuffer fullText].
           by rewrite append_assoc.
      * destruct Hres as (ems0 & final & n & -> & Hd & Hrj & Hlast & Hb).
        exists ems0, final, (S n).
        split; [reflexivity|]. split; [exact Hd|]. split; [exact Hrj|].
        split; [by rewrite fmap_last, Hlast|].
        rewrite Hb. apply Hsnap.
Qed.

(** [process], in full. *)
Lemma process_trace stream p log :
  exists res p' partials finals ns,
    process stream (p, log) = (res, (p', log ++ partials ++ finals)) /\
    sameConfig p p' /\
    ns `sublist_of` seq 1 (length (textStream stream)) /\
    em_content <$> partials = snapshot p (textStream stream) <$> ns /\
    Forall (fun em => em_isFinal em = false /\
                      (1 <= length (em_deliveries em) <= 3)%nat) partials /\
    ((finals = [] /\ isComplete p' = isComplete p /\
      ((exists e, textStreamError stream = Some e /\
                  res = Fail (ThrowOriginal e) /\ Forall delivered partials) \/
       (exists t ems0 final n,
          res = Fail t /\ partials = ems0 ++ [final] /\
          Forall delivered ems0 /\ rejected final /\ last ns = Some n /\
          buffer p' = snapshot p (textStream stream) n)))
     \/
     (exists ds,
        finals = [mkEmission (fullText (textStream stream)) true true ds] /\
        (1 <= length ds <= 3)%nat /\ isComplete p' = true /\
        textStreamError stream = None /\ Forall delivered partials)).
Proof.
  rewrite process_unfold.
  destruct (processChunks_trace (textStream stream) "" p log)
    as (res1 & p1 & ems & ns & Hrun & Hcfg & Hc & Hsub & Hcont & Hall & Hres).
  rewrite Hrun. destruct res1 as [full|t].
  - destruct Hres as (Hfull & Hbuf & Hdel).
    change ("" +:+ fullText (textStream stream))%string
      with (fullText (textStream stream)) in Hfull. subst full.
    destruct (textStreamError stream) as [e|] eqn:Herr.
    + exists (Fail (ThrowOriginal e)), p1, ems, [], ns.
      rewrite app_nil_r. do 5 (split; [done|]). left.
      split; [done|]. split; [done|]. left. eauto.
    + destruct (sendPartialUpdate_cases (fullText (textStream stream)) true
                  (setIsComplete true p1) (log ++ ems))
        as (ds & Hds & [[Heq _]|(t & Heq & _)]); rewrite Heq.
      * destruct (finishReason stream) as [e|reason].
        -- eexists _, (setBuffer "" (setIsComplete true p1)), ems, [_], ns.
           rewrite <- app_assoc. split; [reflexivity|].
           split; [exact Hcfg|]. do 3 (split; [done|]). right.
           exists ds. done.
        -- eexists _, (setBuffer "" (setIsComplete true p1)), ems, [_], ns.
           rewrite <- app_assoc. split; [reflexivity|].
           split; [exact Hcfg|]. do 3 (split; [done|]). right.
           exists ds. done.
      * eexists _, (setIsComplete true p1), ems, [_], ns.
        rewrite <- app_assoc. split; [reflexivity|].
        split; [exact Hcfg|]. do 3 (split; [done|]). right.
        exists ds. done.
  - destruct Hres as (ems0 & final & n & Hems & Hd & Hrj & Hlast & Hb).
    exists (Fail t), p1, ems, [], ns.
    rewrite app_nil_r. do 5 (split; [done|]). left.
    split; [done|]. split; [done|]. right.
    exists t, ems0, final, n. done.
Qed.

Lemma setBuffer_buffer p : setBuffer (buffer p) p = p.
Proof. by destruct p. Qed.

(** With partial updates switched off the loop only accumulates. *)
Lemma processChunks_silent chunks : forall full p log,
  opt_sendPartialUpdates p = false ->
  processChunks chunks full (p, log)
  = (Ok (full +:+ fullText chunks)%string,
     (setBuffer (buffer p +:+ fullText chunks) p, log)).
Proof.
  induction chunks as [|c rest IH]; intros full p log Hoff.
  - cbn [processChunks fullText]. unfold ret.
    by rewrite !append_nil_r, setBuffer_buffer.
  - rewrite processChunks_cons. cbv zeta.
    assert (Hno : shouldSendPartialUpdate
                    (setBuffer (buffer p +:+ chunk_text c) p) (chunk_now c)
                  = false).
    { unfold shouldSendPartialUpdate. cbn [opt_sendPartialUpdates setBuffer].
      by rewrite Hoff. }
    rewrite Hno, IH by exact Hoff.
    cbn [buffer setBuffer fullText chatId onPartialUpdate opt_chunkThreshold
         opt_timeThreshold opt_sendPartialUpdates lastUpdateTime isComplete].
    by rewrite !append_assoc.
Qed.

(** X10: with [sendPartialUpdates] switched off, [process] makes exactly
    one emission, the final one with the whole text, whatever the chunks
    and the clock are, and none at all when the fragment source fails;
    [lastUpdateTime] is never written. *)
Theorem partials_disabled_single_emission stream p log :
  opt_sendPartialUpdates p = false ->
  exists res p' ems,
    process stream (p, log) = (res, (p', log ++ ems)) /\
    lastUpdateTime p' = lastUpdateTime p /\
    match textStreamError stream with
    | Some e => ems = [] /\ res = Fail (ThrowOriginal e)
    | None =>
        exists ds,
          ems = [mkEmission (fullText (textStream stream)) true true ds] /\
          (1 <= length ds <= 3)%nat
    end.
Proof.
  intros Hoff. rewrite process_unfold, processChunks_silent by exact Hoff.
  change ("" +:+ fullText (textStream stream))%string
    with (fullText (textStream stream)).
  set (p1 := setBuffer (buffer p +:+ fullText (textStream stream)) p).
  destruct (textStreamError stream) as [e|].
  - exists (Fail (ThrowOriginal e)), p1, []. by rewrite app_nil_r.
  - destruct (sendPartialUpdate_cases (fullText (textStream stream)) true
                (setIsComplete true p1) log)
      as (ds & Hds & [[Heq _]|(t & Heq & _)]); rewrite Heq.
    + destruct (finishReason stream);
        eexists _, _, [_]; (split; [reflexivity|]); (split; [reflexivity|]);
        exists ds; done.
    + eexists _, _, [_]. split; [reflexivity|]. split; [reflexivity|].
      exists ds. done.
Qed.

Lemma partials_disabled_single_emission_witness :
  exists res p' ems,
    process helloStream
      (newProcessor "chat" alwaysDelivers (mkOptions None None (Some false)), [])
    = (res, (p', [] ++ ems)) /\
    lastUpdateTime p' = 0 /\
    exists ds, ems = [mkEmission "Hello" true true ds] /\
               (1 <= length ds <= 3)%nat.
Proof.
  exact (partials_disabled_single_emission helloStream
           (newProcessor "chat" alwaysDelivers
                         (mkOptions None None (Some false))) [] eq_refl).
Defined.

(** X11: partial emissions are cumulative snapshots.  The content of each
    partial emission is the buffer the processor started with followed by
    all chunks received so far; the chunks after which an emission is made
    are taken in arrival order, each at most once, so there are at most as
    many partial emissions as chunks; and at most one final emission
    follows them. *)
Theorem partial_emissions_are_snapshots stream p log :
  exists res p' partials finals ns,
    process stream (p, log) = (res, (p', log ++ partials ++ finals)) /\
    ns `sublist_of` seq 1 (length (textStream stream)) /\
    em_content <$> partials = snapshot p (textStream stream) <$> ns /\
    Forall (fun em => em_isFinal em = false) partials /\
    Forall (fun em => em_isFinal em = true /\
                      em_content em = fullText (textStream stream)) finals /\
    (length partials <= length (textStream stream))%nat /\
    (length finals <= 1)%nat.
Proof.
  destruct (process_trace stream p log)
    as (res & p' & partials & finals & ns & Hrun & _ & Hsub & Hcont & Hall & Hfin).
  exists res, p', partials, finals, ns.
  do 3 (split; [done|]). split.
  { eapply Forall_impl; [exact Hall|]. by intros em [H _]. }
  assert (Hlen : (length partials <= length (textStream stream))%nat).
  { apply sublist_length in Hsub. rewrite length_seq in Hsub.
    apply (f_equal length) in Hcont. rewrite !length_fmap in Hcont. lia. }
  destruct Hfin as [(-> & _)|(ds & -> & _)].
  - split; [constructor|]. split; [exact Hlen|]. cbn. lia.
  - split; [by repeat constructor|]. split; [exact Hlen|]. cbn. lia.
Qed.

Lemma callbackCalls_app (log1 log2 : list Emission) :
  callbackCalls (log1 ++ log2) = (callbackCalls log1 + callbackCalls log2)%nat.
Proof. unfold callbackCalls. by rewrite map_app, list_sum_app. Qed.

Lemma callbackCalls_bound (ems : list Emission) :
  Forall (fun em => (length (em_deliveries em) <= 3)%nat) ems ->
  (callbackCalls ems <= 3 * length ems)%nat.
Proof.
  unfold callbackCalls. induction 1 as [|em ems Hem _ IH]; [cbn; lia|].
  cbn [map length]. unfold list_sum in *. cbn [fold_right].
  cbn beta in Hem. lia.
Qed.

(** X12: [process] calls the delivery callback at least once when the
    fragment source ends normally, and in every case at most three times
    per emission, hence at most [3 * (number of chunks + 1)] times. *)
Theorem callback_calls_bounded stream p log :
  let log' := snd (snd (process stream (p, log))) in
  (callbackCalls log'
   <= callbackCalls log + 3 * (length (textStream stream) + 1))%nat /\
  (forall text, fst (process stream (p, log)) = Ok text ->
     (callbackCalls log < callbackCalls log')%nat).
Proof.
  destruct (process_trace stream p log)
    as (res & p' & partials & finals & ns & Hrun & _ & Hsub & Hcont & Hall & Hfin).
  rewrite Hrun. cbn [fst snd].
  rewrite !callbackCalls_app.
  assert (Hlen : (length partials <= length (textStream stream))%nat).
  { apply sublist_length in Hsub. rewrite length_seq in Hsub.
    apply (f_equal length) in Hcont. rewrite !length_fmap in Hcont. lia. }
  assert (Hp : (callbackCalls partials <= 3 * length partials)%nat).
  { apply callbackCalls_bound. eapply Forall_impl; [exact Hall|].
    intros em [_ H]. cbn in H. lia. }
  destruct Hfin as [(-> & _ & Hfail)|(ds & -> & Hds & _)].
  - split; [cbn; lia|]. intros text Hok.
    destruct Hfail as [(e & _ & -> & _)|(t & ? & ? & ? & -> & _)]; discriminate.
  - assert (Hf : callbackCalls
                   [mkEmission (fullText (textStream stream)) true true ds]
                 = length ds).
    { unfold callbackCalls, list_sum. cbn [map fold_right em_deliveries]. lia. }
    rewrite Hf. split; [lia|]. intros _ _. lia.
Qed.

Lemma delivered_not_rejected em : delivered em -> rejected em -> False.
Proof.
  intros (failures & Hd) Hr. unfold rejected in Hr. rewrite Hd in Hr.
  apply Forall_app in Hr as [_ Hr]. inversion Hr as [|? ? [e He] _].
  discriminate He.
Qed.

(** X13: when the delivery of a partial emission is rejected, [process]
    fails at once: the rejected emission is the last one of the run, the
    ones before it were delivered, no final emission is attempted,
    [isComplete] is left as it was, and the buffer holds exactly the chunks
    up to the one whose emission was rejected: the fragment source is not
    read any further. *)
Theorem rejected_partial_stops_the_run stream p log res p' ems em :
  process stream (p, log) = (res, (p', log ++ ems)) ->
  em ∈ ems -> em_isFinal em = false -> rejected em ->
  exists t ems0 n,
    res = Fail t /\ ems = ems0 ++ [em] /\
    Forall delivered ems0 /\
    Forall (fun e => em_isFinal e = false) ems /\
    isComplete p' = isComplete p /\
    (1 <= n <= length (textStream stream))%nat /\
    em_content em = snapshot p (textStream stream) n /\
    buffer p' = snapshot p (textStream stream) n.
Proof.
  intros Hrun Hin Hpartial Hrej.
  destruct (process_trace stream p log)
    as (res0 & p0 & partials & finals & ns & Hrun0 & _ & Hsub & Hcont & Hall
        & Hfin).
  rewrite Hrun in Hrun0. injection Hrun0 as -> -> Hlog.
  apply app_inv_head in Hlog. subst ems.
  assert (Hnot : Forall delivered partials -> em ∈ partials -> False).
  { intros Hd Hp. rewrite Forall_forall in Hd.
    exact (delivered_not_rejected em (Hd em Hp) Hrej). }
  destruct Hfin as [(-> & Hc & [(e & He & _ & Hd)|
                      (t & ems0 & final & n & -> & -> & Hd & Hrj & Hlast & Hb)])
                   |(ds & -> & _ & _ & _ & Hd)].
  - exfalso. rewrite app_nil_r in Hin. by apply Hnot.
  - rewrite app_nil_r in Hin |- *.
    assert (Hem : em = final).
    { apply elem_of_app in Hin as [Hin|Hin].
      - exfalso. rewrite Forall_forall in Hd.
        exact (delivered_not_rejected em (Hd em Hin) Hrej).
      - by apply list_elem_of_singleton in Hin. }
    subst final. exists t, ems0, n.
    split; [reflexivity|]. split; [reflexivity|]. split; [exact Hd|].
    split; [|split; [exact Hc|split; [|split; [|exact Hb]]]].
    + eapply Forall_impl; [exact Hall|]. by intros x [Hx _].
    + apply last_Some_elem_of in Hlast.
      apply (elem_of_sublist _ _ _ Hlast), elem_of_seq in Hsub. lia.
    + apply (f_equal last) in Hcont.
      rewrite !fmap_last, last_snoc, Hlast in Hcont. by injection Hcont.
  - exfalso. apply elem_of_app in Hin as [Hin|Hin]; [by apply Hnot|].
    apply list_elem_of_singleton in Hin. subst em. discriminate Hpartial.
Qed.

Lemma rejected_partial_stops_the_run_witness :
  exists t ems0 n,
    Fail (A:=string) (ThrowOriginal (PlainError "forbidden")) = Fail t /\
    [mkEmission "Hel" false false [inl (PlainError "forbidden")]]
      = ems0 ++ [mkEmission "Hel" false false [inl (PlainError "forbidden")]] /\
    Forall delivered ems0 /\
    Forall (fun e => em_isFinal e = false)
      [mkEmission "Hel" false false [inl (PlainError "forbidden")]] /\
    false = false /\
    (1 <= n <= 2)%nat /\
    "Hel"%string
      = snapshot (newProcessor "chat" (fun _ _ _ _ => inl (PlainError "forbidden"))
                               (mkOptions None None None))
                 (textStream helloStream) n /\
    "Hel"%string
      = snapshot (newProcessor "chat" (fun _ _ _ _ => inl (PlainError "forbidden"))
                               (mkOptions None None None))
                 (textStream helloStream) n.
Proof.
  apply (rejected_partial_stops_the_run helloStream
           (newProcessor "chat" (fun _ _ _ _ => inl (PlainError "forbidden"))
                         (mkOptions None None None)) []
           (Fail (ThrowOriginal (PlainError "forbidden")))
           (mkProcessor "chat" (fun _ _ _ _ => inl (PlainError "forbidden"))
                        100 1000 true "Hel" 0 false)
           [mkEmission "Hel" false false [inl (PlainError "forbidden")]]
           (mkEmission "Hel" false false [inl (PlainError "forbidden")])).
  - reflexivity.
  - apply list_elem_of_here.
  - reflexivity.
  - constructor; [by exists (PlainError "forbidden")|constructor].
Defined.

Lemma reset_sameConfig p p' : sameConfig p p' -> reset p' = reset p.
Proof.
  intros (H1 & H2 & H3 & H4 & H5). unfold reset, setIsComplete,
    setLastUpdateTime, setBuffer. cbn. by rewrite H1, H2, H3, H4, H5.
Qed.

(** X14: whatever a run did, and whether it returned or failed, [reset]
    afterwards gives the processor the state it had when it was
    constructed. *)
Theorem reset_restores_new_processor chatId callback options stream log :
  reset (fst (snd (process stream
                     (newProcessor chatId callback options, log))))
  = newProcessor chatId callback options.
Proof.
  destruct (process_trace stream (newProcessor chatId callback options) log)
    as (res & p' & partials & finals & ns & Hrun & Hcfg & _).
  rewrite Hrun. cbn [fst snd]. by rewrite (reset_sameConfig _ _ Hcfg).
Qed.





End StreamMore.

(** ** More on the message transformer *)
Module TransformerMore.
Import Transformer TransformerSpec StringFacts TransformerFacts.

Lemma splitLines_nonempty current s : splitLines current s <> [].
Proof.
  revert current. induction s as [|c s IH]; intros current; [done|].
  cbn [splitLines]. destruct (isChar c "010"%char); [done|apply IH].
Qed.

Lemma concat_cons (sep x : string) (l : list string) :
  l <> [] ->
  String.concat sep (x :: l) = (x +:+ sep +:+ String.concat sep l)%string.
Proof. by destruct l. Qed.

Lemma splitLines_join s : forall current,
  String.concat LF (splitLines current s) = (current +:+ s)%string.
Proof.
  induction s as [|c s IH]; intros current.
  - cbn. by rewrite append_nil_r.
  - cbn [splitLines]. unfold isChar.
    destruct (bool_decide_reflect (c = "010"%char)) as [->|Hne].
    + rewrite concat_cons by apply splitLines_nonempty.
      by rewrite IH.
    + rewrite IH, append_assoc. reflexivity.
Qed.

Lemma splitLines_length s : forall current,
  length (splitLines current s) = S (countChar "010"%char s).
Proof.
  induction s as [|c s IH]; intros current; [reflexivity|].
  cbn [splitLines countChar]. destruct (isChar c "010"%char).
  - cbn [length]. by rewrite IH.
  - by rewrite IH.
Qed.

Lemma without_snoc c d s :
  without c s -> d <> c -> without c (s +:+ String d "").
Proof.
  intros Hs Hd. apply without_append; [exact Hs|].
  unfold without. cbn [allChars]. unfold isChar.
  by rewrite bool_decide_eq_false_2.
Qed.

Lemma splitLines_without s : forall current,
  without "010"%char current ->
  Forall (without "010"%char) (splitLines current s).
Proof.
  induction s as [|c s IH]; intros current Hcur.
  - by repeat constructor.
  - cbn [splitLines]. unfold isChar.
    destruct (bool_decide_reflect (c = "010"%char)) as [->|Hne].
    + constructor; [exact Hcur|]. by apply IH.
    + apply IH. by apply without_snoc.
Qed.

(** X15: the card made from a text has one element per line of the text,
    that is one more than the text has line feeds, so never none; the lines
    are free of line feeds and joined by line feeds they give back the
    text; and the [text] field of the response is empty, the content being
    in the card. *)
Theorem card_has_one_element_per_line (markdown : string) :
  let response := transformMoltbotToLark markdown format_card in
  resp_text response = ""%string /\
  exists card lines,
    Transformer.card response = Some card /\
    elements card = map cardElement lines /\
    String.concat LF lines = markdown /\
    Forall (without "010"%char) lines /\
    length (elements card) = S (countChar "010"%char markdown).
Proof.
  cbn. split; [reflexivity|].
  exists (convertMarkdownToCard markdown), (splitLines "" markdown).
  split; [reflexivity|]. split; [reflexivity|]. split; [|split].
  - apply splitLines_join.
  - by apply splitLines_without.
  - cbn. by rewrite length_map, splitLines_length.
Qed.

(** X16: a line becomes a divider exactly when it is blank; otherwise it
    becomes a text block whose content is the line without one of the
    markers ["# "], ["## "], ["- "], ["* "] at its start, or the line
    itself: nothing but a leading marker is ever dropped. *)
Theorem card_element_keeps_the_line (line : string) :
  match cardElement line with
  | Hr => isBlank line = true
  | Div content =>
      isBlank line = false /\
      exists marker, In marker lineMarkers /\
                     line = (marker +:+ content)%string
  end.
Proof.
  unfold cardElement.
  destruct (isBlank line); [reflexivity|].
  destruct (String.prefix "# " line) eqn:H1.
  { split; [reflexivity|]. exists "# "%string. split; [cbn; tauto|].
    by apply (prefix_append "# "). }
  destruct (String.prefix "## " line) eqn:H2.
  { split; [reflexivity|]. exists "## "%string. split; [cbn; tauto|].
    by apply (prefix_append "## "). }
  destruct (String.prefix "- " line) eqn:H3.
  { split; [reflexivity|]. exists "- "%string. split; [cbn; tauto|].
    by apply (prefix_append "- "). }
  destruct (String.prefix "* " line) eqn:H4.
  { split; [reflexivity|]. exists "* "%string. split; [cbn; tauto|].
    by apply (prefix_append "* "). }
  split; [reflexivity|]. exists ""%string. split; [cbn; tauto|reflexivity].
Qed.

Lemma link_startsAt : startsAt "["%char link.
Proof.
  intros s r n H. unfold link in H.
  destruct (delimited "[" "]" "]" s) as [[g1 s1]|] eqn:Hd; [|discriminate].
  apply delimited_Some in Hd as [_ ->]. eexists. reflexivity.
Qed.

(** X17: in the markdown format a text that contains no backtick and no
    opening square bracket is returned as it is. *)
Theorem markdown_without_code_and_links_unchanged (response : string) :
  without "`"%char response -> without "["%char response ->
  resp_text (transformMoltbotToLark response format_markdown) = response.
Proof.
  intros Htick Hbracket. cbn [transformMoltbotToLark resp_text].
  rewrite convertMarkdownToLark_eq. unfold replace.
  rewrite (replaceFrom_startsAt "`"%char codeBlock codeBlock_startsAt _ Htick).
  by apply (replaceFrom_startsAt "["%char link link_startsAt).
Qed.

Lemma markdown_without_code_and_links_unchanged_witness :
  resp_text (transformMoltbotToLark "**Done**: 3 files, *no* errors"
                                    format_markdown)
  = "**Done**: 3 files, *no* errors"%string.
Proof.
  apply markdown_without_code_and_links_unchanged; reflexivity.
Defined.

(** X18: the mentions of a message only put a prefix in front of the text:
    the result for a message with mentions is the result for the same
    message without them, with ["@name "] written before its text for each
    mention in order; attachments and context are the same. *)
Theorem mentions_only_prefix_the_text message m ms :
  let bare := transformLarkToMoltbot (withMentions None message) in
  let result := transformLarkToMoltbot (withMentions (Some (m :: ms)) message) in
  text result = (mentionPrefix (m :: ms) +:+ text bare)%string /\
  attachments result = attachments bare /\
  context result = context bare /\
  transformLarkToMoltbot (withMentions (Some []) message) = bare.
Proof.
  cbn zeta. unfold transformLarkToMoltbot, withMentions, mentionPrefix.
  cbn [text attachments context mentions textContent postContent imageKey
       fileKey chatId senderId senderType timestamp messageId].
  split; [by rewrite append_assoc|]. done.
Qed.

End TransformerMore.

(** ** The message handlers *)
Module HandlersFacts.
Import Errors Transformer Handlers.

(** Parsing and the filter, composed. *)
Lemma parse_then_filter parse event now content :
  parse (raw_content event) = inr content ->
  exists message,
    parseLarkMessage parse event now = inr message /\
    Transformer.chatId message = chat_id event /\
    Transformer.messageId message = message_id event /\
    shouldProcessMessage message
    = negb (String.eqb (sender_type event) "bot")
      && hasContent (msg_type event) content.
Proof.
  intros Hparse. unfold parseLarkMessage. rewrite Hparse.
  eexists. split; [reflexivity|]. split; [reflexivity|].
  split; [reflexivity|].
  unfold shouldProcessMessage, hasContent.
  cbn [senderType textContent postContent imageKey fileKey].
  destruct (String.eqb (sender_type event) "bot"); [reflexivity|].
  cbn [negb andb].
  destruct (msg_type event), (content_text content) as [[|c1 s1]|],
    (content_post content) as [post|], (image_key content) as [[|c3 s3]|],
    (file_key content) as [[|c4 s4]|]; reflexivity.
Qed.

(** X19: a message whose content parses is processed exactly when its
    sender is not a bot and the parsed content has the field its type
    calls for, not empty: the text of a text message, the post of a post
    message, the key of an image or file message.  Messages of the types
    audio, media, sticker and interactive are never processed. *)
Theorem processed_messages parse event now content :
  parse (raw_content event) = inr content ->
  exists message,
    parseLarkMessage parse event now = inr message /\
    shouldProcessMessage message
    = negb (String.eqb (sender_type event) "bot")
      && hasContent (msg_type event) content.
Proof.
  intros Hparse.
  destruct (parse_then_filter parse event now content Hparse)
    as (message & Hm & _ & _ & Hs).
  by exists message.
Qed.

Lemma processed_messages_witness :
  exists message,
    parseLarkMessage (fun _ => inr (mkContent (Some "hi"%string) None None None))
      (mkEvent "om_1" "oc_1" "{}" AUDIO None "ou_1" "user") 5
    = inr message /\
    shouldProcessMessage message = false.
Proof.
  exact (processed_messages
           (fun _ => inr (mkContent (Some "hi"%string) None None None))
           (mkEvent "om_1" "oc_1" "{}" AUDIO None "ou_1" "user") 5
           (mkContent (Some "hi"%string) None None None) eq_refl).
Defined.

End HandlersFacts.

(** ** The sender and the application *)
Module AppFacts.
Import Errors Retry Context Stream StreamSpec StringFacts.
Import LarkClient LarkMessageSender MoltbotClient App AppSpec.

(** What a [retry] with [maxAttempts: 3] throws is never a transient
    error, and never [undefined]. *)
Lemma retry_three_thrown {T} (fn : Operation T) t :
  outcome (retry fn threeAttempts) = Threw t ->
  isTransientError (asError t) = false /\ t <> ThrowUndefined.
Proof.
  intros Hout. pose proof (RetryFacts.retry_spec fn threeAttempts) as Hspec.
  unfold runSpec in Hspec. rewrite Hout in Hspec. cbv zeta in Hspec.
  destruct t as [e|msg a e|].
  - destruct Hspec as (_ & _ & Hr & _). split; [exact Hr|done].
  - split; [reflexivity|done].
  - destruct Hspec as [Hlt _]. change (3 < 1) in Hlt. lia.
Qed.

Lemma retry_three_invocations {T} (fn : Operation T) :
  (1 <= invocations (retry fn threeAttempts) <= 3)%nat.
Proof.
  pose proof (RetryFacts.retry_spec fn threeAttempts) as Hspec.
  unfold runSpec in Hspec. cbv zeta in Hspec.
  change (final_maxAttempts (finalConfig threeAttempts)) with 3 in Hspec.
  destruct (outcome (retry fn threeAttempts)) as [v|[e|msg a e|]]; lia.
Qed.

Lemma sendStreamUpdate_invocations create features update :
  (1 <= invocations (sendStreamUpdate create features update) <= 3)%nat.
Proof.
  unfold sendStreamUpdate.
  destruct (messageCards features && negb (upd_isComplete update));
    apply retry_three_invocations.
Qed.

(** The callback of the application only rejects with errors that are not
    transient. *)
Lemma streamCallback_rejections lark features messageId k chatId content
    isComplete e :
  streamCallback lark features messageId k chatId content isComplete = inl e ->
  isTransientError e = false.
Proof.
  unfold streamCallback, sendStreamUpdate. cbn [upd_isComplete].
  destruct (messageCards features && negb isComplete).
  - destruct (outcome (retry _ threeAttempts)) as [v|t] eqn:Hout; [done|].
    intros [= <-]. by destruct (retry_three_thrown _ t Hout).
  - destruct (outcome (retry _ threeAttempts)) as [v|t] eqn:Hout; [done|].
    intros [= <-]. by destruct (retry_three_thrown _ t Hout).
Qed.

(** With a callback that only rejects with errors that are not transient,
    [sendPartialUpdate] calls the callback once. *)
Lemma sendPartialUpdate_once content isFinal p log d :
  (forall k c s f e, onPartialUpdate p k c s f = inl e ->
                     isTransientError e = false) ->
  d = onPartialUpdate p (callbackCalls log) (Stream.chatId p) content isFinal ->
  sendPartialUpdate content isFinal (p, log) =
    match d with
    | inr _ =>
        (Ok tt, (if isFinal then setBuffer "" p else p,
                 log ++ [mkEmission content isFinal (isComplete p) [d]]))
    | inl e =>
        (Fail (ThrowOriginal e),
         (p, log ++ [mkEmission content isFinal (isComplete p) [d]]))
    end.
Proof.
  intros Hcb Hd. unfold sendPartialUpdate. cbn [fst snd].
  set (fn := fun k : nat =>
         onPartialUpdate p (callbackCalls log + k)%nat (Stream.chatId p)
           content isFinal).
  set (config := mkRetryConfig (Some 3) None None None None).
  assert (H0 : fn 0%nat = d).
  { unfold fn. by rewrite Nat.add_0_r. }
  destruct d as [e|[]].
  - destruct (RetryFacts.retry_original_intro fn config 0 e) as [Ho Hi].
    + cbn. lia.
    + exact H0.
    + apply (Hcb _ _ _ _ _ (eq_sym Hd)).
    + intros k Hk. lia.
    + rewrite Ho, Hi. cbn [seq map]. by rewrite H0.
  - destruct (RetryMore.retry_returned_intro fn config 0 tt) as [Ho Hi].
    + cbn. lia.
    + intros k Hk. lia.
    + exact H0.
    + rewrite Ho, Hi. cbn [seq map]. by rewrite H0.
Qed.

Lemma callbackCalls_snoc log em :
  callbackCalls (log ++ [em])
  = (callbackCalls log + length (em_deliveries em))%nat.
Proof.
  unfold callbackCalls. rewrite map_app, list_sum_app.
  unfold list_sum. cbn [map fold_right]. lia.
Qed.

Lemma oneCallEach_calls cb chat n ems :
  oneCallEach cb chat n ems -> callbackCalls ems = length ems.
Proof.
  revert n. induction ems as [|em ems IH]; intros n; [done|].
  intros [Hem Hrest]. change (em :: ems) with ([em] ++ ems).
  rewrite StreamMore.callbackCalls_app, (IH _ Hrest).
  unfold callbackCalls, list_sum. cbn [map fold_right]. rewrite Hem.
  cbn [length app]. lia.
Qed.

Lemma oneCallEach_app cb chat n ems ems' :
  oneCallEach cb chat n ems ->
  oneCallEach cb chat (n + length ems) ems' ->
  oneCallEach cb chat n (ems ++ ems').
Proof.
  revert n. induction ems as [|em ems IH]; intros n H1 H2.
  - cbn in *. by rewrite Nat.add_0_r in H2.
  - destruct H1 as [Hem Hrest]. split; [exact Hem|].
    apply IH; [exact Hrest|].
    cbn [length] in H2. by replace (S n + length ems)%nat
      with (n + S (length ems))%nat by lia.
Qed.

Lemma processChunks_once cb chunks : forall full p log,
  onPartialUpdate p = cb ->
  (forall k c s f e, cb k c s f = inl e -> isTransientError e = false) ->
  exists res p' ems,
    processChunks chunks full (p, log) = (res, (p', log ++ ems)) /\
    oneCallEach cb (Stream.chatId p) (callbackCalls log) ems /\
    onPartialUpdate p' = cb /\ Stream.chatId p' = Stream.chatId p.
Proof.
  induction chunks as [|c rest IH]; intros full p log Hp Hcb.
  - exists (Ok full), p, []. cbn [processChunks]. unfold ret.
    by rewrite app_nil_r.
  - rewrite StreamFacts.processChunks_cons. cbv zeta.
    set (p1 := setBuffer (buffer p +:+ chunk_text c) p).
    destruct (shouldSendPartialUpdate p1 (chunk_now c)).
    + set (d := cb (callbackCalls log) (Stream.chatId p) (buffer p1) false).
      set (em := mkEmission (buffer p1) false (isComplete p1) [d]).
      assert (Hsend := sendPartialUpdate_once (buffer p1) false p1 log d).
      rewrite Hsend.
      2:{ intros k c0 s f e. cbn [p1 setBuffer onPartialUpdate]. rewrite Hp.
          apply Hcb. }
      2:{ unfold d. cbn [p1 setBuffer onPartialUpdate Stream.chatId].
          by rewrite Hp. }
      fold em. destruct d as [e|u] eqn:Hd.
      * exists (Fail (ThrowOriginal e)), p1, [em].
        split; [reflexivity|]. split; [|done].
        split; [|done]. cbn [em em_deliveries em_content em_isFinal].
        by rewrite <- Hd.
      * destruct (IH (full +:+ chunk_text c)%string
                     (setLastUpdateTime (chunk_now c) p1) (log ++ [em]))
          as (res & p' & ems & Hrun & Hone & Hp' & Hc'); [exact Hp|exact Hcb|].
        exists res, p', (em :: ems).
        rewrite Hrun, <- app_assoc. split; [reflexivity|].
        split; [|done]. split.
        -- cbn [em em_deliveries em_content em_isFinal]. by rewrite <- Hd.
        -- rewrite callbackCalls_snoc in Hone.
           cbn [em em_deliveries length] in Hone.
           by replace (S (callbackCalls log))
             with (callbackCalls log + 1)%nat by lia.
    + destruct (IH (full +:+ chunk_text c)%string p1 log)
        as (res & p' & ems & Hrun & Hone & Hp' & Hc'); [exact Hp|exact Hcb|].
      exists res, p', ems. by rewrite Hrun.
Qed.

Lemma process_once cb stream p log :
  onPartialUpdate p = cb ->
  (forall k c s f e, cb k c s f = inl e -> isTransientError e = false) ->
  exists res p' ems,
    process stream (p, log) = (res, (p', log ++ ems)) /\
    oneCallEach cb (Stream.chatId p) (callbackCalls log) ems.
Proof.
  intros Hp Hcb. rewrite StreamFacts.process_unfold.
  destruct (processChunks_once cb (textStream stream) "" p log Hp Hcb)
    as (res1 & p1 & ems & Hrun & Hone & Hp1 & Hc1).
  rewrite Hrun. destruct res1 as [full|t]; [|by exists (Fail t), p1, ems].
  destruct (textStreamError stream) as [e|];
    [by exists (Fail (ThrowOriginal e)), p1, ems|].
  set (p2 := setIsComplete true p1).
  set (d := cb (callbackCalls (log ++ ems)) (Stream.chatId p) full true).
  set (em := mkEmission full true (isComplete p2) [d]).
  assert (Hsend := sendPartialUpdate_once full true p2 (log ++ ems) d).
  rewrite Hsend.
  2:{ intros k c0 s f e. cbn [p2 setIsComplete onPartialUpdate]. rewrite Hp1.
      apply Hcb. }
  2:{ unfold d. cbn [p2 setIsComplete onPartialUpdate Stream.chatId].
      by rewrite Hp1, Hc1. }
  fold em.
  assert (Hall : oneCallEach cb (Stream.chatId p) (callbackCalls log)
                   (ems ++ [em])).
  { apply oneCallEach_app; [exact Hone|]. split; [|done].
    cbn [em em_deliveries em_content em_isFinal]. unfold d.
    rewrite StreamMore.callbackCalls_app, (oneCallEach_calls _ _ _ _ Hone).
    reflexivity. }
  destruct d as [e|u].
  - exists (Fail (ThrowOriginal e)), p2, (ems ++ [em]).
    by rewrite app_assoc.
  - destruct (finishReason stream) as [e|reason].
    + exists (Fail (ThrowOriginal e)), (setBuffer "" p2), (ems ++ [em]).
      by rewrite app_assoc.
    + exists (Ok full), (setBuffer "" p2), (ems ++ [em]).
      by rewrite app_assoc.
Qed.

(** X20: the two retries do not multiply.  The stream processor retries
    its callback and the callback of the application retries the SDK call,
    both up to three times; but what the inner retry throws is never a
    transient error, so the processor calls the callback exactly once for
    each emission, and each emission costs between one and three SDK
    calls, never nine. *)
Theorem nested_retries_do_not_multiply lark features messageId chatId options
    stream :
  let cb := streamCallback lark features messageId in
  (exists res p' ems,
     process stream (newProcessor chatId cb options, []) = (res, (p', ems)) /\
     oneCallEach cb chatId 0 ems /\
     callbackCalls ems = length ems) /\
  (forall k update,
     (1 <= invocations (sendStreamUpdate (lark k) features update) <= 3)%nat) /\
  (forall k chat content isComplete e,
     cb k chat content isComplete = inl e -> isTransientError e = false).
Proof.
  intros cb. split; [|split].
  - destruct (process_once cb stream (newProcessor chatId cb options) [])
      as (res & p' & ems & Hrun & Hone); [reflexivity| |].
    { intros k c s f e. apply streamCallback_rejections. }
    exists res, p', ems. split; [exact Hrun|]. split; [exact Hone|].
    exact (oneCallEach_calls _ _ _ _ Hone).
  - intros k update. apply sendStreamUpdate_invocations.
  - intros k chat content isComplete e. apply streamCallback_rejections.
Qed.

Lemma mostRecent_snoc {A} (n : nat) (x : list A) (u : A) :
  mostRecent (S n) (x ++ [u]) = mostRecent n x ++ [u].
Proof.
  unfold mostRecent. rewrite length_app. cbn [length].
  replace (length x + 1 - S n)%nat with (length x - n)%nat by lia.
  by rewrite drop_app_le by lia.
Qed.

(** A read right after an append returns the trimmed history. *)
Lemma fresh_read id u t_user t_read mgr :
  0 <= maxHistoryLength mgr -> t_read - t_user <= maxAge mgr ->
  getContext id t_read (addMessage id u t_user mgr)
  = (mostRecent (Z.to_nat (maxHistoryLength mgr)) (stored id mgr ++ [u]),
     addMessage id u t_user mgr).
Proof.
  intros Hmax Hfresh. unfold getContext.
  rewrite ContextFacts.addMessage_lookup. cbn [lastActivity messages].
  change (maxAge (addMessage id u t_user mgr)) with (maxAge mgr).
  destruct (Z.gtb_spec (t_read - t_user) (maxAge mgr)); [lia|].
  cbv zeta. by rewrite ContextFacts.trim_mostRecent.
Qed.

Lemma answered_parsed env clock event :
  answered env event ->
  exists parsed,
    Handlers.parseLarkMessage (parse env) event (at_parse clock) = inr parsed /\
    Transformer.chatId parsed = Handlers.chat_id event /\
    Transformer.messageId parsed = Handlers.message_id event /\
    Handlers.shouldProcessMessage parsed = true /\
    userMessageOf env clock event
    = mkMessage user (Transformer.text (Transformer.transformLarkToMoltbot parsed)).
Proof.
  intros (content & Hparse & Hbot & Hcontent).
  destruct (HandlersFacts.parse_then_filter (parse env) event (at_parse clock)
              content Hparse) as (parsed & Hp & Hc & Hm & Hs).
  exists parsed. split; [exact Hp|]. split; [exact Hc|]. split; [exact Hm|].
  split.
  - by rewrite Hs, Hbot, Hcontent.
  - unfold userMessageOf. by rewrite Hp.
Qed.

Lemma handle_answered env clock app event :
  let mgr := conversationManager app in
  let chat := Handlers.chat_id event in
  let u := userMessageOf env clock event in
  let r := responseTo env clock app event in
  isShuttingDown app = false -> answered env event ->
  0 <= maxHistoryLength mgr -> at_read clock - at_user clock <= maxAge mgr ->
  handleLarkMessage env clock app event
  = mkHandled (manager_then r)
      (Some (mostRecent (Z.to_nat (maxHistoryLength mgr))
               (stored chat mgr ++ [u]) ++ [u]))
      (emitted r) (replied r)
      match thrown r with
      | None => None
      | Some t => Some (notify env event (senderCalls r) (asError t))
      end.
Proof.
  intros mgr chat u r Hshut Hans Hmax Hfresh.
  destruct (answered_parsed env clock event Hans)
    as (parsed & Hp & Hc & Hm & Hs & Hu).
  unfold handleLarkMessage. rewrite Hshut, Hp, Hs. cbn [negb].
  rewrite Hc, Hm. fold mgr. rewrite <- Hu. fold u chat.
  rewrite fresh_read by done. reflexivity.
Qed.

Lemma sample_answered : answered sampleEnvironment sampleEvent.
Proof.
  exists (Handlers.mkContent (Some "hi"%string) None None None).
  split; [reflexivity|]. split; reflexivity.
Qed.

(** X21: the request to the model ends with the user's message twice.
    The message is first added to the history and the history is then read
    back and the message appended to it again: for an answered event, a
    history bound of at least one and a clock that does not jump, the
    model receives the last [maxHistoryLength - 1] earlier messages of the
    conversation followed by two copies of the new user message. *)
Theorem model_request_repeats_user_message env clock app event :
  let mgr := conversationManager app in
  let u := userMessageOf env clock event in
  isShuttingDown app = false -> answered env event ->
  1 <= maxHistoryLength mgr -> at_read clock - at_user clock <= maxAge mgr ->
  modelRequest (handleLarkMessage env clock app event)
  = Some (mostRecent (Z.to_nat (maxHistoryLength mgr) - 1)
            (stored (Handlers.chat_id event) mgr) ++ [u; u]).
Proof.
  intros mgr u Hshut Hans Hmax Hfresh.
  rewrite handle_answered by (done || (fold mgr; lia)).
  cbn [modelRequest]. fold mgr u. f_equal.
  destruct (Z.to_nat (maxHistoryLength mgr)) as [|n] eqn:Hn; [lia|].
  rewrite mostRecent_snoc, <- app_assoc.
  by replace (S n - 1)%nat with n by lia.
Qed.

Lemma model_request_repeats_user_message_witness :
  modelRequest
    (handleLarkMessage sampleEnvironment sampleClock sampleApp sampleEvent)
  = Some [mkMessage user "hi"; mkMessage user "hi"].
Proof.
  exact (model_request_repeats_user_message sampleEnvironment sampleClock
           sampleApp sampleEvent eq_refl sample_answered
           ltac:(cbn; lia) ltac:(cbn; lia)).
Defined.

Lemma process_Ok stream p log full st :
  process stream (p, log) = (Ok full, st) ->
  full = fullText (textStream stream) /\
  textStreamError stream = None /\
  exists reason, finishReason stream = inr reason.
Proof.
  rewrite StreamFacts.process_unfold.
  destruct (StreamFacts.processChunks_spec (textStream stream) "" p log)
    as (res1 & p1 & partials & Hrun & _ & _ & _ & Hres).
  rewrite Hrun. destruct res1 as [full1|t]; [|discriminate].
  destruct Hres as [Hfull _].
  destruct (textStreamError stream); [discriminate|].
  destruct (sendPartialUpdate full1 true _) as [[[]|t] st2]; [|discriminate].
  destruct (finishReason stream) as [e|reason]; [discriminate|].
  intros [= <- <-]. split; [exact Hfull|]. split; [reflexivity|].
  by exists reason.
Qed.

Lemma stored_after_user id u now mgr :
  0 <= maxHistoryLength mgr ->
  stored id (addMessage id u now mgr)
  = mostRecent (Z.to_nat (maxHistoryLength mgr)) (stored id mgr ++ [u]).
Proof. apply ContextFacts.addMessage_stored. Qed.

Lemma stored_after_assistant id u a now now' mgr :
  0 <= maxHistoryLength mgr ->
  stored id (addMessage id a now' (addMessage id u now mgr))
  = mostRecent (Z.to_nat (maxHistoryLength mgr)) (stored id mgr ++ [u; a]).
Proof.
  intros Hmax. rewrite ContextFacts.addMessage_stored by done.
  rewrite stored_after_user by done.
  change (maxHistoryLength (addMessage id u now mgr))
    with (maxHistoryLength mgr).
  by rewrite ContextFacts.mostRecent_app_absorb, <- app_assoc.
Qed.

(** X22: the outcome of a streamed exchange.  For an answered event, the
    user's message is recorded in every case.  Either no error notice is
    sent, and then the fragment source ended normally, the last emission
    is the final one with the whole text, and the history is the old one
    followed by the user's message and an assistant message with the whole
    text, cut to the bound; or an error notice is sent as a reply to the
    user's message, its text the cross mark, a space and the message of the
    error, and then no assistant message is recorded. *)
Theorem streamed_exchange_outcome env clock app event :
  let mgr := conversationManager app in
  let chat := Handlers.chat_id event in
  let u := userMessageOf env clock event in
  let n := Z.to_nat (maxHistoryLength mgr) in
  let h := handleLarkMessage env clock app event in
  isShuttingDown app = false -> answered env event -> streaming env = true ->
  0 <= maxHistoryLength mgr -> at_read clock - at_user clock <= maxAge mgr ->
  (errorNotice h = None /\
   exists messages stream partials ds,
     modelRequest h = Some messages /\
     streamText (sdk env) messages = inr stream /\
     textStreamError stream = None /\
     emissions h
     = partials ++ [mkEmission (fullText (textStream stream)) true true ds] /\
     stored chat (manager_after h)
     = mostRecent n
         (stored chat mgr
          ++ [u; mkMessage assistant (fullText (textStream stream))]))
  \/
  (exists error run,
     errorNotice h
     = Some (textRequest chat (crossMark +:+ " " +:+ message_of error)
               (Some (Handlers.message_id event)), run) /\
     outcome run = Returned tt /\
     stored chat (manager_after h) = mostRecent n (stored chat mgr ++ [u])).
Proof.
  intros mgr chat u n h Hshut Hans Hstream Hmax Hfresh.
  unfold h. rewrite handle_answered by done.
  fold mgr chat u n. unfold responseTo. rewrite Hstream.
  fold mgr chat u n.
  set (messages := mostRecent n (stored chat mgr ++ [u]) ++ [u]).
  unfold handleStreamingResponse, sendStreamRequest.
  destruct (streamText (sdk env) messages) as [err|stream] eqn:Hsdk.
  - right. cbn [thrown manager_then emitted replied errorNotice manager_after].
    eexists _, _. split; [reflexivity|]. split; [reflexivity|].
    by apply stored_after_user.
  - set (p := newProcessor chat _ _).
    destruct (process stream (p, [])) as [[full|t] [p' log]] eqn:Hrun.
    + left.
      cbn [thrown manager_then emitted replied errorNotice manager_after
           modelRequest emissions].
      split; [reflexivity|].
      destruct (process_Ok stream p [] full (p', log) Hrun)
        as (-> & Herr & reason & Hfin).
      destruct (StreamFacts.process_cases stream p [])
        as (res & p2 & partials & _ & [(Heq & (t & ->) & _)|
              (ds & _ & Heq & _)]); rewrite Hrun in Heq.
      * discriminate.
      * exists messages, stream, partials, ds.
        split; [reflexivity|]. split; [exact Hsdk|]. split; [exact Herr|].
        split; [by injection Heq|].
        by apply stored_after_assistant.
    + right.
      cbn [thrown manager_then emitted replied errorNotice manager_after].
      eexists _, _. split; [reflexivity|]. split; [reflexivity|].
      by apply stored_after_user.
Qed.

Lemma streamed_exchange_outcome_witness :
  stored "oc_1"
    (manager_after
       (handleLarkMessage sampleEnvironment sampleClock sampleApp sampleEvent))
  = [mkMessage user "hi"; mkMessage assistant "Hello"].
Proof.
  destruct (streamed_exchange_outcome sampleEnvironment sampleClock sampleApp
              sampleEvent eq_refl sample_answered eq_refl
              ltac:(cbn; lia) ltac:(cbn; lia))
    as [(_ & messages & stream & partials & ds & Hreq & Hsdk & _ & _ & Hst)|
        (error & run & Hnotice & _)].
  - injection Hsdk as <-. exact Hst.
  - discriminate Hnotice.
Defined.

(** X23: the model is asked exactly for the answered events.  A request
    is made to the model exactly when the application is not shutting down,
    the content of the message parses, the sender is not a bot and the
    message has the content its type calls for.  In every other case the
    history is left as it is and nothing is emitted or replied; an error
    notice is sent exactly when the content does not parse (and the
    application is not shutting down), so a message of a bot, or one
    without content, is dropped in silence. *)
Theorem model_asked_iff_answered env clock app event :
  let h := handleLarkMessage env clock app event in
  (modelRequest h <> None <->
   isShuttingDown app = false /\ answered env event) /\
  (modelRequest h = None ->
   manager_after h = conversationManager app /\
   emissions h = [] /\ textReply h = None /\
   (errorNotice h <> None <->
    isShuttingDown app = false /\
    exists e, parse env (Handlers.raw_content event) = inl e) /\
   forall e, isShuttingDown app = false ->
     parse env (Handlers.raw_content event) = inl e ->
     errorNotice h
     = Some (notify env event 0
               (PlainError ("Failed to parse message: " +:+ message_of e)))).
Proof.
  intros h. unfold h, handleLarkMessage.
  destruct (isShuttingDown app) eqn:Hshut.
  { cbn. split; [split; [done|by intros [? _]]|]. intros _.
    repeat split; try done. by intros [? _]. }
  destruct (parse env (Handlers.raw_content event)) as [e|content] eqn:Hparse.
  { unfold Handlers.parseLarkMessage. rewrite Hparse. cbn.
    split.
    - split; [done|]. intros [_ (content & Hc & _)]. congruence.
    - intros _. repeat split; try done.
      + by exists e.
      + intros e' _ [= <-]. reflexivity. }
  destruct (HandlersFacts.parse_then_filter (parse env) event (at_parse clock)
              content Hparse) as (parsed & Hp & Hc & Hm & Hs).
  rewrite Hp, Hs.
  assert (Hnot : String.eqb (Handlers.sender_type event) "bot" = true \/
                 Handlers.hasContent (Handlers.msg_type event) content = false ->
                 ~ answered env event).
  { intros Hor (content' & Hc' & Hbot & Hcontent). rewrite Hparse in Hc'.
    injection Hc' as <-. destruct Hor; congruence. }
  destruct (String.eqb (Handlers.sender_type event) "bot") eqn:Hbot.
  { cbn. split.
    - split; [done|]. intros [_ Hans]. destruct Hnot; auto.
    - intros _. repeat split; try done. by intros [_ [e He]]. }
  destruct (Handlers.hasContent (Handlers.msg_type event) content) eqn:Hcontent.
  2:{ cbn. split.
    - split; [done|]. intros [_ Hans]. destruct Hnot; auto.
    - intros _. repeat split; try done. by intros [_ [e He]]. }
  cbn [negb andb].
  destruct (getContext _ _ _) as [history mgr2]. cbn [modelRequest].
  split; [|done]. split; [|done]. intros _. split; [reflexivity|].
  by exists content.
Qed.

(** X24: a failing request to the model.  When the call of the "ai"
    package throws, nothing is emitted or replied but an error notice,
    which is sent as a reply to the user's message; the user's message
    stays in the history without an answer.  The notice quotes the cause
    only when the message of the cause contains ECONNREFUSED, ETIMEDOUT or
    ENOTFOUND; otherwise, and for a thrown value that is not an Error, it
    shows a fixed text. *)
Theorem model_failure_notice env clock app event error :
  let mgr := conversationManager app in
  let chat := Handlers.chat_id event in
  let u := userMessageOf env clock event in
  let n := Z.to_nat (maxHistoryLength mgr) in
  let h := handleLarkMessage env clock app event in
  let messages := mostRecent n (stored chat mgr ++ [u]) ++ [u] in
  let cause := default ""%string (message_of <$> error) in
  let shown :=
    if includes "ECONNREFUSED" cause || includes "ETIMEDOUT" cause ||
       includes "ENOTFOUND" cause
    then ("Connection error: " +:+ cause)%string
    else if streaming env
         then "Failed to send streaming request to Moltbot"%string
         else "Failed to send request to Moltbot"%string in
  isShuttingDown app = false -> answered env event ->
  0 <= maxHistoryLength mgr -> at_read clock - at_user clock <= maxAge mgr ->
  (if streaming env
   then streamText (sdk env) messages = inl error
   else generateText (sdk env) messages = inl error) ->
  emissions h = [] /\ textReply h = None /\
  (exists run,
     errorNotice h
     = Some (textRequest chat (crossMark +:+ " " +:+ shown)
               (Some (Handlers.message_id event)), run) /\
     outcome run = Returned tt /\ (1 <= invocations run <= 3)%nat) /\
  stored chat (manager_after h) = mostRecent n (stored chat mgr ++ [u]).
Proof.
  intros mgr chat u n h messages cause shown Hshut Hans Hmax Hfresh Hsdk.
  unfold h. rewrite handle_answered by done.
  fold mgr chat u n. unfold responseTo. fold mgr chat u n messages.
  assert (Hmsg : forall fixed,
    message_of (handleError error fixed)
    = if includes "ECONNREFUSED" cause || includes "ETIMEDOUT" cause ||
         includes "ENOTFOUND" cause
      then ("Connection error: " +:+ cause)%string else fixed).
  { intros fixed. unfold cause, handleError. destruct error as [e|].
    - cbn [fmap option_fmap option_map default from_option id].
      by destruct (_ || _).
    - reflexivity. }
  unfold shown.
  destruct (streaming env).
  - unfold handleStreamingResponse, sendStreamRequest. rewrite Hsdk.
    cbn [thrown manager_then emitted replied errorNotice manager_after
         emissions textReply senderCalls].
    split; [reflexivity|]. split; [reflexivity|].
    split; [|by apply stored_after_user].
    eexists. unfold notify. cbn [asError]. rewrite Hmsg.
    split; [reflexivity|]. split; [reflexivity|].
    unfold sendErrorMessage. cbn [invocations].
    apply retry_three_invocations.
  - unfold handleNonStreamingResponse, sendRequest. rewrite Hsdk.
    cbn [thrown manager_then emitted replied errorNotice manager_after
         emissions textReply senderCalls].
    split; [reflexivity|]. split; [reflexivity|].
    split; [|by apply stored_after_user].
    eexists. unfold notify. cbn [asError]. rewrite Hmsg.
    split; [reflexivity|]. split; [reflexivity|].
    unfold sendErrorMessage. cbn [invocations].
    apply retry_three_invocations.
Qed.

Lemma model_failure_notice_witness :
  exists run,
    errorNotice
      (handleLarkMessage unreachableModel sampleClock sampleApp sampleEvent)
    = Some (textRequest "oc_1"
              (crossMark +:+ " Connection error: "
               +:+ "connect ECONNREFUSED 127.0.0.1:3000")
              (Some "om_1"%string), run).
Proof.
  destruct (model_failure_notice unreachableModel sampleClock sampleApp
              sampleEvent
              (Some (PlainError "connect ECONNREFUSED 127.0.0.1:3000"))
              eq_refl
              (ex_intro _ (Handlers.mkContent (Some "hi"%string) None None None)
                 (conj eq_refl (conj eq_refl eq_refl)))
              ltac:(cbn; lia) ltac:(cbn; lia) eq_refl)
    as (_ & _ & (run & Hnotice & _) & _).
  exists run. exact Hnotice.
Defined.

(** X25: the exchange without streaming.  The answer of the model is sent
    as a text message whose [uuid] is the id of the user's message, with at
    least one and at most three calls of the SDK, and only then recorded:
    when the sending succeeds the history gains the user's message and the
    answer and no error notice is sent; when it fails the history gains the
    user's message only and an error notice is sent, the second call of the
    sender. *)
Theorem non_streaming_exchange env clock app event text :
  let mgr := conversationManager app in
  let chat := Handlers.chat_id event in
  let replyTo := Some (Handlers.message_id event) in
  let u := userMessageOf env clock event in
  let n := Z.to_nat (maxHistoryLength mgr) in
  let h := handleLarkMessage env clock app event in
  let messages := mostRecent n (stored chat mgr ++ [u]) ++ [u] in
  let sent := LarkMessageSender.sendTextMessage (lark env 0%nat) chat text
                replyTo in
  isShuttingDown app = false -> answered env event -> streaming env = false ->
  0 <= maxHistoryLength mgr -> at_read clock - at_user clock <= maxAge mgr ->
  generateText (sdk env) messages = inr text ->
  emissions h = [] /\
  textReply h = Some (textRequest chat text replyTo, sent) /\
  (1 <= invocations sent <= 3)%nat /\
  match outcome sent with
  | Returned _ =>
      errorNotice h = None /\
      stored chat (manager_after h)
      = mostRecent n (stored chat mgr ++ [u; mkMessage assistant text])
  | Threw t =>
      errorNotice h = Some (notify env event 1 (asError t)) /\
      isTransientError (asError t) = false /\
      stored chat (manager_after h) = mostRecent n (stored chat mgr ++ [u])
  end.
Proof.
  intros mgr chat replyTo u n h messages sent Hshut Hans Hstream Hmax Hfresh
    Hsdk.
  unfold h. rewrite handle_answered by done.
  fold mgr chat u n. unfold responseTo. rewrite Hstream.
  fold mgr chat u n messages.
  unfold handleNonStreamingResponse, sendRequest. rewrite Hsdk.
  fold replyTo sent.
  split; [by destruct (outcome sent)|].
  split; [by destruct (outcome sent)|].
  split; [apply retry_three_invocations|].
  destruct (outcome sent) as [v|t] eqn:Hout.
  - cbn [thrown manager_then errorNotice manager_after].
    split; [reflexivity|]. by apply stored_after_assistant.
  - cbn [thrown manager_then errorNotice manager_after emitted replied
         senderCalls callbackCalls].
    split; [reflexivity|].
    split; [by destruct (retry_three_thrown _ t Hout)|].
    by apply stored_after_user.
Qed.

Lemma non_streaming_exchange_witness :
  stored "oc_1"
    (manager_after
       (handleLarkMessage unreachableLark sampleClock sampleApp sampleEvent))
  = [mkMessage user "hi"].
Proof.
  exact (proj2 (proj2 (proj2 (proj2 (proj2
           (non_streaming_exchange unreachableLark sampleClock sampleApp
              sampleEvent "Hello" eq_refl
              (ex_intro _ (Handlers.mkContent (Some "hi"%string) None None None)
                 (conj eq_refl (conj eq_refl eq_refl)))
              eq_refl ltac:(cbn; lia) ltac:(cbn; lia) eq_refl)))))).
Defined.

(** A callback that resolves at every call: the loop delivers every
    emission and ends normally. *)
Lemma processChunks_delivering cb chunks : forall full p log,
  onPartialUpdate p = cb ->
  (forall k c s f, cb k c s f = inr tt) ->
  exists p' ems,
    processChunks chunks full (p, log)
    = (Ok (full +:+ fullText chunks)%string, (p', log ++ ems)) /\
    callbackCalls (log ++ ems) = (callbackCalls log + length ems)%nat /\
    onPartialUpdate p' = cb /\ Stream.chatId p' = Stream.chatId p.
Proof.
  induction chunks as [|c rest IH]; intros full p log Hp Hcb.
  - exists p, []. cbn [processChunks fullText]. unfold ret.
    rewrite !app_nil_r, append_nil_r. cbn [length]. by rewrite Nat.add_0_r.
  - rewrite StreamFacts.processChunks_cons. cbv zeta.
    set (p1 := setBuffer (buffer p +:+ chunk_text c) p).
    cbn [fullText]. rewrite <- append_assoc.
    destruct (shouldSendPartialUpdate p1 (chunk_now c)).
    + rewrite (sendPartialUpdate_once (buffer p1) false p1 log (inr tt)).
      2:{ intros k c0 s f e. cbn [p1 setBuffer onPartialUpdate]. rewrite Hp.
          by rewrite Hcb. }
      2:{ cbn [p1 setBuffer onPartialUpdate]. by rewrite Hp, Hcb. }
      set (em := mkEmission (buffer p1) false (isComplete p1) [inr tt]).
      destruct (IH (full +:+ chunk_text c)%string
                   (setLastUpdateTime (chunk_now c) p1) (log ++ [em]))
        as (p' & ems & Hrun & Hcalls & Hp' & Hc'); [exact Hp|exact Hcb|].
      exists p', (em :: ems). rewrite Hrun, <- app_assoc.
      split; [reflexivity|]. split; [|done].
      change (log ++ em :: ems) with (log ++ [em] ++ ems).
      rewrite app_assoc, Hcalls, callbackCalls_snoc. cbn [em em_deliveries length].
      lia.
    + destruct (IH (full +:+ chunk_text c)%string p1 log)
        as (p' & ems & Hrun & Hcalls & Hp' & Hc'); [exact Hp|exact Hcb|].
      exists p', ems. by rewrite Hrun.
Qed.

Lemma streamCallback_delivering lark features messageId :
  (forall k j request, lark k j request = inr tt) ->
  forall k chat content isComplete,
    streamCallback lark features messageId k chat content isComplete = inr tt.
Proof.
  intros Hlark k chat content isComplete.
  unfold streamCallback, sendStreamUpdate.
  cbn [upd_isComplete upd_chatId upd_content upd_messageId].
  destruct (messageCards features && negb isComplete).
  - destruct (RetryMore.retry_returned_intro
                (LarkClient.sendCardMessage (lark k) chat
                   (partialCard content) None)
                threeAttempts 0 tt) as [Ho _].
    + cbn. lia.
    + intros j Hj. lia.
    + apply Hlark.
    + by rewrite Ho.
  - destruct (RetryMore.retry_returned_intro
                (LarkClient.sendTextMessage (lark k) chat content
                   (if isComplete then None else Some messageId))
                threeAttempts 0 tt) as [Ho _].
    + cbn. lia.
    + intros j Hj. lia.
    + apply Hlark.
    + by rewrite Ho.
Qed.

(** X26: an answer delivered but not recorded.  When every message to Lark
    is delivered and the fragment source ends normally but [finishReason]
    rejects, the user has received the whole answer in a final emission and
    then receives an error notice with the message of the rejection; the
    answer is not recorded in the history, which ends with the user's
    message. *)
Theorem answer_delivered_but_not_recorded env clock app event stream e :
  let mgr := conversationManager app in
  let chat := Handlers.chat_id event in
  let u := userMessageOf env clock event in
  let n := Z.to_nat (maxHistoryLength mgr) in
  let h := handleLarkMessage env clock app event in
  let messages := mostRecent n (stored chat mgr ++ [u]) ++ [u] in
  isShuttingDown app = false -> answered env event -> streaming env = true ->
  0 <= maxHistoryLength mgr -> at_read clock - at_user clock <= maxAge mgr ->
  streamText (sdk env) messages = inr stream ->
  textStreamError stream = None -> finishReason stream = inl e ->
  (forall k j request, lark env k j request = inr tt) ->
  exists partials,
    emissions h
    = partials
      ++ [mkEmission (fullText (textStream stream)) true true [inr tt]] /\
    errorNotice h = Some (notify env event (S (length partials)) e) /\
    stored chat (manager_after h) = mostRecent n (stored chat mgr ++ [u]).
Proof.
  intros mgr chat u n h messages Hshut Hans Hstream Hmax Hfresh Hsdk Herr Hfin
    Hlark.
  unfold h. rewrite handle_answered by done.
  fold mgr chat u n. unfold responseTo. rewrite Hstream.
  fold mgr chat u n messages.
  unfold handleStreamingResponse, sendStreamRequest. rewrite Hsdk.
  set (cb := streamCallback (lark env) (features env)
               (Handlers.message_id event)).
  set (p := newProcessor chat cb _).
  pose proof (streamCallback_delivering (lark env) (features env)
                (Handlers.message_id event) Hlark) as Hcb. fold cb in Hcb.
  rewrite StreamFacts.process_unfold.
  destruct (processChunks_delivering cb (textStream stream) "" p [])
    as (p1 & ems & Hrun & Hcalls & Hp1 & Hc1); [reflexivity|exact Hcb|].
  rewrite app_nil_l in Hrun, Hcalls. rewrite Hrun, Herr.
  rewrite (sendPartialUpdate_once _ true (setIsComplete true p1) ems
             (inr tt)).
  2:{ intros k c0 s f e0. cbn [setIsComplete onPartialUpdate]. rewrite Hp1.
      by rewrite Hcb. }
  2:{ cbn [setIsComplete onPartialUpdate]. by rewrite Hp1, Hcb. }
  rewrite Hfin.
  cbn [thrown manager_then emitted replied errorNotice manager_after
       emissions senderCalls setIsComplete isComplete].
  exists ems. split; [reflexivity|]. split; [|by apply stored_after_user].
  unfold senderCalls. cbn [emitted replied asError].
  rewrite callbackCalls_snoc. cbn [em_deliveries length].
  rewrite Hcalls. do 2 f_equal.
  unfold callbackCalls at 1, list_sum. cbn [map fold_right]. lia.
Qed.

Lemma answer_delivered_but_not_recorded_witness :
  exists partials,
    emissions
      (handleLarkMessage brokenFinish sampleClock sampleApp sampleEvent)
    = partials ++ [mkEmission "Hello" true true [inr tt]] /\
    errorNotice
      (handleLarkMessage brokenFinish sampleClock sampleApp sampleEvent)
    = Some (notify brokenFinish sampleEvent (S (length partials))
              (PlainError "aborted")) /\
    stored "oc_1"
      (manager_after
         (handleLarkMessage brokenFinish sampleClock sampleApp sampleEvent))
    = [mkMessage user "hi"].
Proof.
  exact (answer_delivered_but_not_recorded brokenFinish sampleClock sampleApp
           sampleEvent
           (mkStream [mkChunk "Hel" 1700000000000; mkChunk "lo" 1700000000200]
                     None (inl (PlainError "aborted")))
           (PlainError "aborted") eq_refl
           (ex_intro _ (Handlers.mkContent (Some "hi"%string) None None None)
              (conj eq_refl (conj eq_refl eq_refl)))
           eq_refl ltac:(cbn; lia) ltac:(cbn; lia) eq_refl eq_refl eq_refl
           (fun _ _ _ => eq_refl)).
Defined.

(** X28: attachments never reach the model.  For an image or file
    message the user message made for the model has no content but the
    mentions: its text is empty, or the names of the mentions, whatever the
    image or file key is. *)
Theorem attachments_never_reach_the_model env clock event content :
  parse env (Handlers.raw_content event) = inr content ->
  Handlers.msg_type event = Transformer.IMAGE \/
  Handlers.msg_type event = Transformer.FILE ->
  userMessageOf env clock event
  = mkMessage user
      match Handlers.event_mentions event with
      | Some (m :: ms) => TransformerSpec.mentionPrefix (m :: ms)
      | _ => ""%string
      end.
Proof.
  intros Hparse Htype. unfold userMessageOf, Handlers.parseLarkMessage.
  rewrite Hparse. f_equal. unfold Transformer.transformLarkToMoltbot.
  cbn [Transformer.text Transformer.textContent Transformer.postContent
       Transformer.mentions].
  destruct Htype as [-> | ->]; cbn [Transformer.truthy];
    (destruct (Handlers.event_mentions event) as [[|m ms]|];
     [reflexivity| |reflexivity]);
    unfold TransformerSpec.mentionPrefix; by rewrite append_nil_r.
Qed.

Lemma attachments_never_reach_the_model_witness :
  userMessageOf imageEnvironment sampleClock imageEvent = mkMessage user "".
Proof.
  exact (attachments_never_reach_the_model imageEnvironment sampleClock
           imageEvent
           (Handlers.mkContent None None (Some "img_v2_1"%string) None)
           eq_refl (or_introl eq_refl)).
Defined.

End AppFacts.
